(** * Session transcript repair: sanitizer, pairing repairer and textifier

    A shallow embedding of [session-transcript-repair.ts]: the three
    transforms that run over a transcript (an array of loosely typed
    messages) before it is sent to a model API, and the properties the
    specification states about them.

    The source works on untyped JavaScript values and checks every shape
    defensively ([typeof], [Array.isArray], [in]); the embedding keeps
    that: a message is a [value], and every accessor is total. *)

From Stdlib Require Import ZArith.
From stdpp Require Import gmap strings list fin_maps.

Open Scope string_scope.
Open Scope list_scope.
Open Scope nat_scope.
Set Warnings "-register-all,-clear-no-such-hyp".

(** ** JavaScript values *)

(** Numbers are integers here (time stamps); a string is a sequence of
    code units, one [ascii] per unit.  An object is its list of own
    properties in insertion order. *)
Inductive value : Type :=
  | VUndefined
  | VNull
  | VBool (b : bool)
  | VNum (n : Z)
  | VStr (s : string)
  | VArr (elems : list value)
  | VObj (fields : list (string * value)).

(** [!v] is false: the value is truthy. *)
Definition truthy (v : value) : bool :=
  match v with
  | VUndefined | VNull => false
  | VBool b => b
  | VNum n => negb (n =? 0)%Z
  | VStr s => negb (String.eqb s "")
  | VArr _ | VObj _ => true
  end.

(** [v && typeof v === "object"]: arrays count, [null] does not. *)
Definition isObject (v : value) : bool :=
  match v with
  | VArr _ | VObj _ => true
  | _ => false
  end.

Fixpoint lookupField (k : string) (fields : list (string * value)) : option value :=
  match fields with
  | [] => None
  | (k', v) :: rest => if String.eqb k k' then Some v else lookupField k rest
  end.

(** [k in v] for an object. *)
Definition hasField (k : string) (v : value) : bool :=
  match v with
  | VObj fields => if lookupField k fields is Some _ then true else false
  | _ => false
  end.

(** [v.k]: [undefined] when the property is absent. *)
Definition getField (k : string) (v : value) : value :=
  match v with
  | VObj fields => default VUndefined (lookupField k fields)
  | _ => VUndefined
  end.

Fixpoint updateField (k : string) (x : value) (fields : list (string * value))
  : list (string * value) :=
  match fields with
  | [] => [(k, x)]
  | (k', v) :: rest =>
      if String.eqb k k' then (k, x) :: rest else (k', v) :: updateField k x rest
  end.

(** [{ ...v, k: x }] *)
Definition withField (k : string) (x : value) (v : value) : value :=
  match v with
  | VObj fields => VObj (updateField k x fields)
  | _ => VObj [(k, x)]
  end.

(** [typeof v === "string" && v] as an option. *)
Definition nonEmptyString (v : value) : option string :=
  match v with
  | VStr s => if String.eqb s "" then None else Some s
  | _ => None
  end.

Definition isString (v : value) : bool :=
  match v with VStr _ => true | _ => false end.

(** [v === "lit"] *)
Definition strictEqStr (v : value) (lit : string) : bool :=
  match v with VStr s => String.eqb s lit | _ => false end.

(** [v !== undefined && v !== null] *)
Definition notNullish (v : value) : bool :=
  match v with VUndefined | VNull => false | _ => true end.

(** [a ?? b] *)
Definition nullish_or (a b : value) : value :=
  if notNullish a then a else b.

(** The returned array: either the very array that was passed in, or a
    newly built one.  [deref] reads its elements. *)
Inductive arrayRef : Type :=
  | InputRef
  | Fresh (elems : list value).

Definition deref (input : list value) (r : arrayRef) : list value :=
  match r with
  | InputRef => input
  | Fresh elems => elems
  end.

Definition TEXTIFY_MARKER : string := "… (truncated)".

(** What the host gives: [Date.now()] (the value of its n-th call),
    [JSON.stringify] and the string conversion of a template literal. *)
Record Host : Type := {
  Date_now : nat → Z;
  JSON_stringify : value → string;
  String_of : value → string;
}.

(** ** Message helpers *)

Record ToolCallLike : Type := {
  tc_id : string;
  tc_name : option string;
}.

Definition TOOL_CALL_TYPES : gset string :=
  {[ "toolCall"; "toolUse"; "functionCall" ]}.

Definition role (msg : value) : value := getField "role" msg.

(** The body of the loop over the content blocks of an assistant message. *)
Definition collectToolCall (toolCalls : list ToolCallLike) (block : value)
  : list ToolCallLike :=
  if negb (isObject block) then toolCalls
  else match nonEmptyString (getField "id" block) with
       | None => toolCalls
       | Some id =>
           let type := getField "type" block in
           if strictEqStr type "toolCall" || strictEqStr type "toolUse"
              || strictEqStr type "functionCall"
           then toolCalls ++
                  [{| tc_id := id;
                      tc_name := match getField "name" block with
                                 | VStr n => Some n
                                 | _ => None
                                 end |}]
           else toolCalls
       end.

Definition extractToolCallsFromAssistant (msg : value) : list ToolCallLike :=
  match getField "content" msg with
  | VArr content => foldl collectToolCall [] content
  | _ => []
  end.

Definition isToolCallBlock (block : value) : bool :=
  isObject block &&
  match getField "type" block with
  | VStr type => bool_decide (type ∈ TOOL_CALL_TYPES)
  | _ => false
  end.

Definition hasToolCallInput (block : value) : bool :=
  let hasInput :=
    if hasField "input" block then notNullish (getField "input" block) else false in
  let hasArguments :=
    if hasField "arguments" block then notNullish (getField "arguments" block) else false in
  hasInput || hasArguments.

Definition extractToolResultId (msg : value) : option string :=
  match nonEmptyString (getField "toolCallId" msg) with
  | Some toolCallId => Some toolCallId
  | None => nonEmptyString (getField "toolUseId" msg)
  end.

Definition MISSING_RESULT_TEXT : string :=
  "[openclaw] missing tool result in session history; inserted synthetic error result for transcript repair.".

Definition makeMissingToolResult (now : Z) (toolCallId : string) (toolName : option string)
  : value :=
  VObj [ ("role", VStr "toolResult");
         ("toolCallId", VStr toolCallId);
         ("toolName", VStr (default "unknown" toolName));
         ("content", VArr [ VObj [ ("type", VStr "text"); ("text", VStr MISSING_RESULT_TEXT) ] ]);
         ("isError", VBool true);
         ("timestamp", VNum now) ].

(** ** Tool-call input sanitizer *)

Record InputRepairState : Type := {
  s_out : list value;
  s_droppedToolCalls : nat;
  s_droppedAssistantMessages : nat;
  s_changed : bool;
}.

(** The inner loop over the blocks of one assistant message:
    [nextContent] and [droppedInMessage]. *)
Definition sanitizeBlocks (content : list value) : list value * nat :=
  foldl (λ '(nextContent, droppedInMessage) block,
           if isToolCallBlock block && negb (hasToolCallInput block)
           then (nextContent, S droppedInMessage)
           else (nextContent ++ [block], droppedInMessage))
        ([], 0) content.

Definition sanitizeStep (st : InputRepairState) (msg : value) : InputRepairState :=
  let push m := {| s_out := s_out st ++ [m];
                   s_droppedToolCalls := s_droppedToolCalls st;
                   s_droppedAssistantMessages := s_droppedAssistantMessages st;
                   s_changed := s_changed st |} in
  if negb (isObject msg) then push msg
  else match strictEqStr (role msg) "assistant", getField "content" msg with
       | true, VArr content =>
           let '(nextContent, droppedInMessage) := sanitizeBlocks content in
           if 0 <? droppedInMessage then
             match nextContent with
             | [] => {| s_out := s_out st;
                        s_droppedToolCalls := s_droppedToolCalls st + droppedInMessage;
                        s_droppedAssistantMessages := S (s_droppedAssistantMessages st);
                        s_changed := true |}
             | _ => {| s_out := s_out st ++ [withField "content" (VArr nextContent) msg];
                       s_droppedToolCalls := s_droppedToolCalls st + droppedInMessage;
                       s_droppedAssistantMessages := s_droppedAssistantMessages st;
                       s_changed := true |}
             end
           else push msg
       | _, _ => push msg
       end.

Definition sanitizeInit : InputRepairState :=
  {| s_out := []; s_droppedToolCalls := 0; s_droppedAssistantMessages := 0;
     s_changed := false |}.

Definition sanitizeRun (messages : list value) : InputRepairState :=
  foldl sanitizeStep sanitizeInit messages.

Record ToolCallInputRepairReport : Type := {
  ir_messages : arrayRef;
  ir_droppedToolCalls : nat;
  ir_droppedAssistantMessages : nat;
}.

Definition repairToolCallInputs (messages : list value) : ToolCallInputRepairReport :=
  let st := sanitizeRun messages in
  {| ir_messages := if s_changed st then Fresh (s_out st) else InputRef;
     ir_droppedToolCalls := s_droppedToolCalls st;
     ir_droppedAssistantMessages := s_droppedAssistantMessages st |}.

Definition sanitizeToolCallInputs (messages : list value) : list value :=
  deref messages (ir_messages (repairToolCallInputs messages)).

(** ** Tool-result pairing repairer *)

Record RepairState : Type := {
  r_out : list value;
  r_added : list value;
  r_seenToolResultIds : gset string;
  r_droppedDuplicateCount : nat;
  r_droppedOrphanCount : nat;
  r_moved : bool;
  r_changed : bool;
  r_dateNowCalls : nat;
}.

Definition repairInit : RepairState :=
  {| r_out := []; r_added := []; r_seenToolResultIds := ∅;
     r_droppedDuplicateCount := 0; r_droppedOrphanCount := 0;
     r_moved := false; r_changed := false; r_dateNowCalls := 0 |}.

(** [out.push(msg)] *)
Definition pushOut (msg : value) (st : RepairState) : RepairState :=
  {| r_out := r_out st ++ [msg]; r_added := r_added st;
     r_seenToolResultIds := r_seenToolResultIds st;
     r_droppedDuplicateCount := r_droppedDuplicateCount st;
     r_droppedOrphanCount := r_droppedOrphanCount st;
     r_moved := r_moved st; r_changed := r_changed st;
     r_dateNowCalls := r_dateNowCalls st |}.

(** [droppedDuplicateCount += 1; changed = true] *)
Definition dropDuplicate (st : RepairState) : RepairState :=
  {| r_out := r_out st; r_added := r_added st;
     r_seenToolResultIds := r_seenToolResultIds st;
     r_droppedDuplicateCount := S (r_droppedDuplicateCount st);
     r_droppedOrphanCount := r_droppedOrphanCount st;
     r_moved := r_moved st; r_changed := true;
     r_dateNowCalls := r_dateNowCalls st |}.

(** [droppedOrphanCount += 1; changed = true] *)
Definition dropOrphan (st : RepairState) : RepairState :=
  {| r_out := r_out st; r_added := r_added st;
     r_seenToolResultIds := r_seenToolResultIds st;
     r_droppedDuplicateCount := r_droppedDuplicateCount st;
     r_droppedOrphanCount := S (r_droppedOrphanCount st);
     r_moved := r_moved st; r_changed := true;
     r_dateNowCalls := r_dateNowCalls st |}.

(** [moved = true; changed = true] *)
Definition markMoved (st : RepairState) : RepairState :=
  {| r_out := r_out st; r_added := r_added st;
     r_seenToolResultIds := r_seenToolResultIds st;
     r_droppedDuplicateCount := r_droppedDuplicateCount st;
     r_droppedOrphanCount := r_droppedOrphanCount st;
     r_moved := true; r_changed := true;
     r_dateNowCalls := r_dateNowCalls st |}.

(** [seenToolResultIds.add(id); out.push(msg)] *)
Definition markSeenAndPush (id : string) (msg : value) (st : RepairState) : RepairState :=
  {| r_out := r_out st ++ [msg]; r_added := r_added st;
     r_seenToolResultIds := {[ id ]} ∪ r_seenToolResultIds st;
     r_droppedDuplicateCount := r_droppedDuplicateCount st;
     r_droppedOrphanCount := r_droppedOrphanCount st;
     r_moved := r_moved st; r_changed := r_changed st;
     r_dateNowCalls := r_dateNowCalls st |}.

(** [added.push(missing); changed = true], after one call of [Date.now()] *)
Definition recordAdded (missing : value) (st : RepairState) : RepairState :=
  {| r_out := r_out st; r_added := r_added st ++ [missing];
     r_seenToolResultIds := r_seenToolResultIds st;
     r_droppedDuplicateCount := r_droppedDuplicateCount st;
     r_droppedOrphanCount := r_droppedOrphanCount st;
     r_moved := r_moved st; r_changed := true;
     r_dateNowCalls := S (r_dateNowCalls st) |}.

Definition pushToolResult (msg : value) (st : RepairState) : RepairState :=
  match extractToolResultId msg with
  | Some id =>
      if bool_decide (id ∈ r_seenToolResultIds st) then dropDuplicate st
      else markSeenAndPush id msg st
  | None => pushOut msg st
  end.

(** The look-ahead of one assistant turn, [for (; j < messages.length; j += 1)]:
    the state, [spanResultsById], [remainder], and the messages from index
    [j] on when the loop ends. *)
Record SpanScan : Type := {
  sp_state : RepairState;
  sp_results : gmap string value;
  sp_remainder : list value;
  sp_rest : list value;
}.

Fixpoint scanSpan (toolCallIds : gset string) (st : RepairState)
    (spanResultsById : gmap string value) (remainder : list value)
    (rest : list value) : SpanScan :=
  match rest with
  | [] => {| sp_state := st; sp_results := spanResultsById;
             sp_remainder := remainder; sp_rest := [] |}
  | next :: rest' =>
      if negb (isObject next)
      then scanSpan toolCallIds st spanResultsById (remainder ++ [next]) rest'
      else if strictEqStr (role next) "assistant"
      then {| sp_state := st; sp_results := spanResultsById;
              sp_remainder := remainder; sp_rest := rest |}
      else if strictEqStr (role next) "toolResult"
      then match extractToolResultId next with
           | Some id =>
               if bool_decide (id ∈ toolCallIds) then
                 if bool_decide (id ∈ r_seenToolResultIds st)
                 then scanSpan toolCallIds (dropDuplicate st) spanResultsById remainder rest'
                 else scanSpan toolCallIds st
                        (match spanResultsById !! id with
                         | Some _ => spanResultsById
                         | None => <[ id := next ]> spanResultsById
                         end)
                        remainder rest'
               else scanSpan toolCallIds (dropOrphan st) spanResultsById remainder rest'
           | None => scanSpan toolCallIds (dropOrphan st) spanResultsById remainder rest'
           end
      else scanSpan toolCallIds st spanResultsById (remainder ++ [next]) rest'
  end.

(** The body of [for (const call of toolCalls)].  An entry of
    [spanResultsById] is a message object, so [if (existing)] asks
    whether the id has an entry. *)
Definition emitCall (h : Host) (spanResultsById : gmap string value)
    (st : RepairState) (call : ToolCallLike) : RepairState :=
  match spanResultsById !! tc_id call with
  | Some existing => pushToolResult existing st
  | None =>
      let missing :=
        makeMissingToolResult (Date_now h (r_dateNowCalls st)) (tc_id call) (tc_name call) in
      pushToolResult missing (recordAdded missing st)
  end.

(** One assistant turn with tool calls, from the look-ahead to the
    re-emitted remainder. *)
Definition finishTurn (h : Host) (msg : value) (toolCalls : list ToolCallLike)
    (sc : SpanScan) : RepairState :=
  let st1 := pushOut msg (sp_state sc) in
  let st2 :=
    if (0 <? size (sp_results sc)) && (0 <? length (sp_remainder sc))
    then markMoved st1 else st1 in
  let st3 := foldl (emitCall h (sp_results sc)) st2 toolCalls in
  foldl (λ st rem, pushOut rem st) st3 (sp_remainder sc).

(** The main loop, [for (let i = 0; i < messages.length; i += 1)], on
    the messages from index [i] on.  Every iteration consumes at least
    one message, so [fuel = messages.length] iterations are enough. *)
Fixpoint repairLoop (h : Host) (fuel : nat) (st : RepairState) (messages : list value)
  : RepairState :=
  match fuel, messages with
  | 0, _ | _, [] => st
  | S fuel, msg :: rest =>
      if negb (isObject msg) then repairLoop h fuel (pushOut msg st) rest
      else if negb (strictEqStr (role msg) "assistant") then
        if negb (strictEqStr (role msg) "toolResult")
        then repairLoop h fuel (pushOut msg st) rest
        else repairLoop h fuel (dropOrphan st) rest
      else
        let stopReason := getField "stopReason" msg in
        if strictEqStr stopReason "error" || strictEqStr stopReason "aborted"
        then repairLoop h fuel (pushOut msg st) rest
        else
          let toolCalls := extractToolCallsFromAssistant msg in
          match toolCalls with
          | [] => repairLoop h fuel (pushOut msg st) rest
          | _ =>
              let toolCallIds : gset string := list_to_set (tc_id <$> toolCalls) in
              let sc := scanSpan toolCallIds st ∅ [] rest in
              repairLoop h fuel (finishTurn h msg toolCalls sc) (sp_rest sc)
          end
  end.

Definition repairRun (h : Host) (messages : list value) : RepairState :=
  repairLoop h (length messages) repairInit messages.

Record ToolUseRepairReport : Type := {
  messages : arrayRef;
  added : list value;
  droppedDuplicateCount : nat;
  droppedOrphanCount : nat;
  moved : bool;
}.

Definition repairToolUseResultPairing (h : Host) (msgs : list value) : ToolUseRepairReport :=
  let st := repairRun h msgs in
  let changedOrMoved := r_changed st || r_moved st in
  {| messages := if changedOrMoved then Fresh (r_out st) else InputRef;
     added := r_added st;
     droppedDuplicateCount := r_droppedDuplicateCount st;
     droppedOrphanCount := r_droppedOrphanCount st;
     moved := changedOrMoved |}.

Definition sanitizeToolUseResultPairing (h : Host) (msgs : list value) : list value :=
  deref msgs (messages (repairToolUseResultPairing h msgs)).

(** ** Tool-call textifier *)

Definition TEXTIFY_MAX_RESULT_CHARS : nat := 800.

(** The ellipsis U+2026, one code unit in the source, is spelled in
    [TEXTIFY_MARKER] as its three UTF-8 bytes. *)
Definition truncateToolResultForTextify (text : string) : string :=
  if String.length text <=? TEXTIFY_MAX_RESULT_CHARS then text
  else String.substring 0 TEXTIFY_MAX_RESULT_CHARS text +:+ TEXTIFY_MARKER.

Definition newline : string := String (Ascii.ascii_of_nat 10) EmptyString.

(** [parts.join(sep)] *)
Fixpoint join (sep : string) (parts : list string) : string :=
  match parts with
  | [] => ""
  | [p] => p
  | p :: rest => p +:+ sep +:+ join sep rest
  end.

Definition NO_CONTENT : string := "(no content)".

(** The text blocks of an array content, in order. *)
Definition collectTexts (content : list value) : list string :=
  foldl (λ texts block,
           if isObject block && strictEqStr (getField "type" block) "text" then
             match getField "text" block with
             | VStr text => texts ++ [text]
             | _ => texts
             end
           else texts)
        [] content.

Definition extractToolResultText (msg : value) : string :=
  match getField "content" msg with
  | VStr content => truncateToolResultForTextify content
  | VArr content =>
      let joined := join newline (collectTexts content) in
      truncateToolResultForTextify (if String.eqb joined "" then NO_CONTENT else joined)
  | _ => NO_CONTENT
  end.

(** The first pass: every tool result by id, the first one winning. *)
Definition indexToolResults (msgs : list value) : gmap string value :=
  foldl (λ (toolResultById : gmap string value) msg,
           if isObject msg && strictEqStr (role msg) "toolResult" then
             match extractToolResultId msg with
             | Some id =>
                 match toolResultById !! id with
                 | Some _ => toolResultById
                 | None => <[ id := msg ]> toolResultById
                 end
             | None => toolResultById
             end
           else toolResultById)
        ∅ msgs.

Record TextifyState : Type := {
  t_out : list value;
  t_consumedToolResultIds : gset string;
  t_changed : bool;
  t_dateNowCalls : nat;
}.

Definition textifyInit : TextifyState :=
  {| t_out := []; t_consumedToolResultIds := ∅; t_changed := false; t_dateNowCalls := 0 |}.

Definition t_push (msg : value) (st : TextifyState) : TextifyState :=
  {| t_out := t_out st ++ [msg];
     t_consumedToolResultIds := t_consumedToolResultIds st;
     t_changed := t_changed st; t_dateNowCalls := t_dateNowCalls st |}.

Definition t_skip (st : TextifyState) : TextifyState :=
  {| t_out := t_out st;
     t_consumedToolResultIds := t_consumedToolResultIds st;
     t_changed := true; t_dateNowCalls := t_dateNowCalls st |}.

(** A block that the textifier rewrites: a tool call whose [id] is a string. *)
Definition isTextifiedBlock (block : value) : bool :=
  isToolCallBlock block && isString (getField "id" block).

(** [toolCallBlocks] and [otherBlocks] of one assistant content. *)
Definition splitBlocks (content : list value) : list value * list value :=
  foldl (λ '(toolCallBlocks, otherBlocks) block,
           if isTextifiedBlock block
           then (toolCallBlocks ++ [block], otherBlocks)
           else (toolCallBlocks, otherBlocks ++ [block]))
        ([], []) content.

(** A value inside a template literal. *)
Definition templateString (h : Host) (v : value) : string :=
  match v with VStr s => s | _ => String_of h v end.

(** What the loop over [toolCallBlocks] builds. *)
Record RoundAcc : Type := {
  a_textParts : list string;
  a_resultMessages : list value;
  a_consumed : gset string;
  a_dateNowCalls : nat;
}.

Definition idString (v : value) : string :=
  match v with VStr s => s | _ => "" end.

Definition textifyCall (h : Host) (toolResultById : gmap string value)
    (acc : RoundAcc) (tc : value) : RoundAcc :=
  let name := templateString h (nullish_or (getField "name" tc) (VStr "unknown_tool")) in
  let args := nullish_or (getField "input" tc) (getField "arguments" tc) in
  let argsStr := if truthy args then JSON_stringify h args else "{}" in
  let textParts := a_textParts acc ++ ["[Called tool " +:+ name +:+ "(" +:+ argsStr +:+ ")]"] in
  let id := idString (getField "id" tc) in
  match toolResultById !! id with
  | Some result =>
      let resultText := extractToolResultText result in
      let stamped := notNullish (getField "timestamp" result) in
      let timestamp :=
        if stamped then getField "timestamp" result
        else VNum (Date_now h (a_dateNowCalls acc)) in
      {| a_textParts := textParts;
         a_resultMessages :=
           a_resultMessages acc ++
             [VObj [ ("role", VStr "user");
                     ("content", VStr ("[Tool " +:+ name +:+ " result: " +:+ resultText +:+ "]"));
                     ("timestamp", timestamp) ]];
         a_consumed := {[ id ]} ∪ a_consumed acc;
         a_dateNowCalls := if stamped then a_dateNowCalls acc else S (a_dateNowCalls acc) |}
  | None =>
      {| a_textParts := textParts; a_resultMessages := a_resultMessages acc;
         a_consumed := a_consumed acc; a_dateNowCalls := a_dateNowCalls acc |}
  end.

Definition textifyStep (h : Host) (toolResultById : gmap string value)
    (st : TextifyState) (msg : value) : TextifyState :=
  if negb (isObject msg) then t_push msg st
  else if strictEqStr (role msg) "toolResult" then
    match extractToolResultId msg with
    | Some id =>
        if bool_decide (id ∈ t_consumedToolResultIds st) then t_skip st else t_push msg st
    | None => t_push msg st
    end
  else match strictEqStr (role msg) "assistant", getField "content" msg with
       | true, VArr content =>
           let '(toolCallBlocks, otherBlocks) := splitBlocks content in
           match toolCallBlocks with
           | [] => t_push msg st
           | _ =>
               let acc :=
                 foldl (textifyCall h toolResultById)
                       {| a_textParts := []; a_resultMessages := [];
                          a_consumed := t_consumedToolResultIds st;
                          a_dateNowCalls := t_dateNowCalls st |}
                       toolCallBlocks in
               let summaryText := join newline (a_textParts acc) in
               let newContent :=
                 otherBlocks ++ [VObj [ ("type", VStr "text"); ("text", VStr summaryText) ]] in
               {| t_out := (t_out st ++ [withField "content" (VArr newContent) msg])
                             ++ a_resultMessages acc;
                  t_consumedToolResultIds := a_consumed acc;
                  t_changed := true;
                  t_dateNowCalls := a_dateNowCalls acc |}
           end
       | _, _ => t_push msg st
       end.

Definition textifyRun (h : Host) (msgs : list value) : TextifyState :=
  foldl (textifyStep h (indexToolResults msgs)) textifyInit msgs.

Definition textifyToolCallRounds (h : Host) (msgs : list value) : arrayRef :=
  let st := textifyRun h msgs in
  if t_changed st then Fresh (t_out st) else InputRef.

(** ** A sample host and sample messages *)

Definition host0 : Host :=
  {| Date_now := λ n, Z.of_nat n; JSON_stringify := λ _, "{}"; String_of := λ _, "" |}.

Definition mkToolCall (id name : string) : value :=
  VObj [ ("type", VStr "toolCall"); ("id", VStr id); ("name", VStr name);
         ("arguments", VObj []) ].

Definition mkAssistant (content : list value) : value :=
  VObj [ ("role", VStr "assistant"); ("content", VArr content) ].

Definition mkStopped (stopReason : string) (content : list value) : value :=
  VObj [ ("role", VStr "assistant"); ("content", VArr content);
         ("stopReason", VStr stopReason) ].

Definition mkToolResult (id name text : string) : value :=
  VObj [ ("role", VStr "toolResult"); ("toolCallId", VStr id); ("toolName", VStr name);
         ("content", VArr [ VObj [ ("type", VStr "text"); ("text", VStr text) ] ]);
         ("isError", VBool false) ].

Definition mkUser (text : string) : value :=
  VObj [ ("role", VStr "user"); ("content", VStr text) ].


(** ** The main loop of the repairer, by kind of iteration *)

Definition isAssistant (msg : value) : bool :=
  isObject msg && strictEqStr (role msg) "assistant".

Definition isToolResult (msg : value) : bool :=
  isObject msg && strictEqStr (role msg) "toolResult".

Definition isErrorStop (msg : value) : bool :=
  strictEqStr (getField "stopReason" msg) "error"
  || strictEqStr (getField "stopReason" msg) "aborted".

Definition callIds (toolCalls : list ToolCallLike) : gset string :=
  list_to_set (tc_id <$> toolCalls).

(** What one iteration of the main loop does with the message at index [i]. *)
Inductive Iteration : Type :=
  | Pass                                  (* [out.push(msg)] *)
  | Orphan                                (* a tool result outside any span *)
  | Turn (toolCalls : list ToolCallLike). (* an assistant turn with tool calls *)

Definition iteration (msg : value) : Iteration :=
  if isToolResult msg then Orphan
  else if isAssistant msg && negb (isErrorStop msg) then
    match extractToolCallsFromAssistant msg with
    | [] => Pass
    | toolCalls => Turn toolCalls
    end
  else Pass.

Definition repairFrom (h : Host) (st : RepairState) (msgs : list value) : RepairState :=
  repairLoop h (length msgs) st msgs.

(** The messages the look-ahead of a turn walks over: up to the next
    assistant message. *)
Fixpoint spanPrefix (rest : list value) : list value :=
  match rest with
  | [] => []
  | next :: rest' => if isAssistant next then [] else next :: spanPrefix rest'
  end.

Definition notToolResult (msg : value) : bool := negb (isToolResult msg).

(** A suffix of the transcript at which an iteration of the main loop
    can start after a turn: the end, or an assistant message. *)
Definition assistantLed (msgs : list value) : Prop :=
  match msgs with
  | [] => True
  | a :: _ => isAssistant a = true
  end.

(** At some assistant turn of the run a span result existed together
    with a non-empty remainder: the turn is the message [a] after the
    prefix [pre], and its look-ahead walks over [rest]. *)
Definition spanResultWithRemainder (h : Host) (st : RepairState) (msgs : list value) : Prop :=
  ∃ pre a toolCalls rest,
    msgs = pre ++ a :: rest ∧ iteration a = Turn toolCalls ∧
    let sc := scanSpan (callIds toolCalls) (repairFrom h st pre) ∅ [] rest in
    0 < size (sp_results sc) ∧ 0 < length (sp_remainder sc).



(** The tool result that [emitCall] hands to [pushToolResult]. *)
Definition callResult (h : Host) (sp : gmap string value) (st : RepairState)
    (call : ToolCallLike) : value :=
  match sp !! tc_id call with
  | Some existing => existing
  | None => makeMissingToolResult (Date_now h (r_dateNowCalls st)) (tc_id call) (tc_name call)
  end.

(** Tool results emitted for one turn: each carries an id of [ids] that
    is not in [seen], and no two carry the same id. *)
Definition emittedOk (ids seen : gset string) (res : list value) : Prop :=
  Forall (λ x, isToolResult x = true
               ∧ ∃ k, extractToolResultId x = Some k ∧ k ∈ ids ∧ k ∉ seen) res
  ∧ NoDup (omap extractToolResultId res).

(** The blocks the sanitizer keeps. *)
Definition keepBlock (block : value) : bool :=
  negb (isToolCallBlock block && negb (hasToolCallInput block)).

(** Every tool-call block of an assistant message carries an arguments
    payload. *)
Definition inputsPresent (msg : value) : Prop :=
  isAssistant msg = true → ∀ blocks, getField "content" msg = VArr blocks →
  Forall (λ b, isToolCallBlock b = true → hasToolCallInput b = true) blocks.

(** An assistant message that the textifier rewrites. *)
Definition hasTextifiedBlock (msg : value) : bool :=
  isAssistant msg &&
  match getField "content" msg with
  | VArr content => existsb isTextifiedBlock content
  | _ => false
  end.

(** A tool result carrying the correlation id [id]. *)
Definition resultFor (id : string) (msg : value) : bool :=
  isToolResult msg && bool_decide (extractToolResultId msg = Some id).

Definition countResults (id : string) (msgs : list value) : nat :=
  length (List.filter (resultFor id) msgs).


(** What the look-ahead keeps in [spanResultsById]: tool results, each
    under its own id, an id of the turn that was not emitted before. *)
Definition spanResultsOk (ids seen : gset string) (sp : gmap string value) : Prop :=
  ∀ k x, sp !! k = Some x →
    isToolResult x = true ∧ extractToolResultId x = Some k ∧ k ∈ ids ∧ k ∉ seen.

(** Every entry of [spanResultsById] is a tool result under its own id. *)
Definition resultsKeyed (sp : gmap string value) : Prop :=
  ∀ k x, sp !! k = Some x → isToolResult x = true ∧ extractToolResultId x = Some k.

(** Two states of the repairer that agree on everything but the
    messages they hold. *)
Definition sameFlags (st1 st2 : RepairState) : Prop :=
  r_seenToolResultIds st1 = r_seenToolResultIds st2
  ∧ r_droppedDuplicateCount st1 = r_droppedDuplicateCount st2
  ∧ r_droppedOrphanCount st1 = r_droppedOrphanCount st2
  ∧ r_moved st1 = r_moved st2
  ∧ r_changed st1 = r_changed st2.

(** [changed] is set exactly when one of the report's counters moved:
    every assignment [changed = true] sits next to one of them. *)
Definition changeRecorded (st : RepairState) : Prop :=
  r_changed st = true ↔
    r_moved st = true ∨ r_added st ≠ [] ∨ 0 < r_droppedDuplicateCount st
    ∨ 0 < r_droppedOrphanCount st.

(** The built sequence holds at most one tool result per id, and none
    for an id that is not in [seenToolResultIds]. *)
Definition resultsUnique (st : RepairState) : Prop :=
  ∀ id, countResults id (r_out st) ≤ 1
        ∧ (id ∉ r_seenToolResultIds st → countResults id (r_out st) = 0).

(** The second result for the same id inside one span is left out of the
    sequence being built without a count and without [changed]; when
    nothing else changes, the input comes back as it was. *)
Definition repeatedInSpan : list value :=
  [ mkAssistant [mkToolCall "a" "t"];
    mkToolResult "a" "t" "first";
    mkToolResult "a" "t" "second" ].

(** The invocation ids of a transcript, in order of appearance. *)
Fixpoint invocationIds (msgs : list value) : list string :=
  match msgs with
  | [] => []
  | m :: rest =>
      (if isAssistant m then tc_id <$> extractToolCallsFromAssistant m else [])
        ++ invocationIds rest
  end.

Definition notLedByResult (msgs : list value) : Prop :=
  match msgs with
  | [] => True
  | x :: _ => isToolResult x = false
  end.

(** The messages [after] an assistant message [a] start with one tool
    result per invocation of [a], in invocation order, and no further
    tool result follows them directly. *)
Definition pairedAt (a : value) (after : list value) : Prop :=
  ∃ res rest,
    after = res ++ rest
    ∧ Forall2 (λ c x, isToolResult x = true ∧ extractToolResultId x = Some (tc_id c))
              (extractToolCallsFromAssistant a) res
    ∧ notLedByResult rest.

(** The pairing invariant of a transcript. *)
Definition paired (msgs : list value) : Prop :=
  ∀ l1 a l2, msgs = l1 ++ a :: l2 →
    isAssistant a = true → isErrorStop a = false → extractToolCallsFromAssistant a ≠ [] →
    pairedAt a l2.

(** The assistant message [a] takes part in the pairing and invokes [c]. *)
Definition invokes (a : value) (c : ToolCallLike) : Prop :=
  isAssistant a = true ∧ isErrorStop a = false ∧ c ∈ extractToolCallsFromAssistant a.

(** A synthetic result made for a tool call of [src]. *)
Definition syntheticFor (src : list value) (x : value) : Prop :=
  ∃ a c now, a ∈ src ∧ invokes a c
             ∧ x = makeMissingToolResult now (tc_id c) (tc_name c).

(** Every tool result of the transcript comes after an assistant message
    that invokes its correlation id. *)
Definition answered (msgs : list value) : Prop :=
  ∀ l1 x l2, msgs = l1 ++ x :: l2 → isToolResult x = true →
    ∃ a c, a ∈ l1 ∧ isAssistant a = true ∧ c ∈ extractToolCallsFromAssistant a
           ∧ extractToolResultId x = Some (tc_id c).

(** The consumed ids after a prefix of the transcript: every id that an
    assistant message of the prefix invokes and that has a result in
    the index. *)
Definition consumedUpTo (idx : gmap string value) (pre : list value)
    (consumed : gset string) : Prop :=
  ∀ a c, a ∈ pre → isAssistant a = true → c ∈ extractToolCallsFromAssistant a →
         is_Some (idx !! tc_id c) → tc_id c ∈ consumed.

(** The tool-call blocks of an assistant message that carry no arguments
    payload: those the sanitizer drops. *)
Definition inputlessCalls (msg : value) : nat :=
  if isAssistant msg then
    match getField "content" msg with
    | VArr content =>
        length (List.filter (λ b, isToolCallBlock b && negb (hasToolCallInput b)) content)
    | _ => 0
    end
  else 0.

(** The id of a content block as [extractToolCallsFromAssistant] reads
    it, told by [isToolCallBlock]. *)
Definition toolCallBlockId (block : value) : option string :=
  if isToolCallBlock block then nonEmptyString (getField "id" block) else None.

(** A message that the textifier passes on as it is, wherever it
    stands: neither a tool result nor an assistant message with a block
    to textify. *)
Definition passedOn (msg : value) : bool :=
  negb (isToolResult msg) && negb (hasTextifiedBlock msg).

(** * Properties *)

Lemma strictEqStr_excl v a b : a ≠ b → strictEqStr v a = true → strictEqStr v b = false.
Proof.
  destruct v; simpl; try done.
  intros Hne Ha. apply String.eqb_eq in Ha. subst. by apply String.eqb_neq.
Qed.

Lemma isAssistant_not_toolResult msg : isAssistant msg = true → isToolResult msg = false.
Proof.
  unfold isAssistant, isToolResult. intros [-> Hr]%andb_true_iff. simpl.
  by apply (strictEqStr_excl _ "assistant").
Qed.

Lemma isToolResult_not_assistant msg : isToolResult msg = true → isAssistant msg = false.
Proof.
  unfold isAssistant, isToolResult. intros [-> Hr]%andb_true_iff. simpl.
  by apply (strictEqStr_excl _ "toolResult").
Qed.

Lemma scanSpan_rest_length ids st sp rem rest :
  length (sp_rest (scanSpan ids st sp rem rest)) ≤ length rest.
Proof.
  revert st sp rem. induction rest as [|next rest IH]; intros st sp rem; simpl; [lia|].
  repeat case_match; simpl; try lia; by etrans; [apply IH|lia].
Qed.

Lemma repairLoop_fuel h f1 f2 st msgs :
  length msgs ≤ f1 → length msgs ≤ f2 → repairLoop h f1 st msgs = repairLoop h f2 st msgs.
Proof.
  revert f2 st msgs. induction f1 as [|f1 IH]; intros f2 st msgs H1 H2.
  - destruct msgs; simpl in *; [by destruct f2 | lia].
  - destruct msgs as [|msg rest]; [by destruct f2|].
    destruct f2 as [|f2]; simpl in H1, H2; [lia|].
    simpl. repeat case_match; try (apply IH; lia).
    apply IH; etrans; try apply scanSpan_rest_length; lia.
Qed.

Lemma repairFrom_nil h st : repairFrom h st [] = st.
Proof. done. Qed.

Lemma repairFrom_cons h st msg rest :
  repairFrom h st (msg :: rest) =
    match iteration msg with
    | Pass => repairFrom h (pushOut msg st) rest
    | Orphan => repairFrom h (dropOrphan st) rest
    | Turn toolCalls =>
        let sc := scanSpan (callIds toolCalls) st ∅ [] rest in
        repairFrom h (finishTurn h msg toolCalls sc) (sp_rest sc)
    end.
Proof.
  unfold repairFrom, iteration, isToolResult, isAssistant, isErrorStop, callIds.
  cbn [length repairLoop].
  destruct (isObject msg); cbn [negb andb]; [|done].
  destruct (strictEqStr (role msg) "assistant") eqn:Ha; cbn [negb andb].
  - rewrite (strictEqStr_excl _ "assistant" "toolResult") by done.
    destruct (strictEqStr _ "error" || strictEqStr _ "aborted"); cbn [negb]; [done|].
    destruct (extractToolCallsFromAssistant msg) as [|c cs]; [done|].
    cbn zeta. apply repairLoop_fuel; [apply scanSpan_rest_length | done].
  - by destruct (strictEqStr (role msg) "toolResult").
Qed.

(** ** The look-ahead of a turn *)

Lemma scanSpan_cons ids st sp rem next rest :
  scanSpan ids st sp rem (next :: rest) =
    if isAssistant next
    then {| sp_state := st; sp_results := sp; sp_remainder := rem; sp_rest := next :: rest |}
    else if isToolResult next then
      match extractToolResultId next with
      | Some id =>
          if bool_decide (id ∈ ids) then
            if bool_decide (id ∈ r_seenToolResultIds st)
            then scanSpan ids (dropDuplicate st) sp rem rest
            else scanSpan ids st
                   (match sp !! id with Some _ => sp | None => <[ id := next ]> sp end)
                   rem rest
          else scanSpan ids (dropOrphan st) sp rem rest
      | None => scanSpan ids (dropOrphan st) sp rem rest
      end
    else scanSpan ids st sp (rem ++ [next]) rest.
Proof.
  unfold isAssistant, isToolResult. cbn [scanSpan].
  destruct (isObject next); cbn [negb andb]; [|done].
  destruct (strictEqStr (role next) "assistant") eqn:Ha; [done|].
  by destruct (strictEqStr (role next) "toolResult").
Qed.

Lemma scanSpan_nil ids st sp rem :
  scanSpan ids st sp rem [] =
    {| sp_state := st; sp_results := sp; sp_remainder := rem; sp_rest := [] |}.
Proof. done. Qed.

Global Opaque scanSpan.

Lemma spanPrefix_no_assistant rest : Forall (λ m, isAssistant m = false) (spanPrefix rest).
Proof.
  induction rest as [|m rest IH]; simpl; [constructor|].
  destruct (isAssistant m) eqn:E; by constructor.
Qed.

Lemma spanPrefix_id span :
  Forall (λ m, isAssistant m = false) span → spanPrefix span = span.
Proof. induction 1 as [|m l Hm _ IH]; simpl; [done|]. by rewrite Hm, IH. Qed.

Lemma spanPrefix_app span a post :
  Forall (λ m, isAssistant m = false) span → isAssistant a = true →
  spanPrefix (span ++ a :: post) = span.
Proof. induction 1 as [|m l Hm _ IH]; simpl; intros Ha; [by rewrite Ha|]. by rewrite Hm, IH. Qed.

(** The look-ahead stops at the next assistant message, and what it
    computes depends on the messages before it only. *)
Lemma scanSpan_split ids st sp rem rest :
  let sc := scanSpan ids st sp rem (spanPrefix rest) in
  scanSpan ids st sp rem rest =
    {| sp_state := sp_state sc; sp_results := sp_results sc;
       sp_remainder := sp_remainder sc;
       sp_rest := drop (length (spanPrefix rest)) rest |}
  ∧ sp_rest sc = [].
Proof.
  revert st sp rem. induction rest as [|m rest IH]; intros st sp rem; [done|].
  cbn [spanPrefix]. rewrite scanSpan_cons.
  destruct (isAssistant m) eqn:Ha; [done|].
  cbn [length drop]. rewrite scanSpan_cons, Ha.
  repeat case_match; apply IH.
Qed.

Lemma spanPrefix_drop rest : spanPrefix rest ++ drop (length (spanPrefix rest)) rest = rest.
Proof.
  induction rest as [|m rest IH]; [done|]. simpl.
  destruct (isAssistant m); simpl; [done|]. by rewrite IH.
Qed.

Lemma drop_spanPrefix_head rest :
  match drop (length (spanPrefix rest)) rest with
  | [] => True
  | a :: _ => isAssistant a = true
  end.
Proof.
  induction rest as [|m rest IH]; [done|]. simpl.
  destruct (isAssistant m) eqn:E; simpl; done.
Qed.

Lemma scanSpan_rest_length_after ids st sp rem rest :
  length (sp_rest (scanSpan ids st sp rem rest)) ≤ length rest.
Proof.
  rewrite (proj1 (scanSpan_split ids st sp rem rest)). simpl. rewrite length_drop. lia.
Qed.

Lemma scanSpan_rest ids st sp rem rest :
  sp_rest (scanSpan ids st sp rem rest) = drop (length (spanPrefix rest)) rest.
Proof. by rewrite (proj1 (scanSpan_split ids st sp rem rest)). Qed.

(** ** Tool calls and tool results *)

Lemma nonEmptyString_Some v s : nonEmptyString v = Some s → v = VStr s ∧ s ≠ "".
Proof.
  destruct v; simpl; try done. destruct (String.eqb s0 "") eqn:E; [done|].
  intros [= ->]. split; [done|]. by apply String.eqb_neq.
Qed.

Lemma nonEmptyString_VStr s : s ≠ "" → nonEmptyString (VStr s) = Some s.
Proof. intros Hs. simpl. by apply String.eqb_neq in Hs as ->. Qed.

Lemma extractToolCalls_ids_nonempty msg :
  Forall (λ c, tc_id c ≠ "") (extractToolCallsFromAssistant msg).
Proof.
  unfold extractToolCallsFromAssistant. destruct (getField "content" msg); try constructor.
  assert (∀ acc, Forall (λ c, tc_id c ≠ "") acc →
                 Forall (λ c, tc_id c ≠ "") (foldl collectToolCall acc elems)) as H.
  { induction elems as [|b bs IH]; intros acc Hacc; simpl; [done|].
    apply IH. unfold collectToolCall. destruct (isObject b); simpl; [|done].
    destruct (nonEmptyString (getField "id" b)) as [id|] eqn:Hid; [|done].
    apply nonEmptyString_Some in Hid as [_ Hid].
    case_match; [|done]. apply Forall_app; split; [done|]. by repeat constructor. }
  apply H. constructor.
Qed.

Lemma missing_isToolResult now id name : isToolResult (makeMissingToolResult now id name) = true.
Proof. done. Qed.

Lemma missing_id now id name :
  id ≠ "" → extractToolResultId (makeMissingToolResult now id name) = Some id.
Proof.
  intros Hid. unfold extractToolResultId, makeMissingToolResult.
  change (getField "toolCallId" _) with (VStr id). by rewrite nonEmptyString_VStr.
Qed.

Lemma spanResultsOk_empty ids seen : spanResultsOk ids seen ∅.
Proof. intros k x. by rewrite lookup_empty. Qed.

(** The look-ahead only counts: it leaves [out], [added], the seen ids,
    [moved] and the clock alone. *)
Lemma scanSpan_frame ids st sp rem rest :
  let st' := sp_state (scanSpan ids st sp rem rest) in
  r_out st' = r_out st ∧ r_added st' = r_added st
  ∧ r_seenToolResultIds st' = r_seenToolResultIds st
  ∧ r_moved st' = r_moved st ∧ r_dateNowCalls st' = r_dateNowCalls st.
Proof.
  revert st sp rem. induction rest as [|m rest IH]; intros st sp rem; [done|].
  rewrite scanSpan_cons.
  pose proof (IH (dropDuplicate st) sp rem) as Hd.
  pose proof (IH (dropOrphan st) sp rem) as Ho.
  repeat case_match; try done; try apply IH.
Qed.

Lemma scanSpan_seen ids st sp rem rest :
  r_seenToolResultIds (sp_state (scanSpan ids st sp rem rest)) = r_seenToolResultIds st.
Proof. apply scanSpan_frame. Qed.

Lemma scanSpan_out ids st sp rem rest :
  r_out (sp_state (scanSpan ids st sp rem rest)) = r_out st.
Proof. apply scanSpan_frame. Qed.

Lemma scanSpan_results_ok ids st sp rem rest :
  spanResultsOk ids (r_seenToolResultIds st) sp →
  spanResultsOk ids (r_seenToolResultIds st) (sp_results (scanSpan ids st sp rem rest)).
Proof.
  revert st sp rem. induction rest as [|m rest IH]; intros st sp rem Hsp; [done|].
  rewrite scanSpan_cons.
  destruct (isAssistant m); [done|].
  destruct (isToolResult m) eqn:Htr; [|by apply IH].
  destruct (extractToolResultId m) as [id|] eqn:Hid; [|by apply (IH (dropOrphan st))].
  case_bool_decide as Hin; [|by apply (IH (dropOrphan st))].
  case_bool_decide as Hseen; [by apply (IH (dropDuplicate st))|].
  apply IH. destruct (sp !! id) eqn:Hl; [done|].
  intros k x. destruct (decide (id = k)) as [->|Hne].
  - rewrite lookup_insert_eq. by intros [= <-].
  - rewrite lookup_insert_ne by done. apply Hsp.
Qed.

Lemma scanSpan_remainder ids st sp rem rest :
  sp_remainder (scanSpan ids st sp rem rest) =
    rem ++ List.filter notToolResult (spanPrefix rest).
Proof.
  revert st sp rem. induction rest as [|m rest IH]; intros st sp rem.
  - simpl. by rewrite app_nil_r.
  - rewrite scanSpan_cons. cbn [spanPrefix].
    destruct (isAssistant m) eqn:Ha; [simpl; by rewrite app_nil_r|].
    cbn [List.filter]. unfold notToolResult at 1.
    destruct (isToolResult m) eqn:Htr; cbn [negb].
    + repeat case_match; apply IH.
    + rewrite IH. by rewrite <- app_assoc.
Qed.

(** ** Invariants of the repairer's state *)

Section repair_invariant.
Context (h : Host) (P : RepairState → Prop).
Hypothesis P_push : ∀ m st, isToolResult m = false → P st → P (pushOut m st).
Hypothesis P_orphan : ∀ st, P st → P (dropOrphan st).
Hypothesis P_dup : ∀ st, P st → P (dropDuplicate st).
Hypothesis P_moved : ∀ st, P st → P (markMoved st).
Hypothesis P_result : ∀ id m st,
  isToolResult m = true → extractToolResultId m = Some id →
  id ∉ r_seenToolResultIds st → P st → P (markSeenAndPush id m st).
Hypothesis P_added : ∀ m st, isToolResult m = true → P st → P (recordAdded m st).

Lemma scanSpan_inv ids st sp rem rest :
  P st → P (sp_state (scanSpan ids st sp rem rest)).
Proof using P_orphan P_dup.
  revert st sp rem. induction rest as [|m rest IH]; intros st sp rem HP; [done|].
  rewrite scanSpan_cons. repeat case_match; try done; apply IH; auto.
Qed.

Lemma pushToolResult_inv id m st :
  isToolResult m = true → extractToolResultId m = Some id →
  P st → P (pushToolResult m st).
Proof using P_dup P_result.
  intros Htr Hid HP. unfold pushToolResult. rewrite Hid.
  case_bool_decide; eauto.
Qed.

Lemma emitCall_inv ids seen sp st call :
  spanResultsOk ids seen sp → tc_id call ≠ "" →
  P st → P (emitCall h sp st call).
Proof using P_dup P_result P_added.
  intros Hsp Hid HP. unfold emitCall.
  destruct (sp !! tc_id call) as [x|] eqn:Hl.
  - destruct (Hsp _ _ Hl) as (Htr & Hx & _). by eapply pushToolResult_inv.
  - eapply pushToolResult_inv; [done | by apply missing_id |]. by apply P_added.
Qed.

Lemma emitCalls_inv ids seen sp st calls :
  spanResultsOk ids seen sp → Forall (λ c, tc_id c ≠ "") calls →
  P st → P (foldl (emitCall h sp) st calls).
Proof using P_dup P_result P_added.
  intros Hsp Hids. revert st. induction Hids as [|c cs Hc _ IH]; intros st HP; [done|].
  simpl. apply IH. by eapply emitCall_inv.
Qed.

Lemma pushRemainder_inv st rem :
  Forall (λ m, isToolResult m = false) rem →
  P st → P (foldl (λ st rem, pushOut rem st) st rem).
Proof using P_push.
  intros Hrem. revert st. induction Hrem as [|m l Hm _ IH]; intros st HP; [done|].
  simpl. apply IH. by apply P_push.
Qed.

Lemma filter_notToolResult l :
  Forall (λ m, isToolResult m = false) (List.filter notToolResult l).
Proof.
  apply Forall_forall. intros m [_ Hm]%list_elem_of_In%filter_In.
  unfold notToolResult in Hm. by destruct (isToolResult m).
Qed.

Lemma finishTurn_inv msg toolCalls st rest :
  isToolResult msg = false → Forall (λ c, tc_id c ≠ "") toolCalls →
  P st → P (finishTurn h msg toolCalls (scanSpan (callIds toolCalls) st ∅ [] rest)).
Proof using All.
  intros Hmsg Hids HP. unfold finishTurn.
  apply pushRemainder_inv.
  { rewrite scanSpan_remainder. apply filter_notToolResult. }
  eapply emitCalls_inv; [|done|].
  { apply (scanSpan_results_ok _ st), spanResultsOk_empty. }
  case_match; [apply P_moved|]; by apply P_push, scanSpan_inv.
Qed.

Lemma iteration_Turn msg toolCalls :
  iteration msg = Turn toolCalls →
  isAssistant msg = true ∧ isErrorStop msg = false
  ∧ extractToolCallsFromAssistant msg = toolCalls ∧ toolCalls ≠ [].
Proof.
  unfold iteration. destruct (isToolResult msg); [done|].
  destruct (isAssistant msg); [|done]. destruct (isErrorStop msg); [done|].
  simpl. destruct (extractToolCallsFromAssistant msg); [done|]. by intros [= <-].
Qed.

Lemma iteration_Pass msg : iteration msg = Pass → isToolResult msg = false.
Proof. unfold iteration. by destruct (isToolResult msg). Qed.

Lemma iteration_Orphan msg : iteration msg = Orphan → isToolResult msg = true.
Proof. unfold iteration. destruct (isToolResult msg); [done|]. by repeat case_match. Qed.

Lemma repairFrom_inv msgs st : P st → P (repairFrom h st msgs).
Proof using All.
  remember (length msgs) as n eqn:Hn. revert msgs st Hn.
  induction n as [n IH] using lt_wf_ind. intros [|msg rest] st Hn HP; [done|].
  rewrite repairFrom_cons. simpl in Hn.
  destruct (iteration msg) as [| |toolCalls] eqn:Hit.
  - eapply IH; [|done|]; [lia|]. apply P_push; [by apply iteration_Pass|done].
  - eapply IH; [|done|]; [lia|]. by apply P_orphan.
  - apply iteration_Turn in Hit as (Ha & _ & <- & _).
    cbn zeta. eapply IH; [|done|].
    + rewrite scanSpan_rest, length_drop. lia.
    + apply finishTurn_inv; [by apply isAssistant_not_toolResult| |done].
      apply extractToolCalls_ids_nonempty.
Qed.
End repair_invariant.

(** ** Cutting the transcript at an assistant message *)

Lemma spanPrefix_app_led l1 l2 :
  assistantLed l2 → spanPrefix (l1 ++ l2) = spanPrefix l1.
Proof.
  intros Hl2. induction l1 as [|m l1 IH]; simpl.
  - destruct l2 as [|a l2]; simpl in *; [done|]. by rewrite Hl2.
  - by rewrite IH.
Qed.

Lemma spanPrefix_length rest : length (spanPrefix rest) ≤ length rest.
Proof. induction rest as [|m rest IH]; simpl; [lia|]. case_match; simpl; lia. Qed.

Lemma scanSpan_app_led ids st sp rem l1 l2 :
  assistantLed l2 →
  let sc := scanSpan ids st sp rem l1 in
  scanSpan ids st sp rem (l1 ++ l2) =
    {| sp_state := sp_state sc; sp_results := sp_results sc;
       sp_remainder := sp_remainder sc; sp_rest := sp_rest sc ++ l2 |}.
Proof.
  intros Hl2 sc. unfold sc.
  rewrite (proj1 (scanSpan_split ids st sp rem (l1 ++ l2))).
  rewrite (proj1 (scanSpan_split ids st sp rem l1)). cbn [sp_state sp_results sp_remainder sp_rest].
  rewrite spanPrefix_app_led by done. f_equal.
  apply drop_app_le, spanPrefix_length.
Qed.

Lemma assistantLed_drop_spanPrefix rest :
  assistantLed (drop (length (spanPrefix rest)) rest).
Proof. apply drop_spanPrefix_head. Qed.

Lemma assistantLed_app l1 l2 : assistantLed l1 → assistantLed l2 → assistantLed (l1 ++ l2).
Proof. by destruct l1. Qed.

Lemma finishTurn_rest h msg calls st sp rem rest1 rest2 :
  finishTurn h msg calls
    {| sp_state := st; sp_results := sp; sp_remainder := rem; sp_rest := rest1 |} =
  finishTurn h msg calls
    {| sp_state := st; sp_results := sp; sp_remainder := rem; sp_rest := rest2 |}.
Proof. done. Qed.

(** The run over [l1 ++ l2] is the run over [l1] followed by the run
    over [l2], when [l2] starts at an assistant message: no look-ahead
    crosses it. *)
Lemma repairFrom_app h st l1 l2 :
  assistantLed l2 → repairFrom h st (l1 ++ l2) = repairFrom h (repairFrom h st l1) l2.
Proof.
  intros Hl2. remember (length l1) as n eqn:Hn. revert l1 st Hn.
  induction n as [n IH] using lt_wf_ind. intros [|m l1] st Hn; [done|].
  simpl in Hn. rewrite <- app_comm_cons, !repairFrom_cons.
  destruct (iteration m) as [| |calls]; try (eapply IH; [|done]; lia).
  cbn zeta. rewrite scanSpan_app_led by done. cbn [sp_rest].
  destruct (scanSpan (callIds calls) st ∅ [] l1) as [st' sp rem rest] eqn:Hsc.
  cbn [sp_state sp_results sp_remainder sp_rest].
  rewrite (finishTurn_rest _ _ _ _ _ _ (rest ++ l2) rest).
  eapply IH; [|done].
  pose proof (scanSpan_rest_length_after (callIds calls) st ∅ [] l1) as Hlen.
  rewrite Hsc in Hlen. simpl in Hlen. lia.
Qed.

(** ** The flags [changed] and [moved] *)

Lemma changeRecorded_run h msgs : changeRecorded (repairRun h msgs).
Proof.
  change (changeRecorded (repairFrom h repairInit msgs)).
  apply (repairFrom_inv h changeRecorded); unfold changeRecorded; simpl.
  - done.
  - intros st H. split; [intros _; right; right; right; lia | done].
  - intros st H. split; [intros _; right; right; left; lia | done].
  - intros st H. split; [by left | done].
  - done.
  - intros m st _ H. split; [|done]. intros _. right; left. by destruct (r_added st).
  - split; [done|]. intros [|[|[|]]]; done || lia.
Qed.

Lemma moved_mono h msgs st : r_moved st = true → r_moved (repairFrom h st msgs) = true.
Proof. intros H. by apply (repairFrom_inv h (λ st, r_moved st = true)). Qed.

Lemma finishTurn_moved h msg calls sc :
  Forall (λ c, tc_id c ≠ "") calls →
  spanResultsOk (callIds calls) (r_seenToolResultIds (sp_state sc)) (sp_results sc) →
  r_moved (finishTurn h msg calls sc) =
    r_moved (sp_state sc) || ((0 <? size (sp_results sc)) && (0 <? length (sp_remainder sc))).
Proof.
  intros Hids Hsp. unfold finishTurn.
  set (b := r_moved (sp_state sc) || _).
  assert (∀ rem st, r_moved st = b → r_moved (foldl (λ st rem, pushOut rem st) st rem) = b) as Hrem.
  { induction rem as [|m rem IH]; intros st Hst; [done|]. by apply IH. }
  apply Hrem.
  eapply (emitCalls_inv h (λ st, r_moved st = b)); try done.
  unfold b. destruct (_ && _); simpl; [by rewrite orb_true_r | by rewrite orb_false_r].
Qed.

Lemma moved_spanResultWithRemainder h msgs st :
  r_moved (repairFrom h st msgs) = true ↔
    r_moved st = true ∨ spanResultWithRemainder h st msgs.
Proof.
  split.
  - remember (length msgs) as n eqn:Hn. revert msgs st Hn.
    induction n as [n IH] using lt_wf_ind. intros [|m rest0] st Hn; [by left|].
    simpl in Hn. rewrite repairFrom_cons.
    destruct (iteration m) as [| |calls] eqn:Hit.
    + intros [H|(pre & a & tcs & rest & -> & Ha & Hsc)]%(IH (length rest0)); [by left| |lia|done].
      right. exists (m :: pre), a, tcs, rest. split; [done|]. split; [done|].
      by rewrite repairFrom_cons, Hit.
    + intros [H|(pre & a & tcs & rest & -> & Ha & Hsc)]%(IH (length rest0)); [by left| |lia|done].
      right. exists (m :: pre), a, tcs, rest. split; [done|]. split; [done|].
      by rewrite repairFrom_cons, Hit.
    + cbn zeta. set (sc := scanSpan (callIds calls) st ∅ [] rest0).
      intros [H|(pre & a & tcs & rest & Hrest & Ha & Hsc)]%(IH (length (sp_rest sc)));
        [| |unfold sc; rewrite scanSpan_rest, length_drop; lia|done].
      * apply iteration_Turn in Hit as Hit'. destruct Hit' as (_ & _ & <- & _).
        rewrite finishTurn_moved in H.
        2: apply extractToolCalls_ids_nonempty.
        2: { unfold sc. rewrite scanSpan_seen. apply scanSpan_results_ok, spanResultsOk_empty. }
        apply orb_true_iff in H as [H|[H1 H2]%andb_true_iff].
        { left. unfold sc in H. by rewrite (proj1 (proj2 (proj2 (proj2 (scanSpan_frame _ _ _ _ _))))) in H. }
        right. exists [], m, (extractToolCallsFromAssistant m), rest0.
        split; [done|]. split; [done|]. cbn zeta. rewrite repairFrom_nil.
        fold sc. split; [by apply Nat.ltb_lt | by apply Nat.ltb_lt].
      * right. exists (m :: spanPrefix rest0 ++ pre), a, tcs, rest.
        split.
        { rewrite <- app_comm_cons, <- app_assoc, <- Hrest. unfold sc.
          by rewrite scanSpan_rest, spanPrefix_drop. }
        split; [done|].
        assert (assistantLed pre) as Hpre.
        { pose proof (assistantLed_drop_spanPrefix rest0) as Hled.
          unfold sc in Hrest. rewrite scanSpan_rest in Hrest. rewrite Hrest in Hled.
          by destruct pre. }
        rewrite repairFrom_cons, Hit. cbn zeta.
        rewrite scanSpan_app_led by done. cbn [sp_rest].
        destruct (scanSpan_split (callIds calls) st ∅ [] rest0) as [Heq0 Hnil].
        rewrite Hnil. cbn [app].
        fold sc in Heq0. rewrite Heq0 in Hsc. cbn [sp_rest] in Hsc.
        exact Hsc.
  - intros [H|(pre & a & tcs & rest & -> & Ha & Hsc)]; [by apply moved_mono|].
    apply iteration_Turn in Ha as Ha'. destruct Ha' as (Hass & _ & <- & _).
    rewrite repairFrom_app by done. rewrite repairFrom_cons, Ha. cbn zeta.
    apply moved_mono. rewrite finishTurn_moved.
    + cbn zeta in Hsc. destruct Hsc as [H1%Nat.ltb_lt H2%Nat.ltb_lt].
      rewrite H1, H2. apply orb_true_r.
    + apply extractToolCalls_ids_nonempty.
    + rewrite scanSpan_seen. apply scanSpan_results_ok, spanResultsOk_empty.
Qed.

(** C5 (amended): the report's [moved] is [changed || moved]: it is true
    exactly when, at some assistant turn, a span result existed together
    with a non-empty remainder, or a synthetic result was added, or a
    duplicate or an orphan was dropped. *)
Theorem moved_reports_any_change h msgs :
  let r := repairToolUseResultPairing h msgs in
  moved r = true ↔
    spanResultWithRemainder h repairInit msgs ∨ added r ≠ []
    ∨ 0 < droppedDuplicateCount r ∨ 0 < droppedOrphanCount r.
Proof.
  cbn zeta. unfold repairToolUseResultPairing. cbn [moved added droppedDuplicateCount droppedOrphanCount].
  pose proof (changeRecorded_run h msgs) as Hch. unfold changeRecorded in Hch.
  pose proof (moved_spanResultWithRemainder h msgs repairInit) as Hmv.
  change (repairFrom h repairInit msgs) with (repairRun h msgs) in Hmv.
  simpl in Hmv. rewrite orb_true_iff, Hch, Hmv. clear. intuition discriminate.
Qed.

(** C5, as stated, fails: one assistant turn whose tool call has no
    result anywhere.  Nothing is relocated, a synthetic result is added,
    and the report says [moved = true]. *)
Lemma moved_true_without_relocation :
  let msgs := [mkAssistant [mkToolCall "a" "t"]] in
  let r := repairToolUseResultPairing host0 msgs in
  moved r = true
  ∧ ¬ spanResultWithRemainder host0 repairInit msgs
  ∧ messages r = Fresh [mkAssistant [mkToolCall "a" "t"];
                        makeMissingToolResult 0 "a" (Some "t")]
  ∧ droppedDuplicateCount r = 0 ∧ droppedOrphanCount r = 0.
Proof.
  cbn zeta. split; [by vm_compute|]. split; [|by vm_compute].
  intros H.
  assert (r_moved (repairFrom host0 repairInit [mkAssistant [mkToolCall "a" "t"]]) = true) as Hm.
  { apply moved_spanResultWithRemainder. by right. }
  vm_compute in Hm. discriminate.
Qed.

(** ** Truncation of textified results *)

Lemma substring_prefix n (s : string) :
  n ≤ String.length s →
  ∃ rest, s = String.substring 0 n s +:+ rest ∧ String.length (String.substring 0 n s) = n.
Proof.
  revert s. induction n as [|n IH]; intros s Hn.
  - exists s. by destruct s.
  - destruct s as [|c s]; simpl in Hn; [lia|].
    destruct (IH s) as (rest & Hs & Hl); [lia|].
    exists rest. split.
    + change (String c s = String c (String.substring 0 n s +:+ rest)). by f_equal.
    + change (S (String.length (String.substring 0 n s)) = S n). by f_equal.
Qed.




(** ** What a turn emits *)

Lemma spanResultsOk_keyed ids seen sp : spanResultsOk ids seen sp → resultsKeyed sp.
Proof. intros H k x Hx. destruct (H k x Hx) as (? & ? & _). done. Qed.

Lemma emitCall_spec h sp st call :
  resultsKeyed sp → tc_id call ≠ "" →
  let x := callResult h sp st call in
  let st' := emitCall h sp st call in
  isToolResult x = true ∧ extractToolResultId x = Some (tc_id call)
  ∧ (if bool_decide (tc_id call ∈ r_seenToolResultIds st)
     then r_out st' = r_out st ∧ r_seenToolResultIds st' = r_seenToolResultIds st
     else r_out st' = r_out st ++ [x]
          ∧ r_seenToolResultIds st' = {[ tc_id call ]} ∪ r_seenToolResultIds st).
Proof.
  intros Hsp Hid. cbn zeta. unfold callResult, emitCall.
  destruct (sp !! tc_id call) as [e|] eqn:Hl.
  - destruct (Hsp _ _ Hl) as (Htr & He). split; [done|]. split; [done|].
    unfold pushToolResult. rewrite He. by case_bool_decide.
  - split; [done|]. split; [by apply missing_id|].
    unfold pushToolResult. rewrite missing_id by done. cbn [recordAdded r_seenToolResultIds].
    by case_bool_decide.
Qed.

Lemma emitCalls_spec h ids seen0 sp calls st :
  spanResultsOk ids seen0 sp → Forall (λ c, tc_id c ≠ "") calls →
  let st' := foldl (emitCall h sp) st calls in
  ∃ res, r_out st' = r_out st ++ res
         ∧ emittedOk (callIds calls) (r_seenToolResultIds st) res
         ∧ r_seenToolResultIds st' = callIds calls ∪ r_seenToolResultIds st.
Proof.
  intros Hsp Hids. cbn zeta. revert st.
  induction Hids as [|c cs Hc _ IH]; intros st.
  - exists []. simpl. rewrite app_nil_r. split; [done|]. split; [|unfold callIds; set_solver].
    split; [constructor | constructor].
  - cbn [foldl]. destruct (IH (emitCall h sp st c)) as (res & Hout & [Hres Hnd] & Hseen).
    destruct (emitCall_spec h sp st c (spanResultsOk_keyed _ _ _ Hsp) Hc) as (Htr & Hx & Hcase).
    rewrite Hout, Hseen. unfold callIds in *. cbn [fmap list_fmap list_to_set].
    case_bool_decide as Hin; destruct Hcase as [-> Hs]; rewrite Hs in *.
    + exists res. split; [done|]. split; [|set_solver].
      split; [|done]. eapply Forall_impl; [exact Hres|].
      intros x (? & k & ? & ? & ?). split; [done|]. exists k. set_solver.
    + exists (callResult h sp st c :: res). split; [by rewrite <- app_assoc|].
      split; [|set_solver]. split.
      * constructor.
        { split; [done|]. exists (tc_id c). set_solver. }
        eapply Forall_impl; [exact Hres|].
        intros x (? & k & ? & ? & ?). split; [done|]. exists k. set_solver.
      * cbn [omap list_omap]. rewrite Hx. constructor; [|done].
        intros (x & Hxin & Hxid)%list_elem_of_omap.
        rewrite Forall_forall in Hres. destruct (Hres _ Hxin) as (_ & k & Hk & _ & Hnot).
        rewrite Hxid in Hk. injection Hk as <-. set_solver.
Qed.

Lemma pushRemainder_out rem st :
  let st' := foldl (λ st rem, pushOut rem st) st rem in
  r_out st' = r_out st ++ rem ∧ r_seenToolResultIds st' = r_seenToolResultIds st.
Proof.
  cbn zeta. revert st. induction rem as [|m rem IH]; intros st; simpl.
  - by rewrite app_nil_r.
  - destruct (IH (pushOut m st)) as [-> ->]. simpl. by rewrite <- app_assoc.
Qed.

(** A turn emits the assistant message, one tool result per tool call
    id not emitted before, then the remainder. *)
Lemma finishTurn_out h msg calls st rest :
  Forall (λ c, tc_id c ≠ "") calls →
  let sc := scanSpan (callIds calls) st ∅ [] rest in
  let st' := finishTurn h msg calls sc in
  ∃ res, r_out st' = r_out st ++ msg :: res ++ List.filter notToolResult (spanPrefix rest)
         ∧ emittedOk (callIds calls) (r_seenToolResultIds st) res
         ∧ r_seenToolResultIds st' = callIds calls ∪ r_seenToolResultIds st.
Proof.
  intros Hids. cbn zeta. unfold finishTurn.
  set (sc := scanSpan (callIds calls) st ∅ [] rest).
  set (st2 := if (_ : bool) then _ else _).
  destruct (pushRemainder_out (sp_remainder sc) (foldl (emitCall h (sp_results sc)) st2 calls))
    as [-> ->].
  destruct (emitCalls_spec h (callIds calls) (r_seenToolResultIds st) (sp_results sc) calls st2)
    as (res & -> & Hres & ->); [|done|].
  { apply scanSpan_results_ok, spanResultsOk_empty. }
  assert (r_out st2 = r_out st ++ [msg] ∧ r_seenToolResultIds st2 = r_seenToolResultIds st)
    as [-> Hseen].
  { unfold st2, sc. case_match; simpl; by rewrite scanSpan_out, scanSpan_seen. }
  rewrite Hseen in *. exists res. split; [|done].
  unfold sc. rewrite scanSpan_remainder. simpl. by rewrite <- !app_assoc.
Qed.

(** ** The sanitizer *)

Lemma lookupField_updateField k x fields : lookupField k (updateField k x fields) = Some x.
Proof.
  induction fields as [|[k' v] fields IH]; simpl.
  - by rewrite String.eqb_refl.
  - destruct (String.eqb k k') eqn:E; simpl; [by rewrite String.eqb_refl | by rewrite E].
Qed.

Lemma getField_withField k x msg : getField k (withField k x msg) = x.
Proof.
  destruct msg; simpl; try by rewrite String.eqb_refl.
  by rewrite lookupField_updateField.
Qed.

Lemma sanitizeBlocks_fold content acc d :
  foldl (λ '(nextContent, droppedInMessage) block,
           if isToolCallBlock block && negb (hasToolCallInput block)
           then (nextContent, S droppedInMessage)
           else (nextContent ++ [block], droppedInMessage))
        (acc, d) content =
  (acc ++ List.filter keepBlock content,
   d + (length content - length (List.filter keepBlock content))).
Proof.
  revert acc d. induction content as [|b bs IH]; intros acc d; cbn [foldl List.filter length].
  - rewrite app_nil_r. f_equal. lia.
  - assert (keepBlock b = negb (isToolCallBlock b && negb (hasToolCallInput b))) as Hk by done.
    pose proof (List.filter_length_le keepBlock bs).
    destruct (isToolCallBlock b && negb (hasToolCallInput b)); rewrite Hk; cbn [negb]; rewrite IH.
    + f_equal. lia.
    + rewrite <- app_assoc. cbn [length app]. f_equal.
Qed.

Lemma sanitizeBlocks_spec content :
  sanitizeBlocks content =
    (List.filter keepBlock content, length content - length (List.filter keepBlock content)).
Proof. unfold sanitizeBlocks. by rewrite sanitizeBlocks_fold. Qed.

Lemma filter_keepBlock_inputs content :
  Forall (λ b, isToolCallBlock b = true → hasToolCallInput b = true)
         (List.filter keepBlock content).
Proof.
  apply Forall_forall. intros b [_ Hb]%list_elem_of_In%filter_In Htc.
  unfold keepBlock in Hb. rewrite Htc in Hb. simpl in Hb. by destruct (hasToolCallInput b).
Qed.

Lemma filter_all_length {A} (f : A → bool) l :
  length (List.filter f l) = length l → List.filter f l = l.
Proof.
  induction l as [|x l IH]; simpl; [done|].
  pose proof (List.filter_length_le f l).
  destruct (f x); simpl; intros Hlen; [f_equal; apply IH; lia | lia].
Qed.

(** What one step of the sanitizer does with a message: it is kept as
    it is, rewritten, or dropped. *)
Lemma filter_length_lt_exists {A} (f : A → bool) l :
  length (List.filter f l) < length l → ∃ x, x ∈ l ∧ f x = false.
Proof.
  induction l as [|x l IH]; simpl; [lia|].
  destruct (f x) eqn:E; simpl; intros Hlen.
  - destruct IH as (y & Hy & Hfy); [lia|]. exists y. split; [by right|done].
  - exists x. split; [by left|done].
Qed.

Lemma sanitizeStep_cases st msg :
  (sanitizeStep st msg =
     {| s_out := s_out st ++ [msg]; s_droppedToolCalls := s_droppedToolCalls st;
        s_droppedAssistantMessages := s_droppedAssistantMessages st;
        s_changed := s_changed st |}
   ∧ inputsPresent msg)
  ∨ (s_changed (sanitizeStep st msg) = true
     ∧ ¬ inputsPresent msg
     ∧ (s_out (sanitizeStep st msg) = s_out st
        ∨ ∃ msg', s_out (sanitizeStep st msg) = s_out st ++ [msg'] ∧ inputsPresent msg'
                  ∧ msg' ≠ msg)).
Proof.
  unfold sanitizeStep.
  destruct (isObject msg) eqn:Hobj; cbn [negb].
  2: { left. split; [done|]. unfold inputsPresent, isAssistant. by rewrite Hobj. }
  destruct (strictEqStr (role msg) "assistant") eqn:Hrole.
  2: { left. split; [done|]. unfold inputsPresent, isAssistant. by rewrite Hobj, Hrole. }
  destruct (getField "content" msg) as [| | | | |content|] eqn:Hc;
    try (left; split; [done|]; intros _ blocks; congruence).
  rewrite sanitizeBlocks_spec.
  destruct (0 <? length content - length (List.filter keepBlock content)) eqn:Hd.
  - right. apply Nat.ltb_lt in Hd.
    assert (¬ inputsPresent msg) as Hnot.
    { intros Hin. destruct (filter_length_lt_exists keepBlock content) as (b & Hb & Hk); [lia|].
      unfold inputsPresent, isAssistant in Hin. rewrite Hobj, Hrole in Hin.
      specialize (Hin eq_refl content Hc). rewrite Forall_forall in Hin.
      specialize (Hin b Hb). unfold keepBlock in Hk.
      destruct (isToolCallBlock b); [|done]. rewrite Hin in Hk; done. }
    destruct (List.filter keepBlock content) as [|b bs] eqn:Hf; [by split; [|split; [|left]]|].
    split; [done|]. split; [done|]. right. eexists. split; [done|]. split.
    + intros _ blocks. rewrite getField_withField. intros [= <-].
      rewrite <- Hf. apply filter_keepBlock_inputs.
    + intros Heq. apply (f_equal (getField "content")) in Heq.
      rewrite getField_withField, Hc in Heq. injection Heq as Heq.
      rewrite <- Heq in Hd. lia.
  - left. split; [done|]. intros _ blocks Hb. rewrite Hc in Hb. injection Hb as <-.
    apply Nat.ltb_ge in Hd. pose proof (List.filter_length_le keepBlock content).
    rewrite <- (filter_all_length keepBlock content) by lia. apply filter_keepBlock_inputs.
Qed.

Lemma sanitize_fold_out msgs st :
  ∃ e, s_out (foldl sanitizeStep st msgs) = s_out st ++ e ∧ length e ≤ length msgs.
Proof.
  revert st. induction msgs as [|m msgs IH]; intros st; simpl.
  - exists []. by rewrite app_nil_r.
  - destruct (IH (sanitizeStep st m)) as (e & -> & Hlen).
    destruct (sanitizeStep_cases st m) as [[-> _]|[_ [_ [->|(m' & -> & _)]]]].
    + exists (m :: e). simpl. split; [by rewrite <- app_assoc | lia].
    + exists e. split; [done | lia].
    + exists (m' :: e). simpl. split; [by rewrite <- app_assoc | lia].
Qed.

Lemma sanitize_fold_changed msgs st :
  s_changed st = true → s_changed (foldl sanitizeStep st msgs) = true.
Proof.
  revert st. induction msgs as [|m msgs IH]; intros st Hst; simpl; [done|].
  apply IH. by destruct (sanitizeStep_cases st m) as [[-> _]|[-> _]].
Qed.

Lemma sanitize_fold_inputs msgs st :
  Forall inputsPresent (s_out st) → Forall inputsPresent (s_out (foldl sanitizeStep st msgs)).
Proof.
  revert st. induction msgs as [|m msgs IH]; intros st Hst; simpl; [done|].
  apply IH. destruct (sanitizeStep_cases st m) as [[-> Hm]|[_ [_ [->|(m' & -> & Hm & _)]]]].
  - simpl. apply Forall_app. by split; [|constructor].
  - done.
  - apply Forall_app. by split; [|constructor].
Qed.

(** While nothing was dropped, the sequence being built is the input
    read so far. *)
Lemma sanitize_fold_unchanged msgs st :
  s_changed (foldl sanitizeStep st msgs) = false →
  s_out (foldl sanitizeStep st msgs) = s_out st ++ msgs.
Proof.
  revert st. induction msgs as [|m msgs IH]; intros st Hch; simpl in *.
  - by rewrite app_nil_r.
  - rewrite IH by done.
    destruct (sanitizeStep_cases st m) as [[-> _]|[Hc _]].
    + simpl. by rewrite <- app_assoc.
    + apply (sanitize_fold_changed msgs) in Hc. congruence.
Qed.

(** The built sequence equals the input only if nothing was dropped. *)
Lemma sanitize_fold_same msgs st :
  s_out (foldl sanitizeStep st msgs) = s_out st ++ msgs →
  s_changed st = false → s_changed (foldl sanitizeStep st msgs) = false.
Proof.
  revert st. induction msgs as [|m msgs IH]; intros st Hout Hst; simpl in *; [done|].
  destruct (sanitizeStep_cases st m) as [[Heq _]|[_ [_ [Heq|(m' & Heq & _ & Hne)]]]].
  - apply IH; rewrite Heq in *; simpl; [|done]. by rewrite <- app_assoc.
  - destruct (sanitize_fold_out msgs (sanitizeStep st m)) as (e & He & Hlen).
    rewrite He, Heq in Hout. apply app_inv_head in Hout. subst e. simpl in Hlen. lia.
  - destruct (sanitize_fold_out msgs (sanitizeStep st m)) as (e & He & Hlen).
    rewrite He, Heq, <- app_assoc in Hout. apply app_inv_head in Hout.
    simpl in Hout. congruence.
Qed.

Lemma sanitized_inputs_present msgs : Forall inputsPresent (sanitizeToolCallInputs msgs).
Proof.
  unfold sanitizeToolCallInputs, repairToolCallInputs, sanitizeRun. cbn [ir_messages].
  destruct (s_changed (foldl sanitizeStep sanitizeInit msgs)) eqn:Hch; cbn [deref].
  - apply sanitize_fold_inputs. constructor.
  - pose proof (sanitize_fold_inputs msgs sanitizeInit (Forall_nil_2 _)) as H.
    by rewrite sanitize_fold_unchanged in H.
Qed.

(** ** Where the messages of the repaired transcript come from *)

Lemma elem_of_drop {A} (x : A) n l : x ∈ drop n l → x ∈ l.
Proof. rewrite <- (take_drop n l) at 2. set_solver. Qed.

Lemma elem_of_spanPrefix x rest : x ∈ spanPrefix rest → x ∈ rest.
Proof. rewrite <- (spanPrefix_drop rest) at 2. set_solver. Qed.

(** A message of the built sequence was there before, is a message of
    the input, or is a tool result. *)
Lemma repair_out_origin h msgs st m :
  m ∈ r_out (repairFrom h st msgs) → m ∈ r_out st ∨ m ∈ msgs ∨ isToolResult m = true.
Proof.
  remember (length msgs) as n eqn:Hn. revert msgs st Hn.
  induction n as [n IH] using lt_wf_ind. intros [|msg rest] st Hn; [by left|].
  simpl in Hn. rewrite repairFrom_cons.
  destruct (iteration msg) as [| |calls] eqn:Hit.
  - intros [H|[H|H]]%(IH (length rest)); [|set_solver|by right;right|lia|done].
    simpl in H. set_solver.
  - intros [H|[H|H]]%(IH (length rest)); [by left|set_solver|by right;right|lia|done].
  - cbn zeta. apply iteration_Turn in Hit as (_ & _ & <- & _).
    set (calls := extractToolCallsFromAssistant msg).
    destruct (finishTurn_out h msg calls st rest) as (res & Hout & [Hres _] & _).
    { apply extractToolCalls_ids_nonempty. }
    intros [H|[H|H]]%(IH (length (sp_rest (scanSpan (callIds calls) st ∅ [] rest))));
      [| |by right;right|rewrite scanSpan_rest, length_drop; lia|done].
    + rewrite Hout in H. rewrite !elem_of_app, elem_of_cons, elem_of_app in H.
      destruct H as [H|[->|[H|H]]]; [by left|set_solver| |].
      * right; right. rewrite Forall_forall in Hres. by apply Hres.
      * apply list_elem_of_In, filter_In in H as [H%list_elem_of_In%elem_of_spanPrefix _].
        set_solver.
    + rewrite scanSpan_rest in H. apply elem_of_drop in H. set_solver.
Qed.

(** C4 (amended): after the sanitizer and the pairing repairer, every
    tool-call block inside an assistant message carries a non-null
    arguments payload under [input] or [arguments]. *)
Theorem sanitized_repaired_inputs_present h msgs m blocks b :
  m ∈ sanitizeToolUseResultPairing h (sanitizeToolCallInputs msgs) →
  isAssistant m = true → getField "content" m = VArr blocks →
  b ∈ blocks → isToolCallBlock b = true →
  hasToolCallInput b = true.
Proof.
  intros Hm Ha Hc Hb Htc.
  assert (m ∈ sanitizeToolCallInputs msgs) as Hin.
  { unfold sanitizeToolUseResultPairing, repairToolUseResultPairing in Hm. cbn [messages] in Hm.
    destruct (_ || _); cbn [deref] in Hm; [|done].
    apply repair_out_origin in Hm as [Hm|[Hm|Hm]]; [by apply elem_of_nil in Hm|done|].
    apply isAssistant_not_toolResult in Ha. congruence. }
  pose proof (sanitized_inputs_present msgs) as Hall.
  rewrite Forall_forall in Hall. specialize (Hall m Hin Ha blocks Hc).
  rewrite Forall_forall in Hall. by apply Hall.
Qed.

Lemma sanitized_repaired_inputs_present_witness :
  let noArgs := VObj [("type", VStr "toolUse"); ("id", VStr "b")] in
  let msgs := [mkAssistant [mkToolCall "a" "t"; noArgs]] in
  mkAssistant [mkToolCall "a" "t"]
    ∈ sanitizeToolUseResultPairing host0 (sanitizeToolCallInputs msgs)
  ∧ hasToolCallInput (mkToolCall "a" "t") = true.
Proof.
  cbn zeta.
  assert (mkAssistant [mkToolCall "a" "t"]
            ∈ sanitizeToolUseResultPairing host0
                (sanitizeToolCallInputs
                   [mkAssistant [mkToolCall "a" "t";
                                 VObj [("type", VStr "toolUse"); ("id", VStr "b")]]])) as Hin.
  { vm_compute. apply list_elem_of_here. }
  split; [exact Hin|].
  apply (sanitized_repaired_inputs_present _ _ _ [mkToolCall "a" "t"] _ Hin).
  - reflexivity.
  - reflexivity.
  - apply list_elem_of_here.
  - reflexivity.
Defined.

(** C4, as stated, fails on the id: a tool-call block without an [id]
    has its arguments, so the sanitizer keeps it, and the repairer does
    not read it as a tool call; the message goes through untouched. *)
Lemma tool_call_without_id_survives :
  let block := VObj [("type", VStr "toolCall"); ("name", VStr "t"); ("arguments", VObj [])] in
  let msgs := [mkAssistant [block]] in
  sanitizeToolUseResultPairing host0 (sanitizeToolCallInputs msgs) = msgs
  ∧ isAssistant (mkAssistant [block]) = true
  ∧ isToolCallBlock block = true
  ∧ nonEmptyString (getField "id" block) = None.
Proof. cbn zeta. repeat split; by vm_compute. Qed.

(** ** The textifier *)

Lemma splitBlocks_fold content tcs others :
  foldl (λ '(toolCallBlocks, otherBlocks) block,
           if isTextifiedBlock block
           then (toolCallBlocks ++ [block], otherBlocks)
           else (toolCallBlocks, otherBlocks ++ [block]))
        (tcs, others) content =
  (tcs ++ List.filter isTextifiedBlock content,
   others ++ List.filter (λ b, negb (isTextifiedBlock b)) content).
Proof.
  revert tcs others. induction content as [|b bs IH]; intros tcs others; cbn [foldl List.filter].
  - by rewrite !app_nil_r.
  - destruct (isTextifiedBlock b); cbn [negb]; rewrite IH, <- app_assoc; done.
Qed.

Lemma splitBlocks_spec content :
  splitBlocks content =
    (List.filter isTextifiedBlock content,
     List.filter (λ b, negb (isTextifiedBlock b)) content).
Proof. unfold splitBlocks. by rewrite splitBlocks_fold. Qed.

Lemma filter_idem {A} (f : A → bool) l : List.filter f (List.filter f l) = List.filter f l.
Proof.
  induction l as [|x l IH]; simpl; [done|].
  destruct (f x) eqn:E; simpl; [by rewrite E, IH | done].
Qed.

Lemma isTextifiedBlock_text s :
  isTextifiedBlock (VObj [("type", VStr "text"); ("text", VStr s)]) = false.
Proof. done. Qed.

(** The rebuilt content of an assistant message differs from the
    original one as soon as one block was textified. *)
Lemma rebuilt_content_differs content s :
  List.filter isTextifiedBlock content ≠ [] →
  List.filter (λ b, negb (isTextifiedBlock b)) content
    ++ [VObj [("type", VStr "text"); ("text", VStr s)]] ≠ content.
Proof.
  intros Hne Heq.
  assert (List.filter isTextifiedBlock content = []) as H; [|done].
  rewrite <- Heq, List.filter_app. cbn [List.filter]. rewrite isTextifiedBlock_text, app_nil_r.
  clear. induction content as [|b bs IH]; simpl; [done|].
  destruct (isTextifiedBlock b) eqn:E; simpl; [done|]. by rewrite E.
Qed.

Lemma textifyCalls_fold h idx tcs acc :
  let acc' := foldl (textifyCall h idx) acc tcs in
  a_consumed acc ⊆ a_consumed acc'
  ∧ (∀ m, m ∈ a_resultMessages acc' →
          m ∈ a_resultMessages acc ∨ strictEqStr (role m) "user" = true).
Proof.
  cbn zeta. revert acc. induction tcs as [|tc tcs IH]; intros acc; simpl; [naive_solver|].
  destruct (IH (textifyCall h idx acc tc)) as [Hsub Hres]. split.
  - etrans; [|exact Hsub]. unfold textifyCall. case_match; simpl; set_solver.
  - intros m [Hm|Hm]%Hres; [|by right]. unfold textifyCall in Hm. case_match; simpl in Hm.
    + apply elem_of_app in Hm as [Hm|Hm]; [by left|]. apply list_elem_of_singleton in Hm as ->.
      by right.
    + by left.
Qed.

(** What one step of the textifier does with a message. *)
Lemma filter_nil_existsb {A} (f : A → bool) l : List.filter f l = [] ↔ existsb f l = false.
Proof.
  induction l as [|x l IH]; simpl; [done|]. destruct (f x); simpl; [|done].
  split; intros; discriminate.
Qed.

Lemma textifyStep_cases h idx st msg :
  (textifyStep h idx st msg = t_push msg st ∧ hasTextifiedBlock msg = false)
  ∨ (textifyStep h idx st msg = t_skip st
     ∧ isToolResult msg = true
     ∧ ∃ id, extractToolResultId msg = Some id ∧ id ∈ t_consumedToolResultIds st)
  ∨ (∃ content acc,
       hasTextifiedBlock msg = true ∧ getField "content" msg = VArr content
       ∧ List.filter isTextifiedBlock content ≠ []
       ∧ acc = foldl (textifyCall h idx)
                 {| a_textParts := []; a_resultMessages := [];
                    a_consumed := t_consumedToolResultIds st;
                    a_dateNowCalls := t_dateNowCalls st |}
                 (List.filter isTextifiedBlock content)
       ∧ textifyStep h idx st msg =
           {| t_out := (t_out st ++
                [withField "content"
                   (VArr (List.filter (λ b, negb (isTextifiedBlock b)) content
                          ++ [VObj [("type", VStr "text");
                                    ("text", VStr (join newline (a_textParts acc)))]]))
                   msg]) ++ a_resultMessages acc;
              t_consumedToolResultIds := a_consumed acc;
              t_changed := true;
              t_dateNowCalls := a_dateNowCalls acc |}).
Proof.
  unfold textifyStep, isToolResult, hasTextifiedBlock, isAssistant.
  destruct (isObject msg); cbn [negb andb]; [|by left].
  destruct (strictEqStr (role msg) "toolResult") eqn:Htr.
  { destruct (extractToolResultId msg) as [id|] eqn:Hid.
    - case_bool_decide; [right; left; eauto|].
      left. split; [done|]. by rewrite (strictEqStr_excl _ "toolResult" "assistant").
    - left. split; [done|]. by rewrite (strictEqStr_excl _ "toolResult" "assistant"). }
  destruct (strictEqStr (role msg) "assistant") eqn:Ha; [|by left].
  destruct (getField "content" msg) as [| | | | |content|] eqn:Hc; try by left.
  rewrite splitBlocks_spec. cbn [andb].
  destruct (List.filter isTextifiedBlock content) as [|b bs] eqn:Hf.
  { left. split; [done|]. by apply filter_nil_existsb. }
  right; right. exists content. eexists.
  split. { destruct (existsb isTextifiedBlock content) eqn:E; [done|].
           apply filter_nil_existsb in E. congruence. }
  split; [done|]. rewrite Hf. split; [done|]. split; [reflexivity|]. done.
Qed.

Lemma textify_fold_changed h idx msgs st :
  t_changed st = true → t_changed (foldl (textifyStep h idx) st msgs) = true.
Proof.
  revert st. induction msgs as [|m msgs IH]; intros st Hst; simpl; [done|].
  apply IH.
  destruct (textifyStep_cases h idx st m) as [[-> _]|[[-> _]|(c & a & _ & _ & _ & _ & ->)]]; done.
Qed.

Lemma textify_fold_out h idx msgs st :
  ∃ e, t_out (foldl (textifyStep h idx) st msgs) = t_out st ++ e.
Proof.
  revert st. induction msgs as [|m msgs IH]; intros st; simpl.
  - exists []. by rewrite app_nil_r.
  - destruct (IH (textifyStep h idx st m)) as (e & ->).
    destruct (textifyStep_cases h idx st m) as [[-> _]|[[-> _]|(c & a & _ & _ & _ & _ & ->)]];
      simpl; rewrite <- ?app_assoc; eauto.
Qed.

(** While nothing was rewritten, the sequence being built is the input
    read so far. *)
Lemma textify_fold_unchanged h idx msgs st :
  t_changed (foldl (textifyStep h idx) st msgs) = false →
  t_out (foldl (textifyStep h idx) st msgs) = t_out st ++ msgs.
Proof.
  revert st. induction msgs as [|m msgs IH]; intros st Hch; simpl in *.
  - by rewrite app_nil_r.
  - rewrite IH by done.
    destruct (textifyStep_cases h idx st m) as [[-> _]|[[Heq _]|(c & a & _ & _ & _ & _ & Heq)]].
    + simpl. by rewrite <- app_assoc.
    + rewrite Heq in Hch. by rewrite textify_fold_changed in Hch.
    + rewrite Heq in Hch. by rewrite textify_fold_changed in Hch.
Qed.

Lemma hasTextifiedBlock_rebuilt content s msg :
  hasTextifiedBlock
    (withField "content"
       (VArr (List.filter (λ b, negb (isTextifiedBlock b)) content
              ++ [VObj [("type", VStr "text"); ("text", VStr s)]])) msg) = false.
Proof.
  unfold hasTextifiedBlock. rewrite getField_withField, existsb_app.
  cbn [existsb]. rewrite isTextifiedBlock_text. cbn [orb].
  rewrite orb_false_r, andb_false_iff. right.
  apply filter_nil_existsb. clear. induction content as [|b bs IH]; simpl; [done|].
  destruct (isTextifiedBlock b) eqn:E; simpl; [done|]. by rewrite E.
Qed.

(** No message of the textified transcript has a block left to textify. *)
Lemma textify_fold_clean h idx msgs st :
  Forall (λ m, hasTextifiedBlock m = false) (t_out st) →
  Forall (λ m, hasTextifiedBlock m = false) (t_out (foldl (textifyStep h idx) st msgs)).
Proof.
  revert st. induction msgs as [|m msgs IH]; intros st Hst; simpl; [done|].
  apply IH.
  destruct (textifyStep_cases h idx st m)
    as [[-> Hm]|[[-> _]|(c & a & _ & _ & _ & Ha & ->)]]; simpl.
  - apply Forall_app. by split; [|constructor].
  - done.
  - rewrite !Forall_app. split; [split; [done|]|].
    + constructor; [|done]. apply hasTextifiedBlock_rebuilt.
    + apply Forall_forall. intros x Hx.
      destruct (textifyCalls_fold h idx (List.filter isTextifiedBlock c)
                  {| a_textParts := []; a_resultMessages := [];
                     a_consumed := t_consumedToolResultIds st;
                     a_dateNowCalls := t_dateNowCalls st |}) as [_ Hres].
      rewrite <- Ha in Hres. destruct (Hres x Hx) as [Hin|Hu]; [by apply elem_of_nil in Hin|].
      unfold hasTextifiedBlock, isAssistant.
      rewrite (strictEqStr_excl _ "user" "assistant") by done. by rewrite andb_false_r.
Qed.

(** On a transcript with nothing to textify, the textifier pushes every
    message and changes nothing. *)
Lemma textify_fold_noop h idx msgs st :
  Forall (λ m, hasTextifiedBlock m = false) msgs →
  t_consumedToolResultIds st = ∅ →
  foldl (textifyStep h idx) st msgs =
    {| t_out := t_out st ++ msgs; t_consumedToolResultIds := ∅;
       t_changed := t_changed st; t_dateNowCalls := t_dateNowCalls st |}.
Proof.
  intros Hall. revert st. induction Hall as [|m msgs Hm _ IH]; intros st Hcons; simpl.
  - rewrite app_nil_r. destruct st; simpl in *; by subst.
  - destruct (textifyStep_cases h idx st m)
      as [[-> _]|[(_ & _ & id & _ & Hid)|(c & a & Ht & _)]].
    + rewrite IH by done. simpl. by rewrite <- app_assoc.
    + rewrite Hcons in Hid. set_solver.
    + congruence.
Qed.

(** ** The returned reference *)

Lemma sanitize_same_ref msgs :
  s_out (sanitizeRun msgs) = msgs → ir_messages (repairToolCallInputs msgs) = InputRef.
Proof.
  intros Hout. unfold repairToolCallInputs. cbn [ir_messages].
  unfold sanitizeRun in *. by rewrite sanitize_fold_same.
Qed.

Lemma textify_clean_ref h msgs :
  Forall (λ m, hasTextifiedBlock m = false) msgs → textifyToolCallRounds h msgs = InputRef.
Proof.
  intros Hall. unfold textifyToolCallRounds, textifyRun.
  by rewrite textify_fold_noop.
Qed.

Lemma textify_same_ref h msgs :
  t_out (textifyRun h msgs) = msgs → textifyToolCallRounds h msgs = InputRef.
Proof.
  intros Hout. apply textify_clean_ref. rewrite <- Hout at 1.
  apply textify_fold_clean. constructor.
Qed.

Lemma repair_ref_iff h msgs :
  let r := repairToolUseResultPairing h msgs in
  messages r = InputRef ↔
    ¬ spanResultWithRemainder h repairInit msgs ∧ added r = []
    ∧ droppedDuplicateCount r = 0 ∧ droppedOrphanCount r = 0.
Proof.
  cbn zeta. unfold repairToolUseResultPairing.
  cbn [messages added droppedDuplicateCount droppedOrphanCount].
  pose proof (changeRecorded_run h msgs) as Hch. unfold changeRecorded in Hch.
  pose proof (moved_spanResultWithRemainder h msgs repairInit) as Hmv.
  change (repairFrom h repairInit msgs) with (repairRun h msgs) in Hmv. simpl in Hmv.
  destruct (r_changed (repairRun h msgs)) eqn:Hc; cbn [orb].
  - split; [done|]. intros (Hn & Ha & Hd & Ho).
    destruct Hch as [Hch _]. destruct (Hch eq_refl) as [Hm|[?|[?|?]]]; [|done|lia|lia].
    destruct Hn. apply Hmv in Hm as [?|?]; done.
  - destruct (r_moved (repairRun h msgs)) eqn:Hm.
    + destruct Hch as [_ Hch]. discriminate Hch. by left.
    + split; [intros _|done].
      split. { intros H. destruct Hmv as [_ Hmv]. discriminate Hmv. by right. }
      destruct Hch as [_ Hch].
      split. { destruct (r_added (repairRun h msgs)); [done|]. discriminate Hch. by right; left. }
      split.
      * destruct (r_droppedDuplicateCount (repairRun h msgs)); [done|].
        discriminate Hch. right; right; left. lia.
      * destruct (r_droppedOrphanCount (repairRun h msgs)); [done|].
        discriminate Hch. right; right; right. lia.
Qed.

(** C6 (amended): the sanitizer and the textifier return the input
    array whenever the sequence they build equals the input.  The
    repairer returns the input array exactly when it dropped nothing,
    added nothing, and no assistant turn had a span result together with
    a non-empty remainder. *)
Theorem input_reference_when_unchanged :
  (∀ msgs, s_out (sanitizeRun msgs) = msgs →
           ir_messages (repairToolCallInputs msgs) = InputRef)
  ∧ (∀ h msgs, t_out (textifyRun h msgs) = msgs → textifyToolCallRounds h msgs = InputRef)
  ∧ (∀ h msgs,
       let r := repairToolUseResultPairing h msgs in
       messages r = InputRef ↔
         ¬ spanResultWithRemainder h repairInit msgs ∧ added r = []
         ∧ droppedDuplicateCount r = 0 ∧ droppedOrphanCount r = 0).
Proof.
  split; [exact sanitize_same_ref|]. split; [exact textify_same_ref | exact repair_ref_iff].
Qed.

(** C6, as stated, fails for the repairer: a turn whose result follows
    it directly, and then a user message.  No message changes, no
    counter moves, and a new array with the same elements is returned. *)
Lemma paired_turn_before_user_is_copied :
  let msgs := [mkAssistant [mkToolCall "a" "t"]; mkToolResult "a" "t" "x"; mkUser "thanks"] in
  let r := repairToolUseResultPairing host0 msgs in
  r_out (repairRun host0 msgs) = msgs
  ∧ messages r = Fresh msgs ∧ messages r ≠ InputRef
  ∧ added r = [] ∧ droppedDuplicateCount r = 0 ∧ droppedOrphanCount r = 0.
Proof. cbn zeta. repeat split; by vm_compute. Qed.

(** ** Idempotence of the sanitizer and of the textifier *)

Lemma sanitize_fold_noop msgs st :
  Forall inputsPresent msgs →
  s_changed (foldl sanitizeStep st msgs) = s_changed st.
Proof.
  intros Hall. revert st. induction Hall as [|m msgs Hm _ IH]; intros st; simpl; [done|].
  rewrite IH. by destruct (sanitizeStep_cases st m) as [[-> _]|[_ [? _]]].
Qed.

Lemma sanitize_idempotent msgs :
  sanitizeToolCallInputs (sanitizeToolCallInputs msgs) = sanitizeToolCallInputs msgs.
Proof.
  pose proof (sanitized_inputs_present msgs) as Hall.
  unfold sanitizeToolCallInputs at 1. unfold repairToolCallInputs, sanitizeRun. cbn [ir_messages].
  by rewrite sanitize_fold_noop.
Qed.

Lemma textified_clean h msgs :
  Forall (λ m, hasTextifiedBlock m = false) (deref msgs (textifyToolCallRounds h msgs)).
Proof.
  unfold textifyToolCallRounds, textifyRun.
  pose proof (textify_fold_clean h (indexToolResults msgs) msgs textifyInit (Forall_nil_2 _)) as H.
  destruct (t_changed _) eqn:Hch; cbn [deref]; [done|].
  by rewrite textify_fold_unchanged in H.
Qed.

Lemma textify_idempotent h1 h2 msgs :
  let once := deref msgs (textifyToolCallRounds h1 msgs) in
  deref once (textifyToolCallRounds h2 once) = once.
Proof.
  cbn zeta.
  by rewrite (textify_clean_ref h2 (deref msgs (textifyToolCallRounds h1 msgs)))
    by apply textified_clean.
Qed.

(** ** Messages outside any span *)

Lemma repairFrom_out_extends h msgs st : ∃ o, r_out (repairFrom h st msgs) = r_out st ++ o.
Proof.
  apply (repairFrom_inv h (λ st', ∃ o, r_out st' = r_out st ++ o)); simpl.
  - intros m st' _ [o ->]. exists (o ++ [m]). by rewrite app_assoc.
  - done.
  - done.
  - done.
  - intros id m st' _ _ _ [o ->]. exists (o ++ [m]). by rewrite app_assoc.
  - done.
  - exists []. by rewrite app_nil_r.
Qed.

Lemma changed_mono h msgs st : r_changed st = true → r_changed (repairFrom h st msgs) = true.
Proof. intros H. by apply (repairFrom_inv h (λ st, r_changed st = true)). Qed.

(** Without an open turn, the loop passes every message through, except
    the tool results: each is dropped and counted as an orphan. *)
Lemma repairFrom_no_assistant h span st :
  Forall (λ m, isAssistant m = false) span →
  let st' := repairFrom h st span in
  r_out st' = r_out st ++ List.filter notToolResult span
  ∧ r_droppedOrphanCount st' = r_droppedOrphanCount st + length (List.filter isToolResult span)
  ∧ r_droppedDuplicateCount st' = r_droppedDuplicateCount st
  ∧ r_added st' = r_added st
  ∧ r_seenToolResultIds st' = r_seenToolResultIds st
  ∧ r_changed st' = r_changed st || (0 <? length (List.filter isToolResult span)).
Proof.
  intros Hspan. cbn zeta. revert st.
  induction Hspan as [|m span Hm _ IH]; intros st.
  - rewrite repairFrom_nil. simpl. by rewrite app_nil_r, Nat.add_0_r, orb_false_r.
  - rewrite repairFrom_cons. unfold iteration. rewrite Hm. cbn [andb List.filter].
    unfold notToolResult at 1. destruct (isToolResult m) eqn:Htr; cbn [negb].
    + destruct (IH (dropOrphan st)) as (-> & -> & -> & -> & -> & ->). simpl.
      split_and!; try done; try lia. by rewrite orb_true_r.
    + destruct (IH (pushOut m st)) as (-> & -> & -> & -> & -> & ->). simpl.
      split_and!; try done. by rewrite <- app_assoc.
Qed.

(** C10: an assistant message stopped by [error] or [aborted] is emitted
    as it is, and every tool result between it and the next assistant
    message is dropped and counted as an orphan, whatever its id. *)
Theorem error_turn_drops_following_results h pre a span post :
  isAssistant a = true → isErrorStop a = true →
  Forall (λ m, isAssistant m = false) span → assistantLed post →
  let msgs := pre ++ a :: span ++ post in
  let before := repairFrom h repairInit pre in
  let after := repairFrom h repairInit (pre ++ a :: span) in
  let r := repairToolUseResultPairing h msgs in
  r_out after = r_out before ++ a :: List.filter notToolResult span
  ∧ r_droppedOrphanCount after =
      r_droppedOrphanCount before + length (List.filter isToolResult span)
  ∧ r_droppedDuplicateCount after = r_droppedDuplicateCount before
  ∧ r_added after = r_added before
  ∧ repairRun h msgs = repairFrom h after post
  ∧ (∃ outPost, r_out (repairRun h msgs) = r_out after ++ outPost)
  ∧ (List.filter isToolResult span ≠ [] → messages r = Fresh (r_out (repairRun h msgs))).
Proof.
  intros Ha Herr Hspan Hpost. cbn zeta.
  assert (repairFrom h repairInit (pre ++ a :: span) =
          repairFrom h (pushOut a (repairFrom h repairInit pre)) span) as Hafter.
  { rewrite repairFrom_app by done. rewrite repairFrom_cons. unfold iteration.
    by rewrite (isAssistant_not_toolResult a Ha), Ha, Herr. }
  assert (repairRun h (pre ++ a :: span ++ post) =
          repairFrom h (repairFrom h repairInit (pre ++ a :: span)) post) as Hrun.
  { unfold repairRun. change (repairLoop h (length ?l) ?st ?l) with (repairFrom h st l).
    replace (pre ++ a :: span ++ post) with ((pre ++ a :: span) ++ post)
      by (by rewrite <- app_assoc).
    by apply repairFrom_app. }
  destruct (repairFrom_no_assistant h span (pushOut a (repairFrom h repairInit pre)) Hspan)
    as (Hout & Horph & Hdup & Hadd & _ & Hch).
  rewrite Hrun, Hafter. rewrite Horph, Hdup, Hadd.
  split; [rewrite Hout; simpl; by rewrite <- app_assoc|]. do 4 (split; [done|]).
  split; [apply repairFrom_out_extends|].
  intros Hne. unfold repairToolUseResultPairing. cbn [messages]. rewrite Hrun, Hafter.
  rewrite changed_mono; [done|]. rewrite Hch.
  destruct (List.filter isToolResult span); [done|]. apply orb_true_r.
Qed.

Lemma error_turn_drops_following_results_witness :
  let a := mkStopped "error" [mkToolCall "a" "t"] in
  let span := [mkToolResult "a" "t" "partial"; mkUser "again"] in
  let r := repairToolUseResultPairing host0 ([mkUser "hi"] ++ a :: span ++ []) in
  messages r = Fresh [mkUser "hi"; a; mkUser "again"] ∧ droppedOrphanCount r = 1.
Proof.
  cbn zeta.
  pose proof (error_turn_drops_following_results host0 [mkUser "hi"]
                (mkStopped "error" [mkToolCall "a" "t"])
                [mkToolResult "a" "t" "partial"; mkUser "again"] []
                eq_refl eq_refl) as H.
  cbn zeta in H.
  destruct H as (_ & _ & _ & _ & _ & _ & Hm).
  - repeat constructor.
  - exact I.
  - split; [|by vm_compute]. rewrite Hm; [by vm_compute|]. by vm_compute.
Defined.

(** ** Repeated correlation ids *)

Lemma countResults_app id l1 l2 :
  countResults id (l1 ++ l2) = countResults id l1 + countResults id l2.
Proof. unfold countResults. by rewrite List.filter_app, length_app. Qed.

Lemma countResults_snoc id l m :
  countResults id (l ++ [m]) = countResults id l + (if resultFor id m then 1 else 0).
Proof. rewrite countResults_app. unfold countResults at 2. simpl. by destruct (resultFor id m). Qed.

Lemma resultsUnique_run h msgs : resultsUnique (repairRun h msgs).
Proof.
  change (resultsUnique (repairFrom h repairInit msgs)).
  apply (repairFrom_inv h resultsUnique); unfold resultsUnique; simpl.
  - intros m st Hm H id. rewrite countResults_snoc. unfold resultFor. rewrite Hm. simpl.
    rewrite !Nat.add_0_r. apply H.
  - done.
  - done.
  - done.
  - intros k m st Hm Hk Hnot H id. rewrite countResults_snoc. unfold resultFor.
    rewrite Hm, Hk. simpl.
    destruct (H id) as [H1 H2]. case_bool_decide as Heq; simpl.
    + injection Heq as ->. rewrite (H2 Hnot). split; [lia|]. set_solver.
    + rewrite !Nat.add_0_r. split; [done|]. intros Hid. apply H2. set_solver.
  - done.
  - intros id. split; [unfold countResults; simpl; lia | done].
Qed.








Lemma elem_of_span_or_rest (r : value) rest :
  r ∈ rest → r ∈ spanPrefix rest ∨ r ∈ drop (length (spanPrefix rest)) rest.
Proof. rewrite <- (spanPrefix_drop rest) at 1. set_solver. Qed.



Lemma invocationIds_app l1 l2 : invocationIds (l1 ++ l2) = invocationIds l1 ++ invocationIds l2.
Proof. induction l1 as [|m l1 IH]; simpl; [done|]. by rewrite IH, <- app_assoc. Qed.

Lemma invocationIds_no_assistant span :
  Forall (λ m, isAssistant m = false) span → invocationIds span = [].
Proof. induction 1 as [|m l Hm _ IH]; simpl; [done|]. by rewrite Hm. Qed.

Lemma invocationIds_scan_rest rest :
  invocationIds (drop (length (spanPrefix rest)) rest) = invocationIds rest.
Proof.
  transitivity (invocationIds (spanPrefix rest ++ drop (length (spanPrefix rest)) rest));
    [|by rewrite spanPrefix_drop].
  by rewrite invocationIds_app, (invocationIds_no_assistant (spanPrefix rest))
    by apply spanPrefix_no_assistant.
Qed.






(** ** Running the repairer on its own output *)

Lemma scanSpan_results_keep ids st sp rem rest k x :
  sp !! k = Some x → sp_results (scanSpan ids st sp rem rest) !! k = Some x.
Proof.
  revert st sp rem. induction rest as [|m rest IH]; intros st sp rem Hsp; [done|].
  rewrite scanSpan_cons. repeat case_match; try done; apply IH; try done.
  rewrite lookup_insert_ne; [done|]. congruence.
Qed.

(** The look-ahead over the results emitted for a turn collects every
    one of them. *)
Lemma scanSpan_collects ids st rem tail res sp :
  Forall (λ x, isToolResult x = true
               ∧ ∃ k, extractToolResultId x = Some k ∧ k ∈ ids
                      ∧ (k ∉ r_seenToolResultIds st) ∧ (sp !! k = None)) res →
  NoDup (omap extractToolResultId res) →
  ∀ x k, x ∈ res → extractToolResultId x = Some k →
         sp_results (scanSpan ids st sp rem (res ++ tail)) !! k = Some x.
Proof.
  intros Hres. revert sp Hres. induction res as [|x0 res IH]; intros sp Hres Hnd x k Hx Hk.
  { by apply elem_of_nil in Hx. }
  apply Forall_cons in Hres as [(Htr0 & k0 & Hk0 & Hin0 & Hseen0 & Hsp0) Hres].
  cbn [omap list_omap] in Hnd. rewrite Hk0 in Hnd. apply NoDup_cons in Hnd as [Hfresh Hnd].
  rewrite <- app_comm_cons, scanSpan_cons.
  rewrite (isToolResult_not_assistant _ Htr0), Htr0, Hk0.
  rewrite bool_decide_eq_true_2, bool_decide_eq_false_2, Hsp0 by done.
  apply elem_of_cons in Hx as [->|Hx].
  - rewrite Hk0 in Hk. injection Hk as <-.
    apply scanSpan_results_keep, lookup_insert_eq.
  - apply IH; [|done|done|done].
    rewrite Forall_forall in Hres. apply Forall_forall. intros y Hy.
    destruct (Hres y Hy) as (Htr & ky & Hky & Hiny & Hseeny & Hspy).
    split; [done|]. exists ky. split_and!; try done.
    rewrite lookup_insert_ne; [done|]. intros <-.
    apply Hfresh, list_elem_of_omap. eauto.
Qed.

Lemma emitCalls_out_extends h sp calls st :
  resultsKeyed sp → Forall (λ c, tc_id c ≠ "") calls →
  ∃ o, r_out (foldl (emitCall h sp) st calls) = r_out st ++ o.
Proof.
  intros Hsp Hids. revert st. induction Hids as [|c cs Hc _ IH]; intros st.
  - exists []. simpl. by rewrite app_nil_r.
  - cbn [foldl]. destruct (IH (emitCall h sp st c)) as [o ->].
    destruct (emitCall_spec h sp st c Hsp Hc) as (_ & _ & Hcase).
    case_bool_decide; destruct Hcase as [-> _]; [eauto|].
    rewrite <- app_assoc. eauto.
Qed.

(** A second run pushes, for the same tool calls, the results the first
    run pushed, once its look-ahead found them. *)
Lemma emitCalls_replay h1 h2 sp1 sp2 calls :
  resultsKeyed sp1 → resultsKeyed sp2 → Forall (λ c, tc_id c ≠ "") calls →
  ∀ sA sB res,
    r_seenToolResultIds sA = r_seenToolResultIds sB →
    r_out (foldl (emitCall h1 sp1) sA calls) = r_out sA ++ res →
    (∀ x k, x ∈ res → extractToolResultId x = Some k → sp2 !! k = Some x) →
    r_out (foldl (emitCall h2 sp2) sB calls) = r_out sB ++ res
    ∧ r_seenToolResultIds (foldl (emitCall h2 sp2) sB calls) =
        r_seenToolResultIds (foldl (emitCall h1 sp1) sA calls).
Proof.
  intros Hsp1 Hsp2 Hids. induction Hids as [|c cs Hc Hcs IH]; intros sA sB res Hseen Hout Hres.
  - simpl in *. rewrite <- (app_nil_r (r_out sA)) in Hout at 1.
    apply app_inv_head in Hout as <-. by rewrite app_nil_r.
  - cbn [foldl] in *.
    destruct (emitCall_spec h1 sp1 sA c Hsp1 Hc) as (Htr & Hx & HcaseA).
    destruct (emitCall_spec h2 sp2 sB c Hsp2 Hc) as (_ & _ & HcaseB).
    destruct (emitCalls_out_extends h1 sp1 cs (emitCall h1 sp1 sA c) Hsp1 Hcs) as [res' Hres'].
    rewrite <- Hseen in HcaseB.
    case_bool_decide as Hin; destruct HcaseA as [HoA HsA]; destruct HcaseB as [HoB HsB].
    + rewrite HoA in Hres'. rewrite Hres' in Hout. apply app_inv_head in Hout as ->.
      rewrite <- HoB. apply IH; [congruence | by rewrite HoA | done].
    + rewrite HoA, <- app_assoc in Hres'. rewrite Hres' in Hout.
      apply app_inv_head in Hout. simpl in Hout. subst res.
      assert (callResult h2 sp2 sB c = callResult h1 sp1 sA c) as Hsame.
      { unfold callResult at 1. by rewrite (Hres _ _ (list_elem_of_here _ _) Hx). }
      rewrite Hsame in HoB.
      destruct (IH (emitCall h1 sp1 sA c) (emitCall h2 sp2 sB c) res') as [-> ->].
      * congruence.
      * by rewrite HoA, <- app_assoc.
      * intros y k Hy. apply Hres. by right.
      * split; [|done]. rewrite HoB. by rewrite <- app_assoc.
Qed.

Lemma filter_notToolResult_results res :
  Forall (λ x, isToolResult x = true) res → List.filter notToolResult res = [].
Proof.
  induction 1 as [|x res Hx _ IH]; simpl; [done|]. unfold notToolResult at 1. by rewrite Hx.
Qed.

Lemma spanPrefix_filter_no_assistant rest :
  Forall (λ m, isAssistant m = false) (List.filter notToolResult (spanPrefix rest)).
Proof.
  apply Forall_forall. intros m [Hm _]%list_elem_of_In%filter_In.
  pose proof (spanPrefix_no_assistant rest) as H. rewrite Forall_forall in H.
  by apply H, list_elem_of_In.
Qed.

(** One turn, run again on what it emitted: the look-ahead finds the
    emitted results and the remainder, and the turn emits them again. *)
Lemma finishTurn_replay h1 h2 m calls st1 st2 rest :
  iteration m = Turn calls → Forall (λ c, tc_id c ≠ "") calls →
  r_seenToolResultIds st1 = r_seenToolResultIds st2 →
  let rem := List.filter notToolResult (spanPrefix rest) in
  let st1' := finishTurn h1 m calls (scanSpan (callIds calls) st1 ∅ [] rest) in
  ∃ res st2',
    r_out st1' = r_out st1 ++ m :: res ++ rem
    ∧ r_out st2' = r_out st2 ++ m :: res ++ rem
    ∧ r_seenToolResultIds st2' = r_seenToolResultIds st1'
    ∧ ∀ tail, assistantLed tail →
        repairFrom h2 st2 (m :: res ++ rem ++ tail) = repairFrom h2 st2' tail.
Proof.
  intros Hit Hids Hseen. cbn zeta.
  set (rem := List.filter notToolResult (spanPrefix rest)).
  set (ids := callIds calls).
  set (sc1 := scanSpan ids st1 ∅ [] rest).
  assert (spanResultsOk ids (r_seenToolResultIds st1) (sp_results sc1)) as Hok1.
  { apply scanSpan_results_ok, spanResultsOk_empty. }
  unfold finishTurn.
  set (sA := if (_ : bool) then markMoved (pushOut m (sp_state sc1)) else pushOut m (sp_state sc1)).
  assert (r_out sA = r_out st1 ++ [m] ∧ r_seenToolResultIds sA = r_seenToolResultIds st1)
    as [HoA HsA].
  { unfold sA, sc1. case_match; simpl; by rewrite scanSpan_out, scanSpan_seen. }
  destruct (emitCalls_spec h1 ids (r_seenToolResultIds st1) (sp_results sc1) calls sA Hok1 Hids)
    as (res & Hout1 & [Hres Hnd] & Hseen1).
  set (sc2 := scanSpan ids st2 ∅ [] (res ++ rem)).
  exists res, (finishTurn h2 m calls sc2).
  destruct (pushRemainder_out (sp_remainder sc1) (foldl (emitCall h1 (sp_results sc1)) sA calls))
    as [-> ->].
  assert (sp_remainder sc1 = rem) as Hrem1 by (unfold sc1; by rewrite scanSpan_remainder).
  rewrite Hrem1, Hout1, HoA. split; [by rewrite <- !app_assoc|].
  (* the second run, over [res ++ rem] *)
  assert (Forall (λ x, isToolResult x = true) res) as Htr.
  { eapply Forall_impl; [exact Hres|]. by intros x [? _]. }
  assert (Forall (λ x, isAssistant x = false) (res ++ rem)) as Hna.
  { apply Forall_app. split; [|apply spanPrefix_filter_no_assistant].
    eapply Forall_impl; [exact Htr|]. intros x. apply isToolResult_not_assistant. }
  assert (sp_rest sc2 = []) as Hrest2.
  { unfold sc2. rewrite scanSpan_rest, spanPrefix_id by done. apply drop_all. }
  assert (sp_remainder sc2 = rem) as Hrem2.
  { unfold sc2. rewrite scanSpan_remainder, spanPrefix_id by done.
    rewrite List.filter_app, filter_notToolResult_results by done.
    apply filter_idem. }
  assert (∀ tail, assistantLed tail →
            repairFrom h2 st2 (m :: res ++ rem ++ tail) =
            repairFrom h2 (finishTurn h2 m calls sc2) tail) as Hrun.
  { intros tail Htail. rewrite repairFrom_cons, Hit. cbn zeta.
    replace (res ++ rem ++ tail) with ((res ++ rem) ++ tail) by (by rewrite <- app_assoc).
    rewrite scanSpan_app_led by done. fold ids sc2. cbn [sp_rest]. rewrite Hrest2.
    by destruct sc2. }
  unfold finishTurn.
  set (sB := if (_ : bool) then markMoved (pushOut m (sp_state sc2)) else pushOut m (sp_state sc2)).
  assert (r_out sB = r_out st2 ++ [m] ∧ r_seenToolResultIds sB = r_seenToolResultIds st2)
    as [HoB HsB].
  { unfold sB, sc2. case_match; simpl; by rewrite scanSpan_out, scanSpan_seen. }
  destruct (pushRemainder_out (sp_remainder sc2) (foldl (emitCall h2 (sp_results sc2)) sB calls))
    as [-> ->].
  rewrite Hrem2.
  assert (resultsKeyed (sp_results sc1)) as Hk1 by by eapply spanResultsOk_keyed.
  assert (resultsKeyed (sp_results sc2)) as Hk2.
  { eapply spanResultsOk_keyed. apply scanSpan_results_ok, spanResultsOk_empty. }
  assert (r_seenToolResultIds sA = r_seenToolResultIds sB) as HsAB by congruence.
  assert (∀ x k, x ∈ res → extractToolResultId x = Some k → sp_results sc2 !! k = Some x)
    as Hcollect.
  { unfold sc2. apply scanSpan_collects; [|done].
    eapply Forall_impl; [exact Hres|]. intros x (? & k & ? & ? & ?).
    split; [done|]. exists k. rewrite <- Hseen, <- HsA. by rewrite lookup_empty. }
  destruct (emitCalls_replay h1 h2 _ _ calls Hk1 Hk2 Hids sA sB res HsAB Hout1 Hcollect)
    as [-> ->].
  split; [by rewrite HoB, <- !app_assoc|]. split; [done|].
  intros tail Htail. rewrite (Hrun tail Htail). unfold finishTurn, sB. by rewrite Hrem2.
Qed.

(** What a run emits, a second run emits again: same messages, same
    seen ids. *)
Lemma repair_replay h1 h2 msgs st1 st2 :
  r_seenToolResultIds st1 = r_seenToolResultIds st2 →
  ∃ o, r_out (repairFrom h1 st1 msgs) = r_out st1 ++ o
       ∧ r_out (repairFrom h2 st2 o) = r_out st2 ++ o
       ∧ r_seenToolResultIds (repairFrom h2 st2 o) =
           r_seenToolResultIds (repairFrom h1 st1 msgs)
       ∧ (assistantLed msgs → assistantLed o).
Proof.
  remember (length msgs) as n eqn:Hn. revert msgs st1 st2 Hn.
  induction n as [n IH] using lt_wf_ind. intros [|m rest] st1 st2 Hn Hseen.
  { exists []. rewrite !repairFrom_nil, !app_nil_r. done. }
  simpl in Hn. rewrite repairFrom_cons.
  destruct (iteration m) as [| |calls] eqn:Hit.
  - destruct (IH (length rest) ltac:(lia) rest (pushOut m st1) (pushOut m st2) eq_refl Hseen)
      as (o & Ho1 & Ho2 & Hs & _).
    exists (m :: o). rewrite repairFrom_cons, Hit, Ho1, Ho2. simpl.
    by rewrite <- !app_assoc.
  - destruct (IH (length rest) ltac:(lia) rest (dropOrphan st1) st2 eq_refl Hseen)
      as (o & Ho1 & Ho2 & Hs & _).
    exists o. split; [done|]. split; [done|]. split; [done|].
    simpl. intros Ha. apply iteration_Orphan, isToolResult_not_assistant in Hit. congruence.
  - cbn zeta. apply iteration_Turn in Hit as Hit'. destruct Hit' as (Ha & _ & Hcalls & _).
    pose proof (extractToolCalls_ids_nonempty m) as Hids. rewrite Hcalls in Hids.
    destruct (finishTurn_replay h1 h2 m calls st1 st2 rest Hit Hids Hseen)
      as (res & st2' & Hout1 & Hout2 & Hseen' & Hrun).
    set (sc1 := scanSpan (callIds calls) st1 ∅ [] rest) in *.
    destruct (IH (length (sp_rest sc1))) with (msgs := sp_rest sc1)
        (st1 := finishTurn h1 m calls sc1) (st2 := st2')
      as (o & Ho1 & Ho2 & Hs & Hled); [|done|done|].
    { unfold sc1. rewrite scanSpan_rest, length_drop. lia. }
    assert (assistantLed o) as Hlo.
    { apply Hled. unfold sc1. rewrite scanSpan_rest. apply assistantLed_drop_spanPrefix. }
    exists (m :: res ++ List.filter notToolResult (spanPrefix rest) ++ o).
    rewrite Ho1, Hout1, Hrun, Ho2, Hout2, Hs by done.
    split; [by rewrite <- app_assoc; simpl; rewrite <- app_assoc|].
    split; [by rewrite <- app_assoc; simpl; rewrite <- app_assoc|]. done.
Qed.

(** *** The flags do not depend on the clock *)

Lemma scanSpan_sameFlags ids st1 st2 sp rem rest :
  sameFlags st1 st2 →
  let sc1 := scanSpan ids st1 sp rem rest in
  let sc2 := scanSpan ids st2 sp rem rest in
  sameFlags (sp_state sc1) (sp_state sc2) ∧ sp_results sc1 = sp_results sc2
  ∧ sp_remainder sc1 = sp_remainder sc2 ∧ sp_rest sc1 = sp_rest sc2.
Proof.
  cbn zeta. revert st1 st2 sp rem. induction rest as [|m rest IH]; intros st1 st2 sp rem HR.
  { done. }
  rewrite !scanSpan_cons. destruct HR as (Hs & Hd & Ho & Hm & Hc). rewrite <- Hs.
  repeat case_match; try done; apply IH; unfold sameFlags; simpl; by rewrite ?Hd, ?Ho.
Qed.

Lemma pushToolResult_sameFlags x1 x2 st1 st2 :
  extractToolResultId x1 = extractToolResultId x2 → sameFlags st1 st2 →
  sameFlags (pushToolResult x1 st1) (pushToolResult x2 st2).
Proof.
  intros Hx (Hs & Hd & Ho & Hm & Hc). unfold pushToolResult. rewrite <- Hx, <- Hs.
  repeat case_match; unfold sameFlags; simpl; by rewrite ?Hs, ?Hd.
Qed.

Lemma emitCalls_sameFlags h1 h2 sp calls st1 st2 :
  Forall (λ c, tc_id c ≠ "") calls → sameFlags st1 st2 →
  sameFlags (foldl (emitCall h1 sp) st1 calls) (foldl (emitCall h2 sp) st2 calls).
Proof.
  intros Hids. revert st1 st2. induction Hids as [|c cs Hc _ IH]; intros st1 st2 HR; [done|].
  simpl. apply IH. unfold emitCall. destruct (sp !! tc_id c).
  - by apply pushToolResult_sameFlags.
  - apply pushToolResult_sameFlags; [by rewrite !missing_id|].
    destruct HR as (Hs & Hd & Ho & Hm & _). by unfold sameFlags.
Qed.

Lemma pushRemainder_sameFlags rem st1 st2 :
  sameFlags st1 st2 →
  sameFlags (foldl (λ st rem, pushOut rem st) st1 rem)
            (foldl (λ st rem, pushOut rem st) st2 rem).
Proof. revert st1 st2. induction rem as [|m rem IH]; intros st1 st2 HR; [done|]. by apply IH. Qed.

Lemma repairFrom_sameFlags h1 h2 msgs st1 st2 :
  sameFlags st1 st2 → sameFlags (repairFrom h1 st1 msgs) (repairFrom h2 st2 msgs).
Proof.
  remember (length msgs) as n eqn:Hn. revert msgs st1 st2 Hn.
  induction n as [n IH] using lt_wf_ind. intros [|m rest] st1 st2 Hn HR; [done|].
  simpl in Hn. rewrite !repairFrom_cons.
  destruct (iteration m) as [| |calls] eqn:Hit.
  - eapply IH; [|done|]; [lia|]. by destruct HR as (?&?&?&?&?).
  - eapply IH; [|done|]; [lia|]. destruct HR as (?&Hd&Ho&?&?). unfold sameFlags. simpl.
    by rewrite Ho.
  - cbn zeta. apply iteration_Turn in Hit as (_ & _ & <- & _).
    set (calls := extractToolCallsFromAssistant m).
    destruct (scanSpan_sameFlags (callIds calls) st1 st2 ∅ [] rest HR)
      as (HR' & Hres & Hrem & Hrest).
    rewrite <- Hrest. eapply IH; [|done|].
    { rewrite scanSpan_rest, length_drop. lia. }
    unfold finishTurn. rewrite <- Hres, <- Hrem.
    apply pushRemainder_sameFlags, emitCalls_sameFlags.
    { apply extractToolCalls_ids_nonempty. }
    destruct HR' as (?&?&?&?&?). case_match; unfold sameFlags; simpl; done.
Qed.

Lemma repairToolUseResultPairing_idempotent h1 h2 msgs :
  let once := sanitizeToolUseResultPairing h1 msgs in
  sanitizeToolUseResultPairing h2 once = once.
Proof.
  cbn zeta. unfold sanitizeToolUseResultPairing at 2 3, repairToolUseResultPairing.
  cbn [messages].
  destruct (r_changed (repairRun h1 msgs) || r_moved (repairRun h1 msgs)) eqn:Hch; cbn [deref].
  - destruct (repair_replay h1 h2 msgs repairInit repairInit eq_refl) as (o & Ho1 & Ho2 & _).
    simpl in Ho1, Ho2. change (repairFrom h1 repairInit msgs) with (repairRun h1 msgs) in Ho1.
    rewrite Ho1. unfold sanitizeToolUseResultPairing, repairToolUseResultPairing.
    cbn [messages]. case_match; cbn [deref]; [|done]. exact Ho2.
  - unfold sanitizeToolUseResultPairing, repairToolUseResultPairing. cbn [messages].
    destruct (repairFrom_sameFlags h1 h2 msgs repairInit repairInit) as (_ & _ & _ & Hm & Hc).
    { by unfold sameFlags. }
    change (repairFrom ?h repairInit msgs) with (repairRun h msgs) in Hm, Hc.
    by rewrite <- Hm, <- Hc, Hch.
Qed.

(** C7: each of the three transforms, run on its own result, returns
    the same sequence of messages, whatever the clock of either run. *)
Theorem transforms_idempotent :
  (∀ h1 h2 msgs,
     let once := sanitizeToolUseResultPairing h1 msgs in
     sanitizeToolUseResultPairing h2 once = once)
  ∧ (∀ h1 h2 msgs,
       let once := deref msgs (textifyToolCallRounds h1 msgs) in
       deref once (textifyToolCallRounds h2 once) = once)
  ∧ (∀ msgs,
       sanitizeToolCallInputs (sanitizeToolCallInputs msgs) = sanitizeToolCallInputs msgs).
Proof.
  split; [exact repairToolUseResultPairing_idempotent|].
  split; [exact textify_idempotent | exact sanitize_idempotent].
Qed.

(** ** A repeated result inside one span *)

(** C1 fails on the code: the only invocation id of the transcript is
    ["a"], and in the returned transcript the assistant message is
    followed by two tool results for it, so the pairing invariant does
    not hold. *)
Theorem pairing_broken_by_repeated_result :
  let r := repairToolUseResultPairing host0 repeatedInSpan in
  NoDup (invocationIds repeatedInSpan)
  ∧ messages r = InputRef
  ∧ sanitizeToolUseResultPairing host0 repeatedInSpan =
      [ mkAssistant [mkToolCall "a" "t"];
        mkToolResult "a" "t" "first";
        mkToolResult "a" "t" "second" ]
  ∧ extractToolResultId (mkToolResult "a" "t" "first") = Some "a"
  ∧ extractToolResultId (mkToolResult "a" "t" "second") = Some "a"
  ∧ ¬ paired (sanitizeToolUseResultPairing host0 repeatedInSpan).
Proof.
  cbn zeta. split.
  { change (invocationIds repeatedInSpan) with ["a"]. apply NoDup_singleton. }
  do 4 (split; [by vm_compute|]).
  intros Hp.
  destruct (Hp [] (mkAssistant [mkToolCall "a" "t"])
              [mkToolResult "a" "t" "first"; mkToolResult "a" "t" "second"])
    as (res & rest & Heq & Hres & Hled); try done.
  change (extractToolCallsFromAssistant (mkAssistant [mkToolCall "a" "t"]))
    with [{| tc_id := "a"; tc_name := Some "t" |}] in Hres.
  apply Forall2_cons_inv_l in Hres as (x & res' & _ & Hnil%Forall2_nil_inv_l & ->).
  subst res'. simpl in Heq. injection Heq as _ <-. simpl in Hled. discriminate Hled.
Qed.

(** C2 fails on the code: the returned transcript holds two tool results
    with the correlation id ["a"], although the sequence that was built
    holds one, and no duplicate is counted. *)
Theorem uniqueness_broken_by_repeated_result :
  let r := repairToolUseResultPairing host0 repeatedInSpan in
  countResults "a" (sanitizeToolUseResultPairing host0 repeatedInSpan) = 2
  ∧ countResults "a" (r_out (repairRun host0 repeatedInSpan)) = 1
  ∧ droppedDuplicateCount r = 0 ∧ droppedOrphanCount r = 0 ∧ moved r = false.
Proof. cbn zeta. repeat split; by vm_compute. Qed.

(** ** A result that precedes its assistant message *)


(** ** The pairing invariant of the sequence that is built *)

Lemma app_eq_cons_split {A} (o1 o2 l1 l2 : list A) a :
  o1 ++ o2 = l1 ++ a :: l2 →
  (∃ l2', o1 = l1 ++ a :: l2' ∧ l2 = l2' ++ o2)
  ∨ (∃ l1', l1 = o1 ++ l1' ∧ o2 = l1' ++ a :: l2).
Proof.
  revert l1. induction o1 as [|x o1 IH]; intros l1 Heq.
  - right. by exists l1.
  - destruct l1 as [|y l1]; simpl in Heq; injection Heq as -> Heq.
    + left. by exists o1.
    + destruct (IH l1 Heq) as [(l2' & -> & ->)|(l1' & -> & ->)].
      * left. by exists l2'.
      * right. by exists l1'.
Qed.

Lemma paired_app o1 o2 : paired o1 → paired o2 → notLedByResult o2 → paired (o1 ++ o2).
Proof.
  intros H1 H2 Hled l1 a l2 Heq Ha Herr Hcalls.
  apply app_eq_cons_split in Heq as [(l2' & -> & ->)|(l1' & -> & ->)].
  - destruct (H1 l1 a l2' eq_refl Ha Herr Hcalls) as (res & rest & -> & Hres & Hrest).
    exists res, (rest ++ o2). split; [by rewrite <- app_assoc|]. split; [done|].
    by destruct rest.
  - by apply (H2 l1' a l2).
Qed.

Lemma paired_nil : paired [].
Proof. intros [|] ? ? ?; done. Qed.

Lemma paired_pass m : iteration m = Pass → paired [m].
Proof.
  intros Hit [|y l1] a l2 Heq Ha Herr Hcalls; simpl in Heq.
  - injection Heq as <- _. unfold iteration in Hit.
    rewrite (isAssistant_not_toolResult _ Ha), Ha, Herr in Hit. simpl in Hit.
    by destruct (extractToolCallsFromAssistant m).
  - injection Heq as _ Heq. by destruct l1.
Qed.

(** With ids that are pairwise distinct and not emitted before, every
    tool call gets its result pushed. *)
Lemma emitCalls_all h sp calls st :
  resultsKeyed sp → Forall (λ c, tc_id c ≠ "") calls →
  NoDup (tc_id <$> calls) → (∀ k, k ∈ tc_id <$> calls → k ∉ r_seenToolResultIds st) →
  ∃ res, r_out (foldl (emitCall h sp) st calls) = r_out st ++ res
         ∧ Forall2 (λ c x, isToolResult x = true ∧ extractToolResultId x = Some (tc_id c))
                   calls res.
Proof.
  intros Hsp Hids. revert st. induction Hids as [|c cs Hc _ IH]; intros st Hnd Hfresh.
  - exists []. simpl. by rewrite app_nil_r.
  - cbn [fmap list_fmap] in Hnd, Hfresh. apply NoDup_cons in Hnd as [Hc' Hnd].
    destruct (emitCall_spec h sp st c Hsp Hc) as (Htr & Hx & Hcase).
    rewrite bool_decide_eq_false_2 in Hcase by (apply Hfresh; by left).
    destruct Hcase as [Hout Hseen].
    destruct (IH (emitCall h sp st c) Hnd) as (res & Hres & Hall).
    { intros k Hk. rewrite Hseen. apply not_elem_of_union. split; [|apply Hfresh; by right].
      apply not_elem_of_singleton. by intros ->. }
    exists (callResult h sp st c :: res). cbn [foldl]. rewrite Hres, Hout, <- app_assoc.
    split; [done|]. by constructor.
Qed.

Lemma finishTurn_out_all h msg calls st rest :
  Forall (λ c, tc_id c ≠ "") calls →
  NoDup (tc_id <$> calls) → (∀ k, k ∈ tc_id <$> calls → k ∉ r_seenToolResultIds st) →
  let st' := finishTurn h msg calls (scanSpan (callIds calls) st ∅ [] rest) in
  ∃ res, r_out st' = r_out st ++ msg :: res ++ List.filter notToolResult (spanPrefix rest)
         ∧ Forall2 (λ c x, isToolResult x = true ∧ extractToolResultId x = Some (tc_id c))
                   calls res
         ∧ r_seenToolResultIds st' = callIds calls ∪ r_seenToolResultIds st.
Proof.
  intros Hids Hnd Hfresh. cbn zeta.
  destruct (finishTurn_out h msg calls st rest Hids) as (res0 & Hout0 & _ & Hseen).
  unfold finishTurn in *.
  set (sc := scanSpan (callIds calls) st ∅ [] rest) in *.
  set (st2 := if (_ : bool) then _ else _) in *.
  assert (r_out st2 = r_out st ++ [msg] ∧ r_seenToolResultIds st2 = r_seenToolResultIds st)
    as [Ho2 Hs2].
  { unfold st2, sc. case_match; simpl; by rewrite scanSpan_out, scanSpan_seen. }
  destruct (emitCalls_all h (sp_results sc) calls st2) as (res & Hres & Hall); try done.
  { eapply spanResultsOk_keyed, (scanSpan_results_ok _ st), spanResultsOk_empty. }
  { by rewrite Hs2. }
  exists res. split; [|done].
  destruct (pushRemainder_out (sp_remainder sc) (foldl (emitCall h (sp_results sc)) st2 calls))
    as [-> _].
  rewrite Hres, Ho2. unfold sc. rewrite scanSpan_remainder. simpl. by rewrite <- !app_assoc.
Qed.

Lemma paired_turn m res rem :
  Forall2 (λ c x, isToolResult x = true ∧ extractToolResultId x = Some (tc_id c))
          (extractToolCallsFromAssistant m) res →
  Forall (λ x, isAssistant x = false) rem → Forall (λ x, isToolResult x = false) rem →
  paired (m :: res ++ rem).
Proof.
  intros Hres Hna Hntr [|y l1] a l2 Heq Ha Herr Hcalls; simpl in Heq; injection Heq as <- Heq.
  - subst l2. exists res, rem. split; [done|]. split; [done|].
    destruct rem as [|x rem]; [done|]. by apply Forall_cons in Hntr as [? _].
  - exfalso. assert (a ∈ res ++ rem) as Hin by (rewrite Heq; set_solver).
    apply elem_of_app in Hin as [Hin|Hin].
    + apply Forall2_Forall_r with (Q := λ x, isToolResult x = true) in Hres.
      * rewrite Forall_forall in Hres. apply Hres, isToolResult_not_assistant in Hin. congruence.
      * apply Forall_forall. by intros c _ x [? _].
    + rewrite Forall_forall in Hna. apply Hna in Hin. congruence.
Qed.

Lemma repair_paired h msgs st :
  NoDup (invocationIds msgs) →
  (∀ k, k ∈ invocationIds msgs → k ∉ r_seenToolResultIds st) →
  ∃ o, r_out (repairFrom h st msgs) = r_out st ++ o ∧ paired o ∧ notLedByResult o.
Proof.
  remember (length msgs) as n eqn:Hn. revert msgs st Hn.
  induction n as [n IH] using lt_wf_ind. intros [|m rest] st Hn Hnd Hfresh.
  { exists []. rewrite repairFrom_nil, app_nil_r. split; [done|]. split; [apply paired_nil|done]. }
  simpl in Hn. cbn [invocationIds] in Hnd, Hfresh. apply NoDup_app in Hnd as (Hnd_m & Hdisj & Hnd).
  rewrite repairFrom_cons. destruct (iteration m) as [| |calls] eqn:Hit.
  - destruct (IH (length rest) ltac:(lia) rest (pushOut m st) eq_refl Hnd) as (o & -> & Hp & Hled).
    { intros k Hk. apply Hfresh. set_solver. }
    exists (m :: o). simpl. rewrite <- app_assoc. split; [done|]. split.
    + apply (paired_app [m] o); [by apply paired_pass|done|done].
    + by apply iteration_Pass.
  - destruct (IH (length rest) ltac:(lia) rest (dropOrphan st) eq_refl Hnd) as (o & -> & Hp & Hled).
    { intros k Hk. apply Hfresh. set_solver. }
    by exists o.
  - cbn zeta. apply iteration_Turn in Hit as (Ha & _ & <- & _). rewrite Ha in *.
    set (calls := extractToolCallsFromAssistant m) in *.
    destruct (finishTurn_out_all h m calls st rest) as (res & Hout & Hres & Hseen).
    { apply extractToolCalls_ids_nonempty. }
    { done. }
    { intros k Hk. apply Hfresh. set_solver. }
    set (st' := finishTurn h m calls (scanSpan (callIds calls) st ∅ [] rest)) in *.
    destruct (IH (length (sp_rest (scanSpan (callIds calls) st ∅ [] rest))))
      with (msgs := sp_rest (scanSpan (callIds calls) st ∅ [] rest)) (st := st')
      as (o & Ho & Hp & Hled).
    + rewrite scanSpan_rest, length_drop. lia.
    + done.
    + by rewrite scanSpan_rest, invocationIds_scan_rest.
    + rewrite scanSpan_rest, invocationIds_scan_rest. intros k Hk. rewrite Hseen.
      apply not_elem_of_union. split; [|apply Hfresh; set_solver].
      unfold callIds. rewrite elem_of_list_to_set. intros Hk'. by apply (Hdisj k).
    + exists ((m :: res ++ List.filter notToolResult (spanPrefix rest)) ++ o).
      rewrite Ho, Hout. split; [by rewrite <- !app_assoc|]. split.
      * apply paired_app; [|done|done]. apply paired_turn; [done| |].
        { apply spanPrefix_filter_no_assistant. }
        { apply filter_notToolResult. }
      * simpl. by apply isAssistant_not_toolResult.
Qed.

(** When the invocation ids of the transcript are pairwise distinct, the
    sequence that the repairer builds satisfies the pairing invariant.
    (It is the sequence returned whenever [changed] or [moved] is set.) *)
Theorem built_sequence_paired h msgs :
  NoDup (invocationIds msgs) → paired (r_out (repairRun h msgs)).
Proof.
  intros Hnd. destruct (repair_paired h msgs repairInit Hnd) as (o & Ho & Hp & _).
  { intros k _. set_solver. }
  change (repairFrom h repairInit msgs) with (repairRun h msgs) in Ho. by rewrite Ho.
Qed.

(** * Further properties of the repairer *)

(** ** Where the state of a run comes from *)

Lemma scanSpan_results_from ids st sp rem rest k x :
  sp_results (scanSpan ids st sp rem rest) !! k = Some x →
  sp !! k = Some x ∨ x ∈ spanPrefix rest.
Proof.
  revert st sp rem. induction rest as [|m rest IH]; intros st sp rem; [by left|].
  rewrite scanSpan_cons. cbn [spanPrefix].
  destruct (isAssistant m) eqn:Ha; [by left|].
  destruct (isToolResult m) eqn:Htr.
  2: { intros [?|?]%IH; [by left | right; by right]. }
  destruct (extractToolResultId m) as [id|] eqn:Hid.
  2: { intros [?|?]%IH; [by left | right; by right]. }
  case_bool_decide.
  2: { intros [?|?]%IH; [by left | right; by right]. }
  case_bool_decide.
  { intros [?|?]%IH; [by left | right; by right]. }
  intros [Hl|?]%IH; [|right; by right].
  destruct (sp !! id) eqn:Hsp; [by left|].
  destruct (decide (id = k)) as [->|Hne].
  - rewrite lookup_insert_eq in Hl. injection Hl as <-. right. by left.
  - rewrite lookup_insert_ne in Hl by done. by left.
Qed.

Section repair_provenance.
Context (h : Host) (src : list value) (P : RepairState → Prop).
Hypothesis Q_push : ∀ m st, m ∈ src → isToolResult m = false → P st → P (pushOut m st).
Hypothesis Q_orphan : ∀ st, P st → P (dropOrphan st).
Hypothesis Q_dup : ∀ st, P st → P (dropDuplicate st).
Hypothesis Q_moved : ∀ st, P st → P (markMoved st).
Hypothesis Q_existing : ∀ a c m st,
  a ∈ src → invokes a c → m ∈ src → isToolResult m = true →
  extractToolResultId m = Some (tc_id c) → tc_id c ∉ r_seenToolResultIds st →
  P st → P (markSeenAndPush (tc_id c) m st).
Hypothesis Q_added : ∀ a c st,
  a ∈ src → invokes a c → P st →
  P (recordAdded
       (makeMissingToolResult (Date_now h (r_dateNowCalls st)) (tc_id c) (tc_name c)) st).
Hypothesis Q_synthetic : ∀ a c st,
  a ∈ src → invokes a c → tc_id c ∉ r_seenToolResultIds st → P st →
  let missing :=
    makeMissingToolResult (Date_now h (r_dateNowCalls st)) (tc_id c) (tc_name c) in
  P (markSeenAndPush (tc_id c) missing (recordAdded missing st)).

Lemma invokes_id_nonempty a c : invokes a c → tc_id c ≠ "".
Proof.
  intros (_ & _ & Hc). pose proof (extractToolCalls_ids_nonempty a) as H.
  rewrite Forall_forall in H. by apply H.
Qed.

Lemma emitCall_src a c sp st :
  a ∈ src → invokes a c → resultsKeyed sp → (∀ k x, sp !! k = Some x → x ∈ src) →
  P st → P (emitCall h sp st c).
Proof using Q_dup Q_existing Q_added Q_synthetic.
  intros Ha Hc Hkeyed Hsrc HP. unfold emitCall.
  destruct (sp !! tc_id c) as [e|] eqn:Hl.
  - destruct (Hkeyed _ _ Hl) as [Htr He]. unfold pushToolResult. rewrite He.
    case_bool_decide; [by apply Q_dup|]. by eapply Q_existing; eauto.
  - unfold pushToolResult. rewrite missing_id by by eapply invokes_id_nonempty.
    cbn [recordAdded r_seenToolResultIds].
    case_bool_decide; [by eapply Q_dup, Q_added|].
    by eapply Q_synthetic.
Qed.

Lemma emitCalls_src a calls sp st :
  a ∈ src → Forall (invokes a) calls → resultsKeyed sp →
  (∀ k x, sp !! k = Some x → x ∈ src) →
  P st → P (foldl (emitCall h sp) st calls).
Proof using Q_dup Q_existing Q_added Q_synthetic.
  intros Ha Hcalls Hkeyed Hsrc. revert st.
  induction Hcalls as [|c cs Hc _ IH]; intros st HP; [done|].
  simpl. apply IH. by eapply emitCall_src.
Qed.

Lemma pushRemainder_src rem st :
  Forall (λ m, m ∈ src ∧ isToolResult m = false) rem →
  P st → P (foldl (λ st rem, pushOut rem st) st rem).
Proof using Q_push.
  intros Hrem. revert st. induction Hrem as [|m l [Hm Hn] _ IH]; intros st HP; [done|].
  simpl. apply IH. by apply Q_push.
Qed.

Lemma repairFrom_src msgs st :
  (∀ m, m ∈ msgs → m ∈ src) → P st → P (repairFrom h st msgs).
Proof using All.
  remember (length msgs) as n eqn:Hn. revert msgs st Hn.
  induction n as [n IH] using lt_wf_ind. intros [|msg rest] st Hn Hsub HP; [done|].
  rewrite repairFrom_cons. simpl in Hn.
  assert (∀ m, m ∈ rest → m ∈ src) as Hrest by (intros m Hm; apply Hsub; by right).
  destruct (iteration msg) as [| |toolCalls] eqn:Hit.
  - eapply IH; [|done|done|]; [lia|].
    apply Q_push; [apply Hsub; by left | by apply iteration_Pass | done].
  - eapply IH; [|done|done|]; [lia|]. by apply Q_orphan.
  - apply iteration_Turn in Hit as (Ha & Herr & <- & _). cbn zeta.
    set (calls := extractToolCallsFromAssistant msg).
    set (sc := scanSpan (callIds calls) st ∅ [] rest).
    eapply IH; [|done| |].
    + unfold sc. rewrite scanSpan_rest, length_drop. lia.
    + unfold sc. rewrite scanSpan_rest. intros m Hm. apply Hrest. by eapply elem_of_drop.
    + unfold finishTurn. apply pushRemainder_src.
      { unfold sc. rewrite scanSpan_remainder. apply Forall_forall.
        intros m [Hm Hn']%list_elem_of_In%filter_In. split.
        - by apply Hrest, elem_of_spanPrefix, list_elem_of_In.
        - unfold notToolResult in Hn'. by destruct (isToolResult m). }
      eapply (emitCalls_src msg).
      * apply Hsub. by left.
      * apply Forall_forall. intros c Hc. by split_and!.
      * eapply spanResultsOk_keyed, (scanSpan_results_ok _ st), spanResultsOk_empty.
      * intros k x Hx. apply scanSpan_results_from in Hx as [Hx|Hx].
        { by rewrite lookup_empty in Hx. }
        by apply Hrest, elem_of_spanPrefix.
      * assert (P (pushOut msg (sp_state sc))) as HP'.
        { apply Q_push; [apply Hsub; by left | by apply isAssistant_not_toolResult |].
          by apply scanSpan_inv. }
        case_match; [by apply Q_moved | done].
Qed.
End repair_provenance.

(** ** Messages that are not tool results *)

Lemma repairFrom_keeps_others h msgs st :
  List.filter notToolResult (r_out (repairFrom h st msgs)) =
    List.filter notToolResult (r_out st) ++ List.filter notToolResult msgs.
Proof.
  remember (length msgs) as n eqn:Hn. revert msgs st Hn.
  induction n as [n IH] using lt_wf_ind. intros [|m rest] st Hn.
  { by rewrite repairFrom_nil, app_nil_r. }
  simpl in Hn. rewrite repairFrom_cons.
  destruct (iteration m) as [| |calls] eqn:Hit.
  - assert (notToolResult m = true) as Hm.
    { unfold notToolResult. by rewrite (iteration_Pass _ Hit). }
    rewrite (IH (length rest)) by (done || lia). cbn [pushOut r_out].
    rewrite List.filter_app. cbn [List.filter]. rewrite Hm. by rewrite <- app_assoc.
  - assert (notToolResult m = false) as Hm.
    { unfold notToolResult. by rewrite (iteration_Orphan _ Hit). }
    rewrite (IH (length rest)) by (done || lia). cbn [List.filter]. by rewrite Hm.
  - cbn zeta. apply iteration_Turn in Hit as (Ha & _ & <- & _).
    set (calls := extractToolCallsFromAssistant m).
    destruct (finishTurn_out h m calls st rest) as (res & Hout & [Hres _] & _).
    { apply extractToolCalls_ids_nonempty. }
    rewrite (IH (length (sp_rest (scanSpan (callIds calls) st ∅ [] rest)))).
    2: { rewrite scanSpan_rest, length_drop. lia. }
    2: done.
    rewrite Hout, scanSpan_rest.
    assert (List.filter notToolResult res = []) as Hnil.
    { apply filter_notToolResult_results. eapply Forall_impl; [exact Hres|]. by intros x [? _]. }
    assert (notToolResult m = true) as Hm.
    { unfold notToolResult. by rewrite (isAssistant_not_toolResult _ Ha). }
    rewrite (List.filter_app _ (r_out st)). cbn [List.filter]. rewrite Hm.
    rewrite (List.filter_app _ res), Hnil, filter_idem. cbn [app].
    transitivity (List.filter notToolResult (r_out st)
                  ++ m :: List.filter notToolResult
                            (spanPrefix rest ++ drop (length (spanPrefix rest)) rest)).
    + rewrite List.filter_app, <- !app_assoc. done.
    + by rewrite spanPrefix_drop.
Qed.

(** X1: the repairer neither drops, adds nor reorders a message that is
    not a tool result: taken alone, these messages are the same sequence
    in the input and in the returned transcript. *)
Theorem repair_keeps_other_messages h msgs :
  List.filter notToolResult (sanitizeToolUseResultPairing h msgs) =
    List.filter notToolResult msgs.
Proof.
  unfold sanitizeToolUseResultPairing, repairToolUseResultPairing. cbn [messages].
  case_match; cbn [deref]; [|done].
  apply (repairFrom_keeps_others h msgs repairInit).
Qed.

(** ** Where the returned messages come from *)

Lemma added_extends (st : RepairState) m x : x ∈ r_added st → x ∈ r_added (recordAdded m st).
Proof. simpl. set_solver. Qed.

Lemma repair_out_from_input_or_added h msgs :
  Forall (λ x, x ∈ msgs ∨ x ∈ r_added (repairRun h msgs)) (r_out (repairRun h msgs)).
Proof.
  change (repairRun h msgs) with (repairFrom h repairInit msgs).
  apply (repairFrom_src h msgs
           (λ st, Forall (λ x, x ∈ msgs ∨ x ∈ r_added st) (r_out st))); simpl.
  - intros m st Hm _ H. apply Forall_app. split; [done|]. constructor; [by left|done].
  - done.
  - done.
  - done.
  - intros a c m st _ _ Hm _ _ _ H. apply Forall_app. split; [done|].
    constructor; [by left|done].
  - intros a c st _ _ H. eapply Forall_impl; [exact H|]. intros x [?|?]; [by left|].
    right. set_solver.
  - intros a c st _ _ _ H. apply Forall_app. split.
    + eapply Forall_impl; [exact H|]. intros x [?|?]; [by left|]. right. set_solver.
    + constructor; [|done]. right. set_solver.
  - done.
  - constructor.
Qed.

(** X2: every message of the returned transcript is a message of the
    input or one of the synthetic results listed in [added]. *)
Theorem repaired_messages_from_input_or_added h msgs :
  let r := repairToolUseResultPairing h msgs in
  Forall (λ x, x ∈ msgs ∨ x ∈ added r) (deref msgs (messages r)).
Proof.
  cbn zeta. unfold repairToolUseResultPairing. cbn [messages added].
  case_match; cbn [deref]; [apply repair_out_from_input_or_added|].
  apply Forall_forall. by left.
Qed.

Lemma repair_added_synthetic h msgs :
  Forall (syntheticFor msgs) (r_added (repairRun h msgs)).
Proof.
  change (repairRun h msgs) with (repairFrom h repairInit msgs).
  apply (repairFrom_src h msgs (λ st, Forall (syntheticFor msgs) (r_added st))); simpl;
    try done.
  - intros a c st Ha Hc H. apply Forall_app. split; [done|]. constructor; [|done].
    by exists a, c, (Date_now h (r_dateNowCalls st)).
  - intros a c st Ha Hc _ H. apply Forall_app. split; [done|]. constructor; [|done].
    by exists a, c, (Date_now h (r_dateNowCalls st)).
Qed.

(** X3: every entry of [added] is a synthetic error result made for a
    tool call of an assistant message of the input that takes part in
    the pairing; its correlation id is the id of that call. *)
Theorem added_are_synthetic_errors h msgs :
  Forall (λ x, syntheticFor msgs x
               ∧ isToolResult x = true
               ∧ getField "isError" x = VBool true
               ∧ ∃ a c, a ∈ msgs ∧ invokes a c ∧ extractToolResultId x = Some (tc_id c))
         (added (repairToolUseResultPairing h msgs)).
Proof.
  unfold repairToolUseResultPairing. cbn [added].
  eapply Forall_impl; [apply repair_added_synthetic|].
  intros x Hx. split; [done|]. destruct Hx as (a & c & now & Ha & Hc & ->).
  split; [done|]. split; [done|]. exists a, c. split; [done|]. split; [done|].
  apply missing_id. destruct Hc as (_ & _ & Hc).
  pose proof (extractToolCalls_ids_nonempty a) as H. rewrite Forall_forall in H. by apply H.
Qed.

(** X4: when the repairer returns a new array, it holds at most one tool
    result per correlation id. *)
Theorem rebuilt_results_unique h msgs id :
  match messages (repairToolUseResultPairing h msgs) with
  | Fresh out => countResults id out ≤ 1
  | InputRef => True
  end.
Proof.
  unfold repairToolUseResultPairing. cbn [messages].
  destruct (_ || _); [|done]. apply (resultsUnique_run h msgs).
Qed.

(** ** Duplicates are counted only when invocation ids repeat *)

Lemma scanSpan_no_duplicates ids st sp rem rest :
  (∀ k, k ∈ ids → k ∉ r_seenToolResultIds st) →
  r_droppedDuplicateCount (sp_state (scanSpan ids st sp rem rest)) =
    r_droppedDuplicateCount st.
Proof.
  intros Hfresh. revert st sp rem Hfresh.
  induction rest as [|m rest IH]; intros st sp rem Hfresh; [done|].
  rewrite scanSpan_cons. repeat case_match; try done; try (by apply IH).
  - exfalso. apply bool_decide_eq_true_1 in H2, H3. by apply (Hfresh s).
  - by rewrite (IH (dropOrphan st)).
  - by rewrite (IH (dropOrphan st)).
Qed.

Lemma emitCalls_no_duplicates h sp calls st :
  resultsKeyed sp → Forall (λ c, tc_id c ≠ "") calls →
  NoDup (tc_id <$> calls) → (∀ k, k ∈ tc_id <$> calls → k ∉ r_seenToolResultIds st) →
  r_droppedDuplicateCount (foldl (emitCall h sp) st calls) = r_droppedDuplicateCount st.
Proof.
  intros Hsp Hids. revert st. induction Hids as [|c cs Hc _ IH]; intros st Hnd Hfresh; [done|].
  cbn [fmap list_fmap] in Hnd, Hfresh. apply NoDup_cons in Hnd as [Hc' Hnd].
  destruct (emitCall_spec h sp st c Hsp Hc) as (Htr & Hx & Hcase).
  assert (tc_id c ∉ r_seenToolResultIds st) as Hnot by (apply Hfresh; by left).
  rewrite bool_decide_eq_false_2 in Hcase by done. destruct Hcase as [_ Hseen].
  cbn [foldl]. rewrite IH; [|done|].
  - unfold emitCall, pushToolResult.
    destruct (sp !! tc_id c) as [e|] eqn:Hl.
    + destruct (Hsp _ _ Hl) as [_ ->]. by rewrite bool_decide_eq_false_2.
    + rewrite missing_id by done. cbn [recordAdded r_seenToolResultIds].
      by rewrite bool_decide_eq_false_2.
  - intros k Hk. rewrite Hseen. apply not_elem_of_union. split; [|apply Hfresh; by right].
    apply not_elem_of_singleton. by intros ->.
Qed.

Lemma pushRemainder_duplicates rem st :
  r_droppedDuplicateCount (foldl (λ st rem, pushOut rem st) st rem) =
    r_droppedDuplicateCount st.
Proof. revert st. induction rem as [|m rem IH]; intros st; [done|]. simpl. by rewrite IH. Qed.

Lemma repairFrom_no_duplicates h msgs st :
  NoDup (invocationIds msgs) →
  (∀ k, k ∈ invocationIds msgs → k ∉ r_seenToolResultIds st) →
  r_droppedDuplicateCount (repairFrom h st msgs) = r_droppedDuplicateCount st.
Proof.
  remember (length msgs) as n eqn:Hn. revert msgs st Hn.
  induction n as [n IH] using lt_wf_ind. intros [|m rest] st Hn Hnd Hfresh; [done|].
  simpl in Hn. cbn [invocationIds] in Hnd, Hfresh. apply NoDup_app in Hnd as (Hnd_m & Hdisj & Hnd).
  rewrite repairFrom_cons. destruct (iteration m) as [| |calls] eqn:Hit.
  - rewrite (IH (length rest)); [done|lia|done|done|]. intros k Hk. apply Hfresh. set_solver.
  - rewrite (IH (length rest)); [done|lia|done|done|]. intros k Hk. apply Hfresh. set_solver.
  - cbn zeta. apply iteration_Turn in Hit as (Ha & _ & <- & _). rewrite Ha in *.
    set (calls := extractToolCallsFromAssistant m) in *.
    pose proof (extractToolCalls_ids_nonempty m) as Hids. fold calls in Hids.
    assert (∀ k, k ∈ tc_id <$> calls → k ∉ r_seenToolResultIds st) as Hfresh_m.
    { intros k Hk. apply Hfresh. set_solver. }
    destruct (finishTurn_out h m calls st rest Hids) as (_ & _ & _ & Hseen).
    set (sc := scanSpan (callIds calls) st ∅ [] rest) in *.
    rewrite (IH (length (sp_rest sc))).
    + unfold finishTurn. rewrite pushRemainder_duplicates.
      rewrite emitCalls_no_duplicates; try done.
      * transitivity (r_droppedDuplicateCount (sp_state sc)); [by case_match|].
        apply scanSpan_no_duplicates. intros k Hk. apply Hfresh_m.
        unfold callIds in Hk. by rewrite elem_of_list_to_set in Hk.
      * eapply spanResultsOk_keyed, (scanSpan_results_ok _ st), spanResultsOk_empty.
      * intros k Hk.
        assert (r_seenToolResultIds
                  (if (0 <? size (sp_results sc)) && (0 <? length (sp_remainder sc))
                   then markMoved (pushOut m (sp_state sc)) else pushOut m (sp_state sc))
                = r_seenToolResultIds st) as ->.
        { unfold sc. case_match; simpl; by rewrite scanSpan_seen. }
        by apply Hfresh_m.
    + unfold sc. rewrite scanSpan_rest, length_drop. lia.
    + done.
    + unfold sc. by rewrite scanSpan_rest, invocationIds_scan_rest.
    + intros k Hk. rewrite Hseen. unfold sc in Hk.
      rewrite scanSpan_rest, invocationIds_scan_rest in Hk.
      apply not_elem_of_union. split; [|apply Hfresh; set_solver].
      unfold callIds. rewrite elem_of_list_to_set. intros Hk'. by apply (Hdisj k).
Qed.

(** X5: when the invocation ids of the transcript are pairwise distinct,
    no duplicate is counted: [droppedDuplicateCount] is 0. *)
Theorem no_duplicate_counted_for_distinct_ids h msgs :
  NoDup (invocationIds msgs) →
  droppedDuplicateCount (repairToolUseResultPairing h msgs) = 0.
Proof.
  intros Hnd. unfold repairToolUseResultPairing. cbn [droppedDuplicateCount].
  change (repairRun h msgs) with (repairFrom h repairInit msgs).
  rewrite repairFrom_no_duplicates; [done|done|]. intros k _. set_solver.
Qed.

Lemma no_duplicate_counted_for_distinct_ids_witness :
  droppedDuplicateCount
    (repairToolUseResultPairing host0
       [mkAssistant [mkToolCall "a" "t"]; mkToolResult "a" "t" "first";
        mkToolResult "a" "t" "second"; mkUser "next";
        mkAssistant [mkToolCall "b" "t"]; mkToolResult "a" "t" "late"]) = 0.
Proof.
  apply no_duplicate_counted_for_distinct_ids.
  change (NoDup ["a"; "b"]). apply NoDup_cons. split; [set_solver|apply NoDup_singleton].
Defined.

(** ** Every tool result answers an earlier assistant message *)

Lemma answered_nil : answered [].
Proof. intros [|] ? ? ?; done. Qed.

Lemma answered_app o1 o2 : answered o1 → answered o2 → answered (o1 ++ o2).
Proof.
  intros H1 H2 l1 x l2 Heq Hx.
  apply app_eq_cons_split in Heq as [(l2' & -> & ->)|(l1' & -> & ->)].
  - by apply (H1 l1 x l2').
  - destruct (H2 l1' x l2 eq_refl Hx) as (a & c & Ha & ?). exists a, c. set_solver.
Qed.

Lemma answered_other m : isToolResult m = false → answered [m].
Proof.
  intros Hm [|y l1] x l2 Heq Hx; simpl in Heq.
  - injection Heq as <- _. congruence.
  - injection Heq as _ Heq. by destruct l1.
Qed.

Lemma answered_turn m ids seen res rem :
  isAssistant m = true → ids = callIds (extractToolCallsFromAssistant m) →
  emittedOk ids seen res → Forall (λ x, isToolResult x = false) rem →
  answered (m :: res ++ rem).
Proof.
  intros Ha -> [Hres _] Hrem [|y l1] x l2 Heq Hx; simpl in Heq; injection Heq as <- Heq.
  - apply isAssistant_not_toolResult in Ha. congruence.
  - assert (x ∈ res ++ rem) as Hin by (rewrite Heq; set_solver).
    apply elem_of_app in Hin as [Hin|Hin].
    + rewrite Forall_forall in Hres. destruct (Hres x Hin) as (_ & k & Hk & Hids & _).
      unfold callIds in Hids. rewrite elem_of_list_to_set in Hids.
      apply list_elem_of_fmap in Hids as (c & -> & Hc).
      exists m, c. split_and!; [by left|done|done|done].
    + rewrite Forall_forall in Hrem. apply Hrem in Hin. congruence.
Qed.

Lemma repair_answered h msgs st :
  ∃ o, r_out (repairFrom h st msgs) = r_out st ++ o ∧ answered o.
Proof.
  remember (length msgs) as n eqn:Hn. revert msgs st Hn.
  induction n as [n IH] using lt_wf_ind. intros [|m rest] st Hn.
  { exists []. rewrite repairFrom_nil, app_nil_r. split; [done|apply answered_nil]. }
  simpl in Hn. rewrite repairFrom_cons. destruct (iteration m) as [| |calls] eqn:Hit.
  - destruct (IH (length rest) ltac:(lia) rest (pushOut m st) eq_refl) as (o & -> & Ho).
    exists (m :: o). simpl. rewrite <- app_assoc. split; [done|].
    apply (answered_app [m] o); [|done]. by apply answered_other, iteration_Pass.
  - destruct (IH (length rest) ltac:(lia) rest (dropOrphan st) eq_refl) as (o & -> & Ho).
    by exists o.
  - cbn zeta. apply iteration_Turn in Hit as (Ha & _ & <- & _).
    set (calls := extractToolCallsFromAssistant m).
    destruct (finishTurn_out h m calls st rest) as (res & Hout & Hres & _).
    { apply extractToolCalls_ids_nonempty. }
    set (sc := scanSpan (callIds calls) st ∅ [] rest) in *.
    destruct (IH (length (sp_rest sc))) with (msgs := sp_rest sc)
      (st := finishTurn h m calls sc) as (o & Ho & Hans); [|done|].
    { unfold sc. rewrite scanSpan_rest, length_drop. lia. }
    exists ((m :: res ++ List.filter notToolResult (spanPrefix rest)) ++ o).
    rewrite Ho, Hout. split; [by rewrite <- !app_assoc|].
    apply answered_app; [|done].
    eapply answered_turn; [done|done|done|apply filter_notToolResult].
Qed.

Lemma orphan_count_mono h msgs st :
  r_droppedOrphanCount st ≤ r_droppedOrphanCount (repairFrom h st msgs).
Proof.
  apply (repairFrom_inv h (λ s, r_droppedOrphanCount st ≤ r_droppedOrphanCount s));
    simpl; intros; lia.
Qed.

Lemma scanSpan_orphan_mono ids st sp rem rest :
  r_droppedOrphanCount st ≤ r_droppedOrphanCount (sp_state (scanSpan ids st sp rem rest)).
Proof.
  apply (scanSpan_inv (λ s, r_droppedOrphanCount st ≤ r_droppedOrphanCount s));
    simpl; intros; lia.
Qed.

(** A look-ahead that counts no orphan saw only tool results with an id
    of its turn. *)
Lemma scanSpan_no_orphan ids st sp rem rest :
  r_droppedOrphanCount (sp_state (scanSpan ids st sp rem rest)) = r_droppedOrphanCount st →
  Forall (λ x, isToolResult x = true → ∃ k, extractToolResultId x = Some k ∧ k ∈ ids)
         (spanPrefix rest).
Proof.
  revert st sp rem. induction rest as [|m rest IH]; intros st sp rem Heq; [constructor|].
  rewrite scanSpan_cons in Heq. cbn [spanPrefix].
  destruct (isAssistant m) eqn:Ha; [constructor|].
  assert (∀ sp' rem', r_droppedOrphanCount (sp_state (scanSpan ids (dropOrphan st) sp' rem' rest))
                      ≠ r_droppedOrphanCount st) as Hdrop.
  { intros sp' rem'. pose proof (scanSpan_orphan_mono ids (dropOrphan st) sp' rem' rest) as H.
    simpl in H. lia. }
  destruct (isToolResult m) eqn:Htr.
  2: { constructor; [intros ?; congruence|]. by eapply IH. }
  destruct (extractToolResultId m) as [id|] eqn:Hid; [|by apply Hdrop in Heq].
  destruct (bool_decide (id ∈ ids)) eqn:Hin; [|by apply Hdrop in Heq].
  apply bool_decide_eq_true in Hin.
  constructor; [intros _; eauto|].
  destruct (bool_decide (id ∈ r_seenToolResultIds st)); [|by eapply IH].
  apply (IH (dropDuplicate st) sp rem Heq).
Qed.

Lemma finishTurn_orphans h msg calls sc :
  r_droppedOrphanCount (finishTurn h msg calls sc) = r_droppedOrphanCount (sp_state sc).
Proof.
  unfold finishTurn.
  assert (∀ rem st, r_droppedOrphanCount (foldl (λ st rem, pushOut rem st) st rem) =
                    r_droppedOrphanCount st) as Hrem.
  { induction rem as [|m rem IH]; intros st; [done|]. simpl. by rewrite IH. }
  rewrite Hrem.
  assert (∀ cs st, r_droppedOrphanCount (foldl (emitCall h (sp_results sc)) st cs) =
                   r_droppedOrphanCount st) as Hemit.
  { induction cs as [|c cs IH]; intros st; [done|]. simpl. rewrite IH.
    unfold emitCall, pushToolResult. repeat case_match; done. }
  rewrite Hemit. by case_match.
Qed.

(** A run that counts no orphan ran over a transcript in which every
    tool result answers an earlier assistant message. *)
Lemma no_orphan_answered h msgs st :
  r_droppedOrphanCount (repairFrom h st msgs) = r_droppedOrphanCount st → answered msgs.
Proof.
  remember (length msgs) as n eqn:Hn. revert msgs st Hn.
  induction n as [n IH] using lt_wf_ind. intros [|m rest] st Hn Heq; [apply answered_nil|].
  simpl in Hn. rewrite repairFrom_cons in Heq.
  destruct (iteration m) as [| |calls] eqn:Hit.
  - apply (answered_app [m] rest); [by apply answered_other, iteration_Pass|].
    by apply (IH (length rest) ltac:(lia) rest (pushOut m st)).
  - pose proof (orphan_count_mono h rest (dropOrphan st)) as H. simpl in H. lia.
  - cbn zeta in Heq. apply iteration_Turn in Hit as (Ha & _ & <- & _).
    set (calls := extractToolCallsFromAssistant m) in *.
    set (sc := scanSpan (callIds calls) st ∅ [] rest) in *.
    pose proof (orphan_count_mono h (sp_rest sc) (finishTurn h m calls sc)) as H1.
    pose proof (scanSpan_orphan_mono (callIds calls) st ∅ [] rest) as H2. fold sc in H2.
    rewrite finishTurn_orphans in H1.
    assert (answered (sp_rest sc)) as Hrest.
    { apply (IH (length (sp_rest sc))) with (st := finishTurn h m calls sc); [|done|].
      - unfold sc. rewrite scanSpan_rest, length_drop. lia.
      - rewrite finishTurn_orphans. lia. }
    assert (Forall (λ x, isToolResult x = true →
                         ∃ k, extractToolResultId x = Some k ∧ k ∈ callIds calls)
                   (spanPrefix rest)) as Hspan.
    { apply (scanSpan_no_orphan _ st ∅ []). fold sc. lia. }
    rewrite <- (spanPrefix_drop rest). unfold sc in Hrest. rewrite scanSpan_rest in Hrest.
    apply (answered_app (m :: spanPrefix rest)); [|done].
    intros [|y l1] x l2 Heq' Hx; simpl in Heq'; injection Heq' as <- Heq'.
    { apply isAssistant_not_toolResult in Ha. congruence. }
    assert (x ∈ spanPrefix rest) as Hin by (rewrite Heq'; set_solver).
    rewrite Forall_forall in Hspan. destruct (Hspan x Hin Hx) as (k & Hk & Hids).
    unfold callIds in Hids. rewrite elem_of_list_to_set in Hids.
    apply list_elem_of_fmap in Hids as (c & -> & Hc).
    exists m, c. split_and!; [by left|done|done|done].
Qed.

Lemma repaired_answered h msgs : answered (sanitizeToolUseResultPairing h msgs).
Proof.
  unfold sanitizeToolUseResultPairing, repairToolUseResultPairing. cbn [messages].
  destruct (r_changed (repairRun h msgs) || r_moved (repairRun h msgs)) eqn:Hch; cbn [deref].
  - destruct (repair_answered h msgs repairInit) as (o & Ho & Hans).
    change (repairFrom h repairInit msgs) with (repairRun h msgs) in Ho. by rewrite Ho.
  - apply (no_orphan_answered h msgs repairInit).
    change (repairFrom h repairInit msgs) with (repairRun h msgs).
    apply orb_false_iff in Hch as [Hc _].
    pose proof (changeRecorded_run h msgs) as [_ H]. simpl.
    destruct (r_droppedOrphanCount (repairRun h msgs)); [done|].
    rewrite H in Hc; [done|]. right; right; right. lia.
Qed.

(** X6: in the transcript the repairer returns, every tool result comes
    after an assistant message that invokes its correlation id; no
    free-floating tool result is left. *)
Theorem repaired_results_answer_invocations h msgs :
  answered (sanitizeToolUseResultPairing h msgs).
Proof. apply repaired_answered. Qed.

(** ** The repairer followed by the textifier *)

Lemma lookupField_updateField_ne k k' x fields :
  k ≠ k' → lookupField k (updateField k' x fields) = lookupField k fields.
Proof.
  intros Hne. induction fields as [|[k0 v] fields IH]; simpl.
  - by rewrite (proj2 (String.eqb_neq k k')).
  - destruct (String.eqb k' k0) eqn:E; simpl.
    + apply String.eqb_eq in E as <-. by rewrite (proj2 (String.eqb_neq k k')).
    + by rewrite IH.
Qed.

(** The spread keeps the role of an object message. *)
Lemma role_withField_content x msg :
  strictEqStr (role msg) "assistant" = true →
  role (withField "content" x msg) = role msg.
Proof.
  unfold role. destruct msg; try done. intros _. simpl.
  by rewrite lookupField_updateField_ne.
Qed.

Lemma index_fold_mono idx0 msgs id :
  is_Some (idx0 !! id) →
  is_Some (foldl (λ (toolResultById : gmap string value) msg,
             if isObject msg && strictEqStr (role msg) "toolResult" then
               match extractToolResultId msg with
               | Some id =>
                   match toolResultById !! id with
                   | Some _ => toolResultById
                   | None => <[ id := msg ]> toolResultById
                   end
               | None => toolResultById
               end
             else toolResultById) idx0 msgs !! id).
Proof.
  revert idx0. induction msgs as [|m msgs IH]; intros idx0 H; simpl; [done|].
  apply IH. repeat case_match; try done.
  destruct (decide (id = s)) as [->|Hne]; [by rewrite lookup_insert_eq|].
  by rewrite lookup_insert_ne.
Qed.

(** The index finds a result for the id of every tool result of the
    transcript. *)
Lemma index_has msgs x id :
  x ∈ msgs → isToolResult x = true → extractToolResultId x = Some id →
  is_Some (indexToolResults msgs !! id).
Proof.
  unfold indexToolResults. generalize (∅ : gmap string value).
  induction msgs as [|m msgs IH]; intros idx0 Hin Htr Hid; [by apply elem_of_nil in Hin|].
  apply elem_of_cons in Hin as [<-|Hin]; [|by apply IH].
  simpl. apply index_fold_mono. unfold isToolResult in Htr. rewrite Htr, Hid.
  destruct (idx0 !! id) eqn:E; [by rewrite E|by rewrite lookup_insert_eq].
Qed.

Lemma collected_call_block content acc c :
  c ∈ foldl collectToolCall acc content →
  c ∈ acc ∨ ∃ b, b ∈ content ∧ isTextifiedBlock b = true
                 ∧ idString (getField "id" b) = tc_id c.
Proof.
  revert acc. induction content as [|b bs IH]; intros acc Hc; simpl in Hc; [by left|].
  apply IH in Hc as [Hc|(b' & ? & ? & ?)]; [|right; exists b'; set_solver].
  unfold collectToolCall in Hc.
  destruct (isObject b) eqn:Hobj; cbn [negb] in Hc; [|by left].
  destruct (getField "id" b) as [| | | |s| |] eqn:Hid; cbn [nonEmptyString] in Hc; try by left.
  destruct (String.eqb s ""); [by left|].
  destruct (getField "type" b) as [| | | |t| |] eqn:Ht; cbn [strictEqStr orb] in Hc; try by left.
  destruct (String.eqb t "toolCall" || String.eqb t "toolUse" || String.eqb t "functionCall")
    eqn:Hty; [|by left].
  apply elem_of_app in Hc as [Hc|Hc]; [by left|]. apply list_elem_of_singleton in Hc as ->.
  right. exists b. split; [by left|]. split; [|by rewrite Hid].
  unfold isTextifiedBlock, isToolCallBlock. rewrite Hobj, Ht, Hid. cbn [isString andb].
  rewrite andb_true_r. apply bool_decide_eq_true. unfold TOOL_CALL_TYPES.
  rewrite !orb_true_iff, !String.eqb_eq in Hty. set_solver.
Qed.

(** Every tool call the repairer reads off an assistant message sits in
    a block that the textifier rewrites. *)
Lemma call_in_textified a c :
  c ∈ extractToolCallsFromAssistant a →
  ∃ content b, getField "content" a = VArr content
               ∧ b ∈ List.filter isTextifiedBlock content
               ∧ idString (getField "id" b) = tc_id c.
Proof.
  unfold extractToolCallsFromAssistant.
  destruct (getField "content" a) as [| | | | |content|]; try by intros ?%elem_of_nil.
  intros [Hc|(b & Hb & Ht & Hid)]%collected_call_block; [by apply elem_of_nil in Hc|].
  exists content, b. split; [done|]. split; [|done].
  apply list_elem_of_In, filter_In. split; [by apply list_elem_of_In|done].
Qed.

Lemma textifyCalls_consumed h idx tcs acc b :
  b ∈ tcs → is_Some (idx !! idString (getField "id" b)) →
  idString (getField "id" b) ∈ a_consumed (foldl (textifyCall h idx) acc tcs).
Proof.
  revert acc. induction tcs as [|tc tcs IH]; intros acc Hb [r Hr]; [by apply elem_of_nil in Hb|].
  simpl. apply elem_of_cons in Hb as [<-|Hb]; [|by apply IH].
  destruct (textifyCalls_fold h idx tcs (textifyCall h idx acc b)) as [Hsub _].
  apply Hsub. unfold textifyCall. rewrite Hr. simpl. set_solver.
Qed.

Lemma textifyStep_consumed h idx pre st m :
  consumedUpTo idx pre (t_consumedToolResultIds st) →
  consumedUpTo idx (pre ++ [m]) (t_consumedToolResultIds (textifyStep h idx st m)).
Proof.
  intros Hpre a c Ha Hasst Hc Hidx. apply elem_of_app in Ha as [Ha|Ha].
  - specialize (Hpre a c Ha Hasst Hc Hidx).
    destruct (textifyStep_cases h idx st m)
      as [[-> _]|[[-> _]|(cont & acc & _ & _ & _ & Hacc & ->)]]; simpl; try done.
    destruct (textifyCalls_fold h idx (List.filter isTextifiedBlock cont)
                {| a_textParts := []; a_resultMessages := [];
                   a_consumed := t_consumedToolResultIds st;
                   a_dateNowCalls := t_dateNowCalls st |}) as [Hsub _].
    rewrite <- Hacc in Hsub. by apply Hsub.
  - apply list_elem_of_singleton in Ha as ->.
    destruct (call_in_textified m c Hc) as (content & b & Hcont & Hb & Hid).
    destruct (textifyStep_cases h idx st m)
      as [[_ Hno]|[(_ & Htr & _)|(cont & acc & _ & Hcont' & _ & Hacc & ->)]].
    + exfalso. unfold hasTextifiedBlock in Hno. rewrite Hcont, Hasst in Hno.
      cbn [andb] in Hno. apply filter_nil_existsb in Hno.
      rewrite Hno in Hb. by apply elem_of_nil in Hb.
    + apply isAssistant_not_toolResult in Hasst. congruence.
    + simpl. rewrite Hcont in Hcont'. injection Hcont' as <-. rewrite Hacc, <- Hid.
      apply textifyCalls_consumed; [done|]. by rewrite Hid.
Qed.

(** A tool result whose id is consumed is skipped. *)
Lemma textifyStep_skip h idx st x id :
  isToolResult x = true → extractToolResultId x = Some id →
  id ∈ t_consumedToolResultIds st → textifyStep h idx st x = t_skip st.
Proof.
  unfold isToolResult, textifyStep. intros [-> ->]%andb_true_iff -> Hin. cbn [negb].
  by rewrite bool_decide_eq_true_2.
Qed.

Lemma textify_fold_no_results h msgs :
  answered msgs → ∀ rest pre st,
  msgs = pre ++ rest →
  consumedUpTo (indexToolResults msgs) pre (t_consumedToolResultIds st) →
  Forall (λ m, isToolResult m = false) (t_out st) →
  Forall (λ m, isToolResult m = false)
         (t_out (foldl (textifyStep h (indexToolResults msgs)) st rest)).
Proof.
  intros Hans. induction rest as [|m rest IH]; intros pre st Hmsgs Hcons Hout; [done|].
  simpl. apply (IH (pre ++ [m])).
  { by rewrite <- app_assoc. }
  { by apply textifyStep_consumed. }
  destruct (isToolResult m) eqn:Htr.
  - destruct (Hans pre m rest Hmsgs Htr) as (a & c & Ha & Hasst & Hc & Hid).
    rewrite (textifyStep_skip h _ st m (tc_id c)); [done|done|done|].
    apply (Hcons a c Ha Hasst Hc). apply (index_has msgs m); [|done|done].
    rewrite Hmsgs. set_solver.
  - destruct (textifyStep_cases h (indexToolResults msgs) st m)
      as [[-> _]|[(_ & Htr' & _)|(cont & acc & Hhas & _ & _ & Hacc & ->)]]; simpl.
    + apply Forall_app. split; [done|by constructor].
    + congruence.
    + rewrite !Forall_app. split; [split; [done|]|].
      * constructor; [|done]. unfold hasTextifiedBlock in Hhas.
        apply andb_true_iff in Hhas as [Hasst _].
        unfold isAssistant in Hasst. apply andb_true_iff in Hasst as [_ Hrole].
        unfold isToolResult. rewrite role_withField_content by done.
        rewrite (strictEqStr_excl _ "assistant" "toolResult") by done.
        by rewrite andb_false_r.
      * apply Forall_forall. intros x Hx.
        destruct (textifyCalls_fold h (indexToolResults msgs) (List.filter isTextifiedBlock cont)
                    {| a_textParts := []; a_resultMessages := [];
                       a_consumed := t_consumedToolResultIds st;
                       a_dateNowCalls := t_dateNowCalls st |}) as [_ Hres].
        rewrite <- Hacc in Hres. destruct (Hres x Hx) as [Hin|Hu]; [by apply elem_of_nil in Hin|].
        unfold isToolResult. rewrite (strictEqStr_excl _ "user" "toolResult") by done.
        by rewrite andb_false_r.
Qed.

(** On a transcript in which every tool result answers an earlier
    assistant message, the textifier leaves no tool-result message. *)
Lemma textified_no_results h msgs :
  answered msgs →
  Forall (λ m, isToolResult m = false) (deref msgs (textifyToolCallRounds h msgs)).
Proof.
  intros Hans.
  assert (Forall (λ m, isToolResult m = false) (t_out (textifyRun h msgs))) as Hout.
  { apply (textify_fold_no_results h msgs Hans msgs [] textifyInit); [done| |constructor].
    intros a c Ha. by apply elem_of_nil in Ha. }
  unfold textifyToolCallRounds. destruct (t_changed (textifyRun h msgs)) eqn:Hch; [done|].
  simpl. unfold textifyRun in *. by rewrite textify_fold_unchanged in Hout.
Qed.

(** X7: after the repairer, the textifier leaves no tool-result message
    in the transcript: every result the repairer kept or inserted is
    consumed by the assistant turn it answers. *)
Theorem repaired_then_textified_has_no_results h1 h2 msgs :
  let repaired := sanitizeToolUseResultPairing h1 msgs in
  Forall (λ m, isToolResult m = false) (deref repaired (textifyToolCallRounds h2 repaired)).
Proof. cbn zeta. apply textified_no_results, repaired_answered. Qed.

(** X8: when the invocation ids of the transcript are pairwise distinct,
    a newly built transcript satisfies the pairing invariant: every
    assistant turn with tool calls is followed directly by one result
    per call, in call order, and by no further tool result. *)
Theorem rebuilt_transcript_paired h msgs :
  NoDup (invocationIds msgs) →
  match messages (repairToolUseResultPairing h msgs) with
  | Fresh out => paired out
  | InputRef => True
  end.
Proof.
  intros Hnd. unfold repairToolUseResultPairing. cbn [messages].
  destruct (_ || _); [|done].
  destruct (repair_paired h msgs repairInit Hnd) as (o & Ho & Hp & _).
  { intros k _. set_solver. }
  change (repairFrom h repairInit msgs) with (repairRun h msgs) in Ho. by rewrite Ho.
Qed.

Lemma rebuilt_transcript_paired_witness :
  match messages
          (repairToolUseResultPairing host0
             [mkAssistant [mkToolCall "a" "t"; mkToolCall "b" "t"]; mkUser "next";
              mkToolResult "b" "t" "late"]) with
  | Fresh out => paired out
  | InputRef => True
  end.
Proof.
  apply rebuilt_transcript_paired.
  change (NoDup ["a"; "b"]). apply NoDup_cons. split; [set_solver|apply NoDup_singleton].
Defined.

(** ** Accounting of the tool-call input sanitizer *)

Lemma filter_length_split {A} (f : A → bool) l :
  length (List.filter f l) + length (List.filter (λ x, negb (f x)) l) = length l.
Proof. induction l as [|x l IH]; simpl; [done|]. destruct (f x); simpl; lia. Qed.

Lemma dropped_in_message content :
  length content - length (List.filter keepBlock content) =
  length (List.filter (λ b, isToolCallBlock b && negb (hasToolCallInput b)) content).
Proof.
  rewrite <- (filter_length_split (λ b, isToolCallBlock b && negb (hasToolCallInput b)) content)
    at 1.
  change (List.filter (λ x, negb (isToolCallBlock x && negb (hasToolCallInput x))) content)
    with (List.filter keepBlock content). lia.
Qed.

(** One step of the sanitizer, by what it counts. *)
Lemma sanitizeStep_counts st msg :
  let st' := sanitizeStep st msg in
  s_droppedToolCalls st' = s_droppedToolCalls st + inputlessCalls msg
  ∧ length (s_out st') + s_droppedAssistantMessages st' =
      S (length (s_out st) + s_droppedAssistantMessages st)
  ∧ s_droppedAssistantMessages st' ≤ s_droppedAssistantMessages st + inputlessCalls msg
  ∧ s_changed st' = s_changed st || (0 <? inputlessCalls msg).
Proof.
  cbn zeta. unfold sanitizeStep, inputlessCalls, isAssistant.
  assert (∀ x, length (s_out st ++ [x]) = S (length (s_out st))) as Hlen.
  { intros x. rewrite length_app. simpl. lia. }
  destruct (isObject msg); cbn [negb andb].
  2: { simpl. rewrite Hlen, orb_false_r. split_and!; try done; lia. }
  destruct (strictEqStr (role msg) "assistant").
  2: { simpl. rewrite Hlen, orb_false_r. split_and!; try done; lia. }
  destruct (getField "content" msg) as [| | | | |content|];
    try (simpl; rewrite Hlen, orb_false_r; split_and!; try done; lia).
  rewrite sanitizeBlocks_spec, dropped_in_message.
  destruct (0 <? _) eqn:Hd.
  - apply Nat.ltb_lt in Hd. destruct (List.filter keepBlock content);
      simpl; rewrite ?Hlen, orb_true_r; split_and!; try done; lia.
  - apply Nat.ltb_ge in Hd. simpl. rewrite Hlen, orb_false_r. split_and!; try done; lia.
Qed.

Lemma sanitize_fold_counts msgs st :
  let st' := foldl sanitizeStep st msgs in
  s_droppedToolCalls st' = s_droppedToolCalls st + sum_list (inputlessCalls <$> msgs)
  ∧ length (s_out st') + s_droppedAssistantMessages st' =
      length (s_out st) + s_droppedAssistantMessages st + length msgs
  ∧ s_droppedAssistantMessages st' ≤
      s_droppedAssistantMessages st + sum_list (inputlessCalls <$> msgs)
  ∧ s_changed st' = s_changed st || (0 <? sum_list (inputlessCalls <$> msgs)).
Proof.
  cbn zeta. revert st. induction msgs as [|m msgs IH]; intros st.
  { simpl. rewrite orb_false_r. split_and!; try done; lia. }
  cbn [foldl fmap list_fmap sum_list]. destruct (IH (sanitizeStep st m)) as (H1 & H2 & H3 & H4).
  destruct (sanitizeStep_counts st m) as (S1 & S2 & S3 & S4).
  rewrite H1, H2, H4, S1, S4. split_and!; try (simpl; lia).
  rewrite <- orb_assoc. f_equal.
  destruct (inputlessCalls m), (sum_list (inputlessCalls <$> msgs)); done.
Qed.

(** X9: the sanitizer's [droppedToolCalls] is the number of tool-call
    blocks without an arguments payload in the assistant messages of the
    input. *)
Theorem dropped_tool_calls_exact msgs :
  ir_droppedToolCalls (repairToolCallInputs msgs) = sum_list (inputlessCalls <$> msgs).
Proof.
  unfold repairToolCallInputs, sanitizeRun. cbn [ir_droppedToolCalls].
  by destruct (sanitize_fold_counts msgs sanitizeInit) as (-> & _).
Qed.

(** X10: the sanitizer drops whole messages only: the returned
    transcript and [droppedAssistantMessages] add up to the length of
    the input, and no more messages are dropped than tool calls. *)
Theorem sanitizer_length_accounting msgs :
  let r := repairToolCallInputs msgs in
  length (sanitizeToolCallInputs msgs) + ir_droppedAssistantMessages r = length msgs
  ∧ ir_droppedAssistantMessages r ≤ ir_droppedToolCalls r.
Proof.
  cbn zeta. unfold sanitizeToolCallInputs, repairToolCallInputs, sanitizeRun.
  cbn [ir_messages ir_droppedAssistantMessages ir_droppedToolCalls].
  destruct (sanitize_fold_counts msgs sanitizeInit) as (H1 & H2 & H3 & H4).
  simpl in H1, H2, H3, H4. split; [|lia].
  destruct (s_changed _) eqn:Hch; cbn [deref]; [lia|].
  symmetry in H4. apply Nat.ltb_ge in H4. lia.
Qed.

(** X11: the sanitizer returns the input array exactly when it dropped
    no tool call. *)
Theorem sanitizer_input_reference_iff msgs :
  ir_messages (repairToolCallInputs msgs) = InputRef ↔
  ir_droppedToolCalls (repairToolCallInputs msgs) = 0.
Proof.
  unfold repairToolCallInputs, sanitizeRun. cbn [ir_messages ir_droppedToolCalls].
  destruct (sanitize_fold_counts msgs sanitizeInit) as (H1 & _ & _ & H4).
  simpl in H1, H4. rewrite H1, H4.
  destruct (sum_list (inputlessCalls <$> msgs)); simpl; split; done.
Qed.

Lemma isAssistant_withField_content x msg :
  isAssistant msg = true → isAssistant (withField "content" x msg) = true.
Proof.
  unfold isAssistant. intros [Hobj Hrole]%andb_true_iff.
  rewrite role_withField_content, Hrole by done. by destruct msg.
Qed.

Lemma sanitize_fold_others msgs st :
  List.filter (λ m, negb (isAssistant m)) (s_out (foldl sanitizeStep st msgs)) =
  List.filter (λ m, negb (isAssistant m)) (s_out st)
    ++ List.filter (λ m, negb (isAssistant m)) msgs.
Proof.
  revert st. induction msgs as [|m msgs IH]; intros st; simpl; [by rewrite app_nil_r|].
  rewrite IH. clear IH.
  assert (∀ x, List.filter (λ m, negb (isAssistant m)) (s_out st ++ [x]) =
               List.filter (λ m, negb (isAssistant m)) (s_out st)
                 ++ (if negb (isAssistant x) then [x] else [])) as Hpush.
  { intros x. rewrite List.filter_app. simpl. by destruct (isAssistant x). }
  destruct (isAssistant m) eqn:Ha; cbn [negb].
  - f_equal. unfold sanitizeStep. pose proof Ha as Ha'. unfold isAssistant in Ha'.
    apply andb_true_iff in Ha' as [-> ->]. cbn [negb].
    destruct (getField "content" m) as [| | | | |content|];
      try (simpl; by rewrite Hpush, Ha, app_nil_r).
    rewrite sanitizeBlocks_spec. destruct (0 <? _); [|simpl; by rewrite Hpush, Ha, app_nil_r].
    destruct (List.filter keepBlock content); [done|]. simpl.
    by rewrite Hpush, isAssistant_withField_content, app_nil_r.
  - assert (sanitizeStep st m =
            {| s_out := s_out st ++ [m]; s_droppedToolCalls := s_droppedToolCalls st;
               s_droppedAssistantMessages := s_droppedAssistantMessages st;
               s_changed := s_changed st |}) as ->.
    { unfold sanitizeStep. unfold isAssistant in Ha.
      destruct (isObject m); cbn [negb andb] in *; [|done]. by rewrite Ha. }
    simpl. rewrite Hpush, Ha. simpl. by rewrite <- app_assoc.
Qed.

(** X12: the sanitizer touches assistant messages only: the other
    messages of the returned transcript are those of the input, in
    order. *)
Theorem sanitizer_keeps_other_messages msgs :
  List.filter (λ m, negb (isAssistant m)) (sanitizeToolCallInputs msgs) =
  List.filter (λ m, negb (isAssistant m)) msgs.
Proof.
  unfold sanitizeToolCallInputs, repairToolCallInputs. cbn [ir_messages].
  destruct (s_changed (sanitizeRun msgs)); cbn [deref]; [|done].
  unfold sanitizeRun. by rewrite sanitize_fold_others.
Qed.

(** ** Further properties of the textifier *)

Lemma textify_fold_blocks h idx msgs st :
  t_changed (foldl (textifyStep h idx) st msgs) = false →
  Forall (λ m, hasTextifiedBlock m = false) msgs.
Proof.
  revert st. induction msgs as [|m msgs IH]; intros st Hch; [constructor|].
  simpl in Hch.
  destruct (textifyStep_cases h idx st m) as [[Heq Hm]|[[Heq _]|(c & a & _ & _ & _ & _ & Heq)]].
  - constructor; [done|]. by eapply IH.
  - rewrite Heq, textify_fold_changed in Hch; done.
  - rewrite Heq, textify_fold_changed in Hch; done.
Qed.

(** X13: the textifier returns the input array exactly when no assistant
    message of the input has a tool-call block with a string id. *)
Theorem textifier_input_reference_iff h msgs :
  textifyToolCallRounds h msgs = InputRef ↔ Forall (λ m, hasTextifiedBlock m = false) msgs.
Proof.
  split; [|apply textify_clean_ref].
  unfold textifyToolCallRounds, textifyRun.
  destruct (t_changed _) eqn:Hch; [done|]. intros _. by eapply textify_fold_blocks.
Qed.

(** X14: the transcript the textifier returns has no tool-call block
    with a string id left in any assistant message. *)
Theorem textified_has_no_tool_call_block h msgs :
  Forall (λ m, hasTextifiedBlock m = false) (deref msgs (textifyToolCallRounds h msgs)).
Proof.
  unfold textifyToolCallRounds, textifyRun.
  destruct (t_changed _) eqn:Hch; cbn [deref].
  - apply textify_fold_clean. constructor.
  - by eapply textify_fold_blocks.
Qed.

Lemma passedOn_user m : strictEqStr (role m) "user" = true → isAssistant m = false.
Proof.
  intros Hu. unfold isAssistant. rewrite (strictEqStr_excl _ "user" "assistant") by done.
  by rewrite andb_false_r.
Qed.

Lemma textifyCalls_users h idx tcs acc :
  Forall (λ m, strictEqStr (role m) "user" = true) (a_resultMessages acc) →
  Forall (λ m, strictEqStr (role m) "user" = true)
         (a_resultMessages (foldl (textifyCall h idx) acc tcs)).
Proof.
  intros Hacc. apply Forall_forall. intros m Hm.
  destruct (textifyCalls_fold h idx tcs acc) as [_ Hres].
  destruct (Hres m Hm) as [Hin|Hu]; [|done]. rewrite Forall_forall in Hacc. by apply Hacc.
Qed.

Lemma filter_assistant_users l :
  Forall (λ m, strictEqStr (role m) "user" = true) l → List.filter isAssistant l = [].
Proof.
  induction 1 as [|m l Hm _ IH]; simpl; [done|]. by rewrite passedOn_user.
Qed.

Lemma textify_fold_assistants h idx msgs st :
  length (List.filter isAssistant (t_out (foldl (textifyStep h idx) st msgs))) =
  length (List.filter isAssistant (t_out st)) + length (List.filter isAssistant msgs).
Proof.
  revert st. induction msgs as [|m msgs IH]; intros st; simpl; [lia|].
  rewrite IH. clear IH.
  destruct (textifyStep_cases h idx st m)
    as [[-> _]|[(-> & Htr & _)|(c & a & Hhas & _ & _ & Hacc & ->)]]; simpl.
  - rewrite List.filter_app, length_app. simpl. destruct (isAssistant m); simpl; lia.
  - rewrite (isToolResult_not_assistant m) by done. lia.
  - unfold hasTextifiedBlock in Hhas. apply andb_true_iff in Hhas as [Ha _]. rewrite Ha.
    rewrite !List.filter_app, !length_app. simpl.
    rewrite isAssistant_withField_content by done.
    rewrite (filter_assistant_users (a_resultMessages a)); [simpl; lia|].
    rewrite Hacc. apply textifyCalls_users. constructor.
Qed.

(** X15: the textifier neither drops nor adds an assistant message. *)
Theorem textifier_keeps_assistant_count h msgs :
  length (List.filter isAssistant (deref msgs (textifyToolCallRounds h msgs))) =
  length (List.filter isAssistant msgs).
Proof.
  unfold textifyToolCallRounds, textifyRun.
  destruct (t_changed _); cbn [deref]; [|done]. by rewrite textify_fold_assistants.
Qed.

Lemma textify_fold_passed h idx msgs st :
  ∃ e, t_out (foldl (textifyStep h idx) st msgs) = t_out st ++ e
       ∧ List.filter passedOn msgs `sublist_of` e.
Proof.
  revert st. induction msgs as [|m msgs IH]; intros st; simpl.
  { exists []. by rewrite app_nil_r. }
  destruct (IH (textifyStep h idx st m)) as (e & -> & Hsub).
  destruct (textifyStep_cases h idx st m)
    as [[-> _]|[(-> & Htr & _)|(c & a & Hhas & _ & _ & _ & ->)]]; simpl.
  - exists (m :: e). rewrite <- app_assoc. split; [done|].
    destruct (passedOn m); [by apply sublist_skip | by apply sublist_cons].
  - exists e. split; [done|]. unfold passedOn. by rewrite Htr.
  - eexists. rewrite <- !app_assoc. split; [done|].
    unfold passedOn at 1. rewrite Hhas, andb_false_r.
    apply sublist_inserts_l, sublist_inserts_l. done.
Qed.

(** X16: the textifier passes on, in order, every message that is
    neither a tool result nor an assistant message with a block to
    textify. *)
Theorem textifier_passes_on_other_messages h msgs :
  List.filter passedOn msgs `sublist_of` deref msgs (textifyToolCallRounds h msgs).
Proof.
  unfold textifyToolCallRounds, textifyRun.
  destruct (t_changed _); cbn [deref].
  - destruct (textify_fold_passed h (indexToolResults msgs) msgs textifyInit) as (e & -> & Hsub).
    done.
  - induction msgs as [|m msgs IH]; simpl; [done|].
    destruct (passedOn m); [by apply sublist_skip | by apply sublist_cons].
Qed.

(** ** The helpers *)

Lemma tool_call_type_agrees t :
  strictEqStr t "toolCall" || strictEqStr t "toolUse" || strictEqStr t "functionCall" =
  match t with VStr type => bool_decide (type ∈ TOOL_CALL_TYPES) | _ => false end.
Proof.
  destruct t as [| | | |s| |]; try done. cbn [strictEqStr]. unfold TOOL_CALL_TYPES.
  destruct (String.eqb s "toolCall") eqn:E1.
  { apply String.eqb_eq in E1 as ->. symmetry. apply bool_decide_eq_true. set_solver. }
  destruct (String.eqb s "toolUse") eqn:E2.
  { apply String.eqb_eq in E2 as ->. symmetry. apply bool_decide_eq_true. set_solver. }
  destruct (String.eqb s "functionCall") eqn:E3.
  { apply String.eqb_eq in E3 as ->. symmetry. apply bool_decide_eq_true. set_solver. }
  apply String.eqb_neq in E1, E2, E3. symmetry. apply bool_decide_eq_false. set_solver.
Qed.

Lemma collectToolCall_ids acc block :
  tc_id <$> collectToolCall acc block =
  (tc_id <$> acc) ++ option_list (toolCallBlockId block).
Proof.
  unfold collectToolCall, toolCallBlockId, isToolCallBlock.
  destruct (isObject block); cbn [negb andb]; [|by rewrite app_nil_r].
  rewrite tool_call_type_agrees.
  destruct (nonEmptyString (getField "id" block)) as [id|].
  - destruct (getField "type" block) as [| | | |s| |]; try by rewrite app_nil_r.
    destruct (bool_decide _); [|by rewrite app_nil_r]. by rewrite fmap_app.
  - destruct (getField "type" block) as [| | | |s| |]; try by rewrite app_nil_r.
    destruct (bool_decide _); by rewrite app_nil_r.
Qed.

Lemma collectToolCalls_ids content acc :
  tc_id <$> foldl collectToolCall acc content =
  (tc_id <$> acc) ++ omap toolCallBlockId content.
Proof.
  revert acc. induction content as [|b bs IH]; intros acc; simpl; [by rewrite app_nil_r|].
  rewrite IH, collectToolCall_ids, <- app_assoc. f_equal.
  by destruct (toolCallBlockId b).
Qed.

(** X17: the ids that [extractToolCallsFromAssistant] returns are, in
    order, the non-empty string ids of the content blocks that
    [isToolCallBlock] accepts: its three type comparisons agree with
    [TOOL_CALL_TYPES]. *)
Theorem extracted_ids_are_tool_call_block_ids msg :
  tc_id <$> extractToolCallsFromAssistant msg =
  match getField "content" msg with
  | VArr content => omap toolCallBlockId content
  | _ => []
  end.
Proof.
  unfold extractToolCallsFromAssistant.
  destruct (getField "content" msg); try done. by rewrite collectToolCalls_ids.
Qed.

Lemma string_length_append (a b : string) :
  String.length (a +:+ b) = String.length a + String.length b.
Proof. induction a as [|c a IH]; simpl; [done|]. by rewrite IH. Qed.

Lemma substring_append_prefix (p q : string) :
  String.substring 0 (String.length p) (p +:+ q) = p.
Proof.
  induction p as [|c p IH]; simpl.
  - by destruct q.
  - by rewrite IH.
Qed.

(** X18: cutting a text twice is cutting it once, and a cut text is at
    most the limit plus the marker long. *)
Theorem truncation_idempotent_and_bounded text :
  truncateToolResultForTextify (truncateToolResultForTextify text) =
    truncateToolResultForTextify text
  ∧ String.length (truncateToolResultForTextify text) ≤
      TEXTIFY_MAX_RESULT_CHARS + String.length TEXTIFY_MARKER.
Proof.
  unfold truncateToolResultForTextify at 2 3 4.
  destruct (String.length text <=? TEXTIFY_MAX_RESULT_CHARS) eqn:Hlen.
  - split.
    + unfold truncateToolResultForTextify. by rewrite Hlen.
    + apply Nat.leb_le in Hlen. lia.
  - apply Nat.leb_gt in Hlen.
    destruct (substring_prefix TEXTIFY_MAX_RESULT_CHARS text) as (rest & _ & Hp); [lia|].
    set (p := String.substring 0 TEXTIFY_MAX_RESULT_CHARS text) in *.
    assert (String.length (p +:+ TEXTIFY_MARKER) =
            TEXTIFY_MAX_RESULT_CHARS + String.length TEXTIFY_MARKER) as Hl.
    { by rewrite string_length_append, Hp. }
    split; [|lia].
    unfold truncateToolResultForTextify.
    assert ((String.length (p +:+ TEXTIFY_MARKER) <=? TEXTIFY_MAX_RESULT_CHARS) = false) as ->.
    { apply Nat.leb_gt. rewrite Hl.
      assert (0 < String.length TEXTIFY_MARKER) by (vm_compute; lia). lia. }
    f_equal. rewrite <- Hp at 1. apply substring_append_prefix.
Qed.

(** ** Every invoked id has exactly one result in the built sequence *)

Lemma results_exact h msgs st :
  (∀ id, (id ∈ r_seenToolResultIds st → countResults id (r_out st) = 1)
         ∧ (id ∉ r_seenToolResultIds st → countResults id (r_out st) = 0)) →
  ∀ id, let st' := repairFrom h st msgs in
        (id ∈ r_seenToolResultIds st' → countResults id (r_out st') = 1)
        ∧ (id ∉ r_seenToolResultIds st' → countResults id (r_out st') = 0).
Proof.
  cbn zeta.
  apply (repairFrom_inv h
           (λ s, ∀ id, (id ∈ r_seenToolResultIds s → countResults id (r_out s) = 1)
                       ∧ (id ∉ r_seenToolResultIds s → countResults id (r_out s) = 0))); simpl.
  - intros m s Hm H id. rewrite countResults_snoc. unfold resultFor. rewrite Hm. simpl.
    rewrite !Nat.add_0_r. apply H.
  - done.
  - done.
  - done.
  - intros k m s Hm Hk Hnot H id. rewrite countResults_snoc. unfold resultFor.
    rewrite Hm, Hk. simpl. destruct (H id) as [H1 H2]. case_bool_decide as Heq; simpl.
    + injection Heq as ->. rewrite (H2 Hnot). split; [done|]. set_solver.
    + rewrite !Nat.add_0_r. split.
      * intros [Hid|Hid]%elem_of_union; [|by apply H1].
        apply elem_of_singleton in Hid. congruence.
      * intros Hid. apply H2. set_solver.
  - done.
Qed.

Lemma seen_mono h msgs st id :
  id ∈ r_seenToolResultIds st → id ∈ r_seenToolResultIds (repairFrom h st msgs).
Proof.
  apply (repairFrom_inv h (λ s, id ∈ r_seenToolResultIds s)); simpl; try done.
  intros; set_solver.
Qed.

(** The id of every invocation of the transcript is marked as seen by
    the end of the run. *)
Lemma invoked_seen h msgs st a c :
  a ∈ msgs → invokes a c → tc_id c ∈ r_seenToolResultIds (repairFrom h st msgs).
Proof.
  intros Ha Hinv. remember (length msgs) as n eqn:Hn. revert msgs st Hn Ha.
  induction n as [n IH] using lt_wf_ind.
  intros [|m rest] st Hn Ha; [by apply elem_of_nil in Ha|].
  simpl in Hn. rewrite repairFrom_cons.
  assert (∀ calls, iteration m = Turn calls →
            tc_id c ∈ r_seenToolResultIds
              (repairFrom h (finishTurn h m calls (scanSpan (callIds calls) st ∅ [] rest))
                 (sp_rest (scanSpan (callIds calls) st ∅ [] rest)))) as Hturn.
  { intros calls Hit. apply iteration_Turn in Hit as (Hm & _ & <- & _).
    set (calls := extractToolCallsFromAssistant m).
    destruct (finishTurn_out h m calls st rest) as (_ & _ & _ & Hseen).
    { apply extractToolCalls_ids_nonempty. }
    apply elem_of_cons in Ha as [->|Ha].
    - apply seen_mono. rewrite Hseen. apply elem_of_union_l.
      unfold callIds. rewrite elem_of_list_to_set. apply list_elem_of_fmap.
      exists c. split; [done|]. by destruct Hinv as (_ & _ & ?).
    - apply (IH (length (sp_rest (scanSpan (callIds calls) st ∅ [] rest)))); [|done|].
      + rewrite scanSpan_rest, length_drop. lia.
      + rewrite scanSpan_rest. apply elem_of_span_or_rest in Ha as [Ha|Ha]; [|done].
        pose proof (spanPrefix_no_assistant rest) as Hno. rewrite Forall_forall in Hno.
        destruct Hinv as (Hasst & _). apply Hno in Ha. congruence. }
  destruct (iteration m) as [| |calls] eqn:Hit.
  - apply elem_of_cons in Ha as [->|Ha]; [|by apply (IH (length rest) ltac:(lia))].
    exfalso. destruct Hinv as (Hasst & Herr & Hc). unfold iteration in Hit.
    rewrite (isAssistant_not_toolResult m), Hasst, Herr in Hit by done. simpl in Hit.
    destruct (extractToolCallsFromAssistant m); [by apply elem_of_nil in Hc|done].
  - apply elem_of_cons in Ha as [->|Ha]; [|by apply (IH (length rest) ltac:(lia))].
    exfalso. apply iteration_Orphan in Hit. destruct Hinv as (Hasst & _).
    apply isAssistant_not_toolResult in Hasst. congruence.
  - by apply Hturn.
Qed.

(** X19: a newly built transcript holds exactly one tool result for the
    id of every tool call that an assistant message of the input makes
    (stop reasons [error] and [aborted] apart). *)
Theorem rebuilt_has_one_result_per_invocation h msgs :
  match messages (repairToolUseResultPairing h msgs) with
  | Fresh out => ∀ a c, a ∈ msgs → invokes a c → countResults (tc_id c) out = 1
  | InputRef => True
  end.
Proof.
  unfold repairToolUseResultPairing. cbn [messages]. destruct (_ || _); [|done].
  intros a c Ha Hinv. change (repairRun h msgs) with (repairFrom h repairInit msgs).
  apply (results_exact h msgs repairInit).
  - intros id. simpl. split; [set_solver|done].
  - by eapply invoked_seen.
Qed.

(** ** Synthetic results under pairwise distinct invocation ids *)

Lemma emitCall_added h sp st c :
  r_added (emitCall h sp st c) =
  r_added st ++ (if sp !! tc_id c is Some _ then [] else [callResult h sp st c]).
Proof.
  unfold emitCall, callResult, pushToolResult. destruct (sp !! tc_id c).
  - rewrite app_nil_r. by repeat case_match.
  - by repeat case_match.
Qed.

Lemma emitCalls_added_in_out h sp calls st :
  resultsKeyed sp → Forall (λ c, tc_id c ≠ "") calls →
  NoDup (tc_id <$> calls) → (∀ k, k ∈ tc_id <$> calls → k ∉ r_seenToolResultIds st) →
  Forall (λ x, x ∈ r_out st) (r_added st) →
  let st' := foldl (emitCall h sp) st calls in
  Forall (λ x, x ∈ r_out st') (r_added st').
Proof.
  intros Hsp Hids. cbn zeta. revert st.
  induction Hids as [|c cs Hc _ IH]; intros st Hnd Hfresh Hin; [done|].
  cbn [fmap list_fmap] in Hnd, Hfresh. apply NoDup_cons in Hnd as [Hc' Hnd].
  destruct (emitCall_spec h sp st c Hsp Hc) as (_ & _ & Hcase).
  rewrite bool_decide_eq_false_2 in Hcase by (apply Hfresh; by left).
  destruct Hcase as [Hout Hseen]. cbn [foldl]. apply IH; [done| |].
  - intros k Hk. rewrite Hseen. apply not_elem_of_union. split; [|apply Hfresh; by right].
    apply not_elem_of_singleton. by intros ->.
  - rewrite emitCall_added, Hout. apply Forall_app. split.
    + eapply Forall_impl; [exact Hin|]. intros x Hx. set_solver.
    + destruct (sp !! tc_id c); [constructor|]. constructor; [set_solver|constructor].
Qed.

Lemma pushRemainder_added rem st :
  r_added (foldl (λ st rem, pushOut rem st) st rem) = r_added st.
Proof. revert st. induction rem as [|m rem IH]; intros st; [done|]. simpl. by rewrite IH. Qed.

Lemma repairFrom_added_in_out h msgs st :
  NoDup (invocationIds msgs) →
  (∀ k, k ∈ invocationIds msgs → k ∉ r_seenToolResultIds st) →
  Forall (λ x, x ∈ r_out st) (r_added st) →
  Forall (λ x, x ∈ r_out (repairFrom h st msgs)) (r_added (repairFrom h st msgs)).
Proof.
  remember (length msgs) as n eqn:Hn. revert msgs st Hn.
  induction n as [n IH] using lt_wf_ind. intros [|m rest] st Hn Hnd Hfresh Hin; [done|].
  simpl in Hn. cbn [invocationIds] in Hnd, Hfresh. apply NoDup_app in Hnd as (Hnd_m & Hdisj & Hnd).
  rewrite repairFrom_cons. destruct (iteration m) as [| |calls] eqn:Hit.
  - apply (IH (length rest)); [lia|done|done| |].
    + intros k Hk. apply Hfresh. set_solver.
    + simpl. eapply Forall_impl; [exact Hin|]. intros x Hx. set_solver.
  - apply (IH (length rest)); [lia|done|done| |done].
    intros k Hk. apply Hfresh. set_solver.
  - cbn zeta. apply iteration_Turn in Hit as (Ha & _ & <- & _). rewrite Ha in *.
    set (calls := extractToolCallsFromAssistant m) in *.
    pose proof (extractToolCalls_ids_nonempty m) as Hids. fold calls in Hids.
    assert (∀ k, k ∈ tc_id <$> calls → k ∉ r_seenToolResultIds st) as Hfresh_m.
    { intros k Hk. apply Hfresh. set_solver. }
    destruct (finishTurn_out h m calls st rest Hids) as (_ & _ & _ & Hseen).
    set (sc := scanSpan (callIds calls) st ∅ [] rest) in *.
    apply (IH (length (sp_rest sc))).
    + unfold sc. rewrite scanSpan_rest, length_drop. lia.
    + done.
    + unfold sc. by rewrite scanSpan_rest, invocationIds_scan_rest.
    + intros k Hk. rewrite Hseen. unfold sc in Hk.
      rewrite scanSpan_rest, invocationIds_scan_rest in Hk.
      apply not_elem_of_union. split; [|apply Hfresh; set_solver].
      unfold callIds. rewrite elem_of_list_to_set. intros Hk'. by apply (Hdisj k).
    + unfold finishTurn. rewrite pushRemainder_added.
      destruct (pushRemainder_out (sp_remainder sc)
                  (foldl (emitCall h (sp_results sc))
                     (if (0 <? size (sp_results sc)) && (0 <? length (sp_remainder sc))
                      then markMoved (pushOut m (sp_state sc)) else pushOut m (sp_state sc))
                     calls)) as [-> _].
      eapply Forall_impl; [|intros x Hx; apply elem_of_app; left; exact Hx].
      apply emitCalls_added_in_out; try done.
      * eapply spanResultsOk_keyed, (scanSpan_results_ok _ st), spanResultsOk_empty.
      * intros k Hk.
        assert (r_seenToolResultIds
                  (if (0 <? size (sp_results sc)) && (0 <? length (sp_remainder sc))
                   then markMoved (pushOut m (sp_state sc)) else pushOut m (sp_state sc))
                = r_seenToolResultIds st) as ->.
        { unfold sc. case_match; simpl; by rewrite scanSpan_seen. }
        by apply Hfresh_m.
      * destruct (scanSpan_frame (callIds calls) st ∅ [] rest) as (Ho & Hadd & _).
        fold sc in Ho, Hadd.
        assert (∀ s : RepairState, r_added s = r_added st → r_out s = r_out st ++ [m] →
                  Forall (λ x, x ∈ r_out s) (r_added s)) as Hpush.
        { intros s -> ->. eapply Forall_impl; [exact Hin|]. intros x Hx. set_solver. }
        case_match; apply Hpush; simpl; by rewrite ?Ho, ?Hadd.
Qed.

(** X20: when the invocation ids of the transcript are pairwise
    distinct, every synthetic result reported in [added] is in the
    newly built transcript. *)
Theorem added_results_are_in_transcript h msgs :
  NoDup (invocationIds msgs) →
  let r := repairToolUseResultPairing h msgs in
  Forall (λ x, x ∈ deref msgs (messages r)) (added r).
Proof.
  intros Hnd. cbn zeta. unfold repairToolUseResultPairing. cbn [messages added].
  pose proof (repairFrom_added_in_out h msgs repairInit Hnd) as H.
  change (repairFrom h repairInit msgs) with (repairRun h msgs) in H.
  destruct (r_changed (repairRun h msgs) || r_moved (repairRun h msgs)) eqn:Hch; cbn [deref].
  - apply H; [intros k _; set_solver|constructor].
  - apply orb_false_iff in Hch as [Hc _].
    pose proof (changeRecorded_run h msgs) as [_ Hrec].
    destruct (r_added (repairRun h msgs)) as [|x l]; [constructor|].
    rewrite Hrec in Hc; [done|]. right; left. done.
Qed.

Lemma added_results_are_in_transcript_witness :
  let msgs := [mkAssistant [mkToolCall "a" "t"; mkToolCall "b" "t"]; mkUser "next";
               mkToolResult "b" "t" "late"] in
  let r := repairToolUseResultPairing host0 msgs in
  Forall (λ x, x ∈ deref msgs (messages r)) (added r).
Proof.
  apply added_results_are_in_transcript.
  change (NoDup ["a"; "b"]). apply NoDup_cons. split; [set_solver|apply NoDup_singleton].
Defined.

(** ** The sanitizer works message by message *)

Lemma sanitize_fold_from_init msgs st :
  s_out (foldl sanitizeStep st msgs) = s_out st ++ s_out (foldl sanitizeStep sanitizeInit msgs).
Proof.
  revert st. induction msgs as [|m msgs IH] using rev_ind; intros st.
  { simpl. by rewrite app_nil_r. }
  rewrite !foldl_app. cbn [foldl].
  assert (∀ s, s_out (sanitizeStep s m) = s_out s ++ s_out (sanitizeStep sanitizeInit m)) as Hstep.
  { intros s. unfold sanitizeStep. repeat case_match; simpl; by rewrite ?app_nil_r. }
  rewrite (Hstep (foldl sanitizeStep st msgs)), (Hstep (foldl sanitizeStep sanitizeInit msgs)).
  by rewrite IH, app_assoc.
Qed.

Lemma sanitize_built msgs : sanitizeToolCallInputs msgs = s_out (sanitizeRun msgs).
Proof.
  unfold sanitizeToolCallInputs, repairToolCallInputs. cbn [ir_messages].
  destruct (s_changed (sanitizeRun msgs)) eqn:Hch; cbn [deref]; [done|].
  unfold sanitizeRun in *. by rewrite sanitize_fold_unchanged.
Qed.

(** X21: the sanitizer works message by message: the sanitized
    concatenation of two transcripts is the concatenation of the
    sanitized transcripts. *)
Theorem sanitizer_distributes_over_append msgs1 msgs2 :
  sanitizeToolCallInputs (msgs1 ++ msgs2) =
  sanitizeToolCallInputs msgs1 ++ sanitizeToolCallInputs msgs2.
Proof.
  rewrite !sanitize_built. unfold sanitizeRun. rewrite foldl_app.
  by rewrite sanitize_fold_from_init.
Qed.

(** ** Where the messages of the textified transcript come from *)

Lemma textifyCalls_results h idx tcs acc :
  Forall (λ m, strictEqStr (role m) "user" = true ∧ isString (getField "content" m) = true)
         (a_resultMessages acc) →
  Forall (λ m, strictEqStr (role m) "user" = true ∧ isString (getField "content" m) = true)
         (a_resultMessages (foldl (textifyCall h idx) acc tcs)).
Proof.
  revert acc. induction tcs as [|tc tcs IH]; intros acc Hacc; [done|].
  simpl. apply IH. unfold textifyCall. case_match; simpl; [|done].
  apply Forall_app. split; [done|]. by constructor.
Qed.

Lemma textify_fold_origin h idx (src msgs : list value) st :
  (∀ m, m ∈ msgs → m ∈ src) →
  let origin x :=
    x ∈ src
    ∨ (∃ m content, m ∈ src ∧ hasTextifiedBlock m = true
                    ∧ x = withField "content" (VArr content) m)
    ∨ (strictEqStr (role x) "user" = true ∧ isString (getField "content" x) = true) in
  Forall origin (t_out st) → Forall origin (t_out (foldl (textifyStep h idx) st msgs)).
Proof.
  cbn zeta. revert st. induction msgs as [|m msgs IH]; intros st Hsrc Hst; [done|].
  simpl. apply IH; [intros x Hx; apply Hsrc; by right|].
  assert (m ∈ src) as Hm by (apply Hsrc; by left).
  destruct (textifyStep_cases h idx st m)
    as [[-> _]|[[-> _]|(c & a & Hhas & _ & _ & Hacc & ->)]]; simpl.
  - apply Forall_app. split; [done|]. constructor; [by left|constructor].
  - done.
  - rewrite !Forall_app. split; [split; [done|]|].
    + constructor; [|constructor]. right; left. eauto.
    + eapply Forall_impl.
      * rewrite Hacc. apply textifyCalls_results. constructor.
      * intros x Hx. by right; right.
Qed.

(** X22: every message of the transcript the textifier returns is a
    message of the input, an assistant message of the input with its
    content replaced, or a user message with a string content. *)
Theorem textified_messages_origin h msgs :
  Forall (λ x, x ∈ msgs
               ∨ (∃ m content, m ∈ msgs ∧ hasTextifiedBlock m = true
                               ∧ x = withField "content" (VArr content) m)
               ∨ (strictEqStr (role x) "user" = true
                  ∧ isString (getField "content" x) = true))
         (deref msgs (textifyToolCallRounds h msgs)).
Proof.
  unfold textifyToolCallRounds, textifyRun. destruct (t_changed _); cbn [deref].
  - apply (textify_fold_origin h _ msgs msgs textifyInit); [done|constructor].
  - apply Forall_forall. intros x Hx. by left.
Qed.

(** ** The clock, and transcripts without assistant messages *)

(** X23: the clock decides nothing: the counts of the report, its
    [moved] flag and the choice between the input array and a new one
    are the same under any two clocks. *)
Theorem report_independent_of_clock h1 h2 msgs :
  let r1 := repairToolUseResultPairing h1 msgs in
  let r2 := repairToolUseResultPairing h2 msgs in
  droppedDuplicateCount r1 = droppedDuplicateCount r2
  ∧ droppedOrphanCount r1 = droppedOrphanCount r2
  ∧ moved r1 = moved r2
  ∧ (messages r1 = InputRef ↔ messages r2 = InputRef).
Proof.
  cbn zeta. unfold repairToolUseResultPairing.
  cbn [droppedDuplicateCount droppedOrphanCount moved messages].
  destruct (repairFrom_sameFlags h1 h2 msgs repairInit repairInit) as (_ & Hd & Ho & Hm & Hc);
    [done|].
  change (repairFrom ?h repairInit msgs) with (repairRun h msgs) in Hd, Ho, Hm, Hc.
  rewrite Hd, Ho, Hm, Hc. split_and!; try done.
  destruct (_ || _); [split; intros [=]|done].
Qed.

(** X24: in a transcript without assistant messages every tool result
    is an orphan: the repairer returns the other messages in order,
    counts one orphan per tool result, and adds nothing. *)
Theorem transcript_without_assistant h msgs :
  Forall (λ m, isAssistant m = false) msgs →
  let r := repairToolUseResultPairing h msgs in
  sanitizeToolUseResultPairing h msgs = List.filter notToolResult msgs
  ∧ droppedOrphanCount r = length (List.filter isToolResult msgs)
  ∧ droppedDuplicateCount r = 0
  ∧ added r = [].
Proof.
  intros Hno. cbn zeta.
  destruct (repairFrom_no_assistant h msgs repairInit Hno) as (Hout & Ho & Hd & Ha & _ & Hc).
  change (repairFrom h repairInit msgs) with (repairRun h msgs) in Hout, Ho, Hd, Ha, Hc.
  simpl in Hout, Ho, Hd, Ha, Hc.
  unfold sanitizeToolUseResultPairing, repairToolUseResultPairing.
  cbn [messages droppedOrphanCount droppedDuplicateCount added].
  split_and!; try done.
  destruct (r_changed (repairRun h msgs) || r_moved (repairRun h msgs)) eqn:Hch; cbn [deref];
    [done|].
  apply orb_false_iff in Hch as [Hch _]. rewrite Hch in Hc. symmetry in Hc.
  apply Nat.ltb_ge in Hc.
  assert (List.filter isToolResult msgs = []) as Hnil.
  { destruct (List.filter isToolResult msgs); [done|simpl in Hc; lia]. }
  clear -Hnil. induction msgs as [|m msgs IH]; simpl in *; [done|].
  unfold notToolResult at 1. destruct (isToolResult m); [done|]. simpl. f_equal. by apply IH.
Qed.

Lemma transcript_without_assistant_witness :
  let msgs := [mkUser "hello"; mkToolResult "a" "t" "stray"; mkUser "again"] in
  let r := repairToolUseResultPairing host0 msgs in
  sanitizeToolUseResultPairing host0 msgs = List.filter notToolResult msgs
  ∧ droppedOrphanCount r = length (List.filter isToolResult msgs)
  ∧ droppedDuplicateCount r = 0
  ∧ added r = [].
Proof.
  apply transcript_without_assistant. repeat constructor.
Defined.

(** ** The text of a result, and the arguments payload of a block *)

Lemma truncation_keeps_nonempty text :
  text ≠ "" → truncateToolResultForTextify text ≠ "".
Proof.
  intros Hne. unfold truncateToolResultForTextify. destruct (_ <=? _) eqn:Hlen; [done|].
  apply Nat.leb_gt in Hlen.
  destruct text as [|c text]; [done|]. unfold TEXTIFY_MAX_RESULT_CHARS. simpl. done.
Qed.

(** X25: the text embedded for a tool result is empty only when the
    content of the result is the empty string: an array without text
    and any other content give a placeholder. *)
Theorem embedded_text_empty_only_for_empty_string msg :
  extractToolResultText msg = "" → getField "content" msg = VStr "".
Proof.
  unfold extractToolResultText.
  destruct (getField "content" msg) as [| | | |s|content|]; try done.
  - intros H. destruct s as [|c s]; [done|].
    by apply truncation_keeps_nonempty in H.
  - intros H. apply truncation_keeps_nonempty in H; [done|].
    destruct (String.eqb _ "") eqn:E; [done|]. by apply String.eqb_neq in E.
Qed.

Lemma embedded_text_empty_only_for_empty_string_witness :
  getField "content" (VObj [("role", VStr "toolResult"); ("content", VStr "")]) = VStr "".
Proof. by apply embedded_text_empty_only_for_empty_string. Defined.

Lemma absent_field_undefined k block : hasField k block = false → getField k block = VUndefined.
Proof.
  destruct block as [| | | | | |fields]; try done. simpl.
  by destruct (lookupField k fields).
Qed.

(** X26: a block carries an arguments payload exactly when [input] or
    [arguments] is neither [undefined] nor [null]: the two key-presence
    tests never decide. *)
Theorem arguments_payload_is_non_nullish block :
  hasToolCallInput block =
  notNullish (getField "input" block) || notNullish (getField "arguments" block).
Proof.
  unfold hasToolCallInput.
  destruct (hasField "input" block) eqn:Hi, (hasField "arguments" block) eqn:Ha;
    try apply absent_field_undefined in Hi; try apply absent_field_undefined in Ha;
    by rewrite ?Hi, ?Ha.
Qed.

(** ** A repaired transcript needs no further repair *)

Lemma invocationIds_others l : invocationIds (List.filter notToolResult l) = invocationIds l.
Proof.
  induction l as [|m l IH]; simpl; [done|].
  unfold notToolResult at 1. destruct (isToolResult m) eqn:Htr; simpl.
  - by rewrite (isToolResult_not_assistant m Htr).
  - by rewrite IH.
Qed.

(** The look-ahead over the results of a turn, none of them emitted
    before, and over messages that are no tool results counts nothing. *)
Lemma scanSpan_settled ids st sp rem0 res rem :
  Forall (λ x, isToolResult x = true
               ∧ ∃ k, extractToolResultId x = Some k ∧ k ∈ ids
                      ∧ k ∉ r_seenToolResultIds st) res →
  Forall (λ x, isAssistant x = false ∧ isToolResult x = false) rem →
  sp_state (scanSpan ids st sp rem0 (res ++ rem)) = st.
Proof.
  intros Hres Hrem. revert sp. induction Hres as [|x res (Htr & k & Hk & Hin & Hseen) _ IH];
    intros sp.
  - simpl. revert rem0. induction Hrem as [|y rem [Ha Hy] _ IH]; intros rem0; [done|].
    rewrite scanSpan_cons, Ha, Hy. apply IH.
  - rewrite <- app_comm_cons, scanSpan_cons.
    rewrite (isToolResult_not_assistant _ Htr), Htr, Hk.
    rewrite bool_decide_eq_true_2, bool_decide_eq_false_2 by done. apply IH.
Qed.

Lemma emitCalls_found h sp calls st :
  (∀ c, c ∈ calls → is_Some (sp !! tc_id c)) →
  r_added (foldl (emitCall h sp) st calls) = r_added st.
Proof.
  revert st. induction calls as [|c cs IH]; intros st Hall; [done|].
  cbn [foldl]. rewrite IH by (intros c' Hc'; apply Hall; by right).
  rewrite emitCall_added. destruct (Hall c) as [x ->]; [by left|]. by rewrite app_nil_r.
Qed.

Lemma finishTurn_added h m calls sc :
  r_added (finishTurn h m calls sc) =
  r_added (foldl (emitCall h (sp_results sc))
             (if (0 <? size (sp_results sc)) && (0 <? length (sp_remainder sc))
              then markMoved (pushOut m (sp_state sc)) else pushOut m (sp_state sc))
             calls).
Proof. unfold finishTurn. by rewrite pushRemainder_added. Qed.

(** One turn, run again on what it emitted, when its ids are pairwise
    distinct and were not emitted before: nothing is added and no orphan
    is counted. *)
Lemma turn_replay_quiet h2 m calls st2 res rem :
  iteration m = Turn calls →
  NoDup (tc_id <$> calls) →
  emittedOk (callIds calls) (r_seenToolResultIds st2) res →
  Forall2 (λ c x, isToolResult x = true ∧ extractToolResultId x = Some (tc_id c)) calls res →
  Forall (λ x, isAssistant x = false ∧ isToolResult x = false) rem →
  let st2' := repairFrom h2 st2 (m :: res ++ rem) in
  r_added st2' = r_added st2 ∧ r_droppedOrphanCount st2' = r_droppedOrphanCount st2.
Proof.
  intros Hit Hnd [Hres Hndres] Hall Hrem. cbn zeta.
  rewrite repairFrom_cons, Hit. cbn zeta.
  set (ids := callIds calls). set (sc := scanSpan ids st2 ∅ [] (res ++ rem)).
  assert (Forall (λ x, isAssistant x = false) (res ++ rem)) as Hna.
  { apply Forall_app. split.
    - eapply Forall_impl; [exact Hres|]. intros x [Htr _]. by apply isToolResult_not_assistant.
    - eapply Forall_impl; [exact Hrem|]. by intros x [? _]. }
  assert (sp_rest sc = []) as ->.
  { unfold sc. rewrite scanSpan_rest, spanPrefix_id by done. apply drop_all. }
  rewrite repairFrom_nil.
  assert (sp_state sc = st2) as Hst by (by apply scanSpan_settled).
  assert (∀ c, c ∈ calls → is_Some (sp_results sc !! tc_id c)) as Hfound.
  { intros c Hc. apply list_elem_of_lookup in Hc as [i Hi].
    destruct (Forall2_lookup_l _ _ _ _ _ Hall Hi) as (x & Hx & _ & Hid).
    exists x. unfold sc. apply scanSpan_collects; [|done|by eapply list_elem_of_lookup_2|done].
    eapply Forall_impl; [exact Hres|]. intros y (? & k & ? & ? & ?).
    split; [done|]. exists k. by rewrite lookup_empty. }
  split.
  - rewrite finishTurn_added, emitCalls_found by done. rewrite Hst. by case_match.
  - by rewrite finishTurn_orphans, Hst.
Qed.

Lemma replay_quiet h1 h2 msgs st1 st2 o :
  NoDup (invocationIds msgs) →
  (∀ k, k ∈ invocationIds msgs → k ∉ r_seenToolResultIds st1) →
  r_seenToolResultIds st1 = r_seenToolResultIds st2 →
  r_out (repairFrom h1 st1 msgs) = r_out st1 ++ o →
  r_added (repairFrom h2 st2 o) = r_added st2
  ∧ r_droppedOrphanCount (repairFrom h2 st2 o) = r_droppedOrphanCount st2.
Proof.
  remember (length msgs) as n eqn:Hn. revert msgs st1 st2 o Hn.
  induction n as [n IH] using lt_wf_ind. intros [|m rest] st1 st2 o Hn Hnd Hfresh Hseen Hout.
  { rewrite repairFrom_nil in Hout. rewrite <- (app_nil_r (r_out st1)) in Hout at 1.
    apply app_inv_head in Hout as <-. by rewrite repairFrom_nil. }
  simpl in Hn. cbn [invocationIds] in Hnd, Hfresh. apply NoDup_app in Hnd as (Hnd_m & Hdisj & Hnd).
  rewrite repairFrom_cons in Hout. destruct (iteration m) as [| |calls] eqn:Hit.
  - destruct (repairFrom_out_extends h1 rest (pushOut m st1)) as [o' Ho'].
    rewrite Ho' in Hout. simpl in Hout. rewrite <- app_assoc in Hout.
    apply app_inv_head in Hout. simpl in Hout. subst o.
    rewrite repairFrom_cons, Hit.
    apply (IH (length rest) ltac:(lia) rest (pushOut m st1) (pushOut m st2) o'); try done.
    intros k Hk. apply Hfresh. set_solver.
  - apply (IH (length rest) ltac:(lia) rest (dropOrphan st1) st2 o); try done.
    intros k Hk. apply Hfresh. set_solver.
  - cbn zeta in Hout. apply iteration_Turn in Hit as Hit'.
    destruct Hit' as (Ha & _ & Hcalls & _). rewrite Ha in *.
    pose proof (extractToolCalls_ids_nonempty m) as Hids. rewrite Hcalls in Hids, Hnd_m, Hdisj, Hfresh.
    assert (∀ k, k ∈ tc_id <$> calls → k ∉ r_seenToolResultIds st1) as Hfresh_m.
    { intros k Hk. apply Hfresh. set_solver. }
    destruct (finishTurn_replay h1 h2 m calls st1 st2 rest Hit Hids Hseen)
      as (res & st2' & Hout1 & Hout2 & Hseen' & Hrun).
    destruct (finishTurn_out h1 m calls st1 rest Hids) as (res0 & Hout0 & Hok & Hseen1).
    destruct (finishTurn_out_all h1 m calls st1 rest Hids Hnd_m Hfresh_m)
      as (res1 & Hout1' & Hall & _).
    set (sc1 := scanSpan (callIds calls) st1 ∅ [] rest) in *.
    set (rem := List.filter notToolResult (spanPrefix rest)) in *.
    assert (res0 = res) as ->.
    { rewrite Hout0 in Hout1. apply app_inv_head in Hout1. injection Hout1 as Hout1.
      by apply app_inv_tail in Hout1. }
    assert (res1 = res) as ->.
    { rewrite Hout1' in Hout1. apply app_inv_head in Hout1. injection Hout1 as Hout1.
      by apply app_inv_tail in Hout1. }
    destruct (repair_replay h1 h2 (sp_rest sc1) (finishTurn h1 m calls sc1) st2')
      as (o' & Ho1 & _ & _ & Hled); [done|].
    assert (assistantLed o') as Hlo.
    { apply Hled. unfold sc1. rewrite scanSpan_rest. apply assistantLed_drop_spanPrefix. }
    rewrite Ho1, Hout1 in Hout. rewrite <- app_assoc in Hout.
    apply app_inv_head in Hout. simpl in Hout. rewrite <- app_assoc in Hout. subst o.
    rewrite (Hrun o' Hlo).
    assert (st2' = repairFrom h2 st2 (m :: res ++ rem)) as Hst2'.
    { specialize (Hrun [] I). rewrite repairFrom_nil, app_nil_r in Hrun. done. }
    destruct (turn_replay_quiet h2 m calls st2 res rem Hit Hnd_m) as [Hadd Horph].
    { by rewrite <- Hseen. }
    { done. }
    { unfold rem. apply Forall_forall. intros x Hx. split.
      - pose proof (spanPrefix_filter_no_assistant rest) as H.
        rewrite Forall_forall in H. by apply H.
      - pose proof (filter_notToolResult (spanPrefix rest)) as H.
        rewrite Forall_forall in H. by apply H. }
    rewrite <- Hst2' in Hadd, Horph. rewrite <- Hadd, <- Horph.
    apply (IH (length (sp_rest sc1))) with (msgs := sp_rest sc1)
      (st1 := finishTurn h1 m calls sc1); try done.
    + unfold sc1. rewrite scanSpan_rest, length_drop. lia.
    + unfold sc1. by rewrite scanSpan_rest, invocationIds_scan_rest.
    + intros k Hk. rewrite Hseen1. unfold sc1 in Hk.
      rewrite scanSpan_rest, invocationIds_scan_rest in Hk.
      apply not_elem_of_union. split; [|apply Hfresh; set_solver].
      unfold callIds. rewrite elem_of_list_to_set. intros Hk'. by apply (Hdisj k).
Qed.

(** X27: when the invocation ids of the transcript are pairwise
    distinct, the transcript the repairer returns needs no further
    repair: a second run, under any clock, adds nothing and counts
    neither a duplicate nor an orphan. *)
Theorem repaired_transcript_needs_no_repair h1 h2 msgs :
  NoDup (invocationIds msgs) →
  let again := repairToolUseResultPairing h2 (sanitizeToolUseResultPairing h1 msgs) in
  added again = [] ∧ droppedDuplicateCount again = 0 ∧ droppedOrphanCount again = 0.
Proof.
  intros Hnd. cbn zeta.
  assert (NoDup (invocationIds (sanitizeToolUseResultPairing h1 msgs))) as Hnd'.
  { rewrite <- invocationIds_others.
    unfold sanitizeToolUseResultPairing, repairToolUseResultPairing. cbn [messages].
    destruct (_ || _); cbn [deref]; [|by rewrite invocationIds_others].
    change (repairRun h1 msgs) with (repairFrom h1 repairInit msgs).
    rewrite repairFrom_keeps_others. simpl. by rewrite invocationIds_others. }
  split; [|split].
  2: { unfold repairToolUseResultPairing at 1. cbn [droppedDuplicateCount].
       change (repairRun h2 ?l) with (repairFrom h2 repairInit l).
       rewrite repairFrom_no_duplicates; [done|done|]. intros k _. set_solver. }
  all: unfold sanitizeToolUseResultPairing, repairToolUseResultPairing;
    cbn [messages added droppedOrphanCount];
    destruct (r_changed (repairRun h1 msgs) || r_moved (repairRun h1 msgs)) eqn:Hch;
    cbn [deref].
  - change (repairRun h2 ?l) with (repairFrom h2 repairInit l).
    apply (replay_quiet h1 h2 msgs repairInit repairInit); try done;
      intros k _; set_solver.
  - apply orb_false_iff in Hch as [Hc _].
    destruct (repairFrom_sameFlags h1 h2 msgs repairInit repairInit) as (_ & _ & _ & _ & Hc');
      [done|].
    change (repairFrom ?h repairInit msgs) with (repairRun h msgs) in Hc'.
    rewrite Hc in Hc'. pose proof (changeRecorded_run h2 msgs) as [_ Hrec].
    destruct (r_added (repairRun h2 msgs)); [done|].
    rewrite Hrec in Hc'; [done|]. right; left. done.
  - change (repairRun h2 ?l) with (repairFrom h2 repairInit l).
    apply (replay_quiet h1 h2 msgs repairInit repairInit); try done;
      intros k _; set_solver.
  - apply orb_false_iff in Hch as [Hc _].
    destruct (repairFrom_sameFlags h1 h2 msgs repairInit repairInit) as (_ & _ & _ & _ & Hc');
      [done|].
    change (repairFrom ?h repairInit msgs) with (repairRun h msgs) in Hc'.
    rewrite Hc in Hc'. pose proof (changeRecorded_run h2 msgs) as [_ Hrec].
    destruct (r_droppedOrphanCount (repairRun h2 msgs)); [done|].
    rewrite Hrec in Hc'; [done|]. right; right; right. lia.
Qed.

Lemma repaired_transcript_needs_no_repair_witness :
  let msgs := [mkAssistant [mkToolCall "a" "t"; mkToolCall "b" "t"]; mkUser "next";
               mkToolResult "b" "t" "late"; mkToolResult "c" "t" "stray"] in
  let again := repairToolUseResultPairing host0 (sanitizeToolUseResultPairing host0 msgs) in
  added again = [] ∧ droppedDuplicateCount again = 0 ∧ droppedOrphanCount again = 0.
Proof.
  apply repaired_transcript_needs_no_repair.
  change (NoDup ["a"; "b"]). apply NoDup_cons. split; [set_solver|apply NoDup_singleton].
Defined.
